(** * Soft Actor-Critic (sac/main.py): a shallow embedding and its properties

    The development follows the layout of [sac/main.py]:

    - [Py]: the Python run-time behaviour the program relies on (exceptions,
      list indexing, [zip], [random.sample]);
    - [Replay]: the class [ExpReplay];
    - [Torch]: the tensor operations used by the networks and the losses;
    - [Config]: the configuration constants;
    - [Nets]: the classes [Actor] and [QNet];
    - [Value]: the class [VNet], which the program imports;
    - [SAC]: [optimize_model], [evaluate_episode], the body of the training
      loop and the set-up of [__main__];
    - [Spec]: the formulas of the specification, to compare the code with;
    - [PerDimension]: the loss formulas with one log-probability for each
      action dimension, as the program computes them;
    - [Example]: small instances.

    The properties follow the definitions.

    Numbers are real numbers (the rounding of the floating-point formats is
    not part of the model), a tensor is the list of its entries, and every
    random draw is an explicit argument or an explicit list of equally likely
    outcomes.  Automatic differentiation and the Adam optimizer belong to
    the library: they are parameters of the model, and so is what
    [backward] does on a graph whose saved tensors an optimizer has
    overwritten in place, which differs between versions of the library. *)

From Stdlib Require Import List Arith ZArith Bool Lia.
From Stdlib Require Import Reals Lra.
From Stdlib Require Import Permutation.
Import ListNotations.

Set Implicit Arguments.

(* ================================================================= *)
(** ** Python run-time model *)

Module Py.

(** The exceptions that the modelled code can raise. *)
Inductive exn : Type :=
| IndexError          (* list assignment index out of range *)
| ZeroDivisionError   (* modulo by zero *)
| ValueError          (* random.sample / tuple unpacking *)
| RuntimeError.       (* autograd: a saved tensor was modified in place *)

Inductive result (A : Type) : Type :=
| Ok (a : A)
| Raise (e : exn).
Arguments Ok {A} a.
Arguments Raise {A} e.

Definition bind {A B} (m : result A) (k : A -> result B) : result B :=
  match m with
  | Ok a => k a
  | Raise e => Raise e
  end.

(** [l[i] = x] for a non-negative index [i]. *)
Fixpoint list_set {X} (l : list X) (i : nat) (x : X) : list X :=
  match l, i with
  | [], _ => []
  | _ :: t, O => x :: t
  | h :: t, S j => h :: list_set t j x
  end.

Definition setitem {X} (l : list X) (i : nat) (x : X) : result (list X) :=
  if i <? length l then Ok (list_set l i x) else Raise IndexError.

(** The slots of a ring read from the write cursor [p] on, and the last
    [C] entries of a list. *)
Definition ring_view {X} (p : nat) (l : list X) : list X :=
  skipn p l ++ firstn p l.
Definition lastn {X} (C : nat) (l : list X) : list X :=
  skipn (length l - C) l.

(** [l.append(x)] *)
Definition append {X} (l : list X) (x : X) : list X := l ++ [x].

(** [a % b] on non-negative integers. *)
Definition py_mod (a b : nat) : result nat :=
  if b =? 0 then Raise ZeroDivisionError else Ok (a mod b).

(** [zip(a, b, c, d, e)]: stops at the shortest argument. *)
Definition zip5 {A B C D E} (a : list A) (b : list B) (c : list C)
    (d : list D) (e : list E) : list (A * B * C * D * E) :=
  combine (combine (combine (combine a b) c) d) e.

(** The five columns of rows of five components. *)
Definition columns5 {A B C D E} (rows : list (A * B * C * D * E))
  : list A * list B * list C * list D * list E :=
  (map (fun r => fst (fst (fst (fst r)))) rows,
   map (fun r => snd (fst (fst (fst r)))) rows,
   map (fun r => snd (fst (fst r))) rows,
   map (fun r => snd (fst r)) rows,
   map (fun r => snd r) rows).

(** [a, b, c, d, e = zip( *rows )].  With no row at all, [zip()] yields
    nothing and the five-fold unpacking raises [ValueError]. *)
Definition unzip5 {A B C D E} (rows : list (A * B * C * D * E))
  : result (list A * list B * list C * list D * list E) :=
  match rows with
  | [] => Raise ValueError
  | _ => Ok (columns5 rows)
  end.

(** *** [random.sample]

    [random.sample(population, k)] returns [k] entries taken at pairwise
    different positions of [population], every ordered choice of positions
    being equally likely, and raises [ValueError] unless
    [0 <= k <= len(population)].  The draw is modelled by the list of its
    equally likely outcomes: the first entry is any entry of the pool, the
    pool loses it, and the rest is drawn from what remains. *)

Fixpoint remove_at {X} (i : nat) (l : list X) : list X :=
  match l, i with
  | [], _ => []
  | _ :: t, O => t
  | h :: t, S j => h :: remove_at j t
  end.

Fixpoint selections {X} (k : nat) (pool : list X) : list (list X) :=
  match k with
  | O => [[]]
  | S k' =>
      flat_map
        (fun i =>
           match nth_error pool i with
           | Some x => map (cons x) (selections k' (remove_at i pool))
           | None => []
           end)
        (seq 0 (length pool))
  end.

Definition random_sample {X} (population : list X) (k : Z)
  : result (list (list X)) :=
  if ((k <? 0)%Z || (Z.of_nat (length population) <? k)%Z)%bool
  then Raise ValueError
  else Ok (selections (Z.to_nat k) population).

(** [n * (n-1) * ... * (n-k+1)], the number of ways to choose [k] of [n]
    positions in order. *)
Fixpoint falling (n k : nat) : nat :=
  match k with
  | O => 1
  | S k' => n * falling (n - 1) k'
  end.

(** A list with the position of every entry. *)
Definition indexed {X} (l : list X) : list (nat * X) :=
  combine (seq 0 (length l)) l.

(** The random state decides which of the equally likely outcomes is
    the one drawn; [pick] stands for that decision. *)
Definition draw {X} (pick : nat) (outcomes : list X) : result X :=
  match outcomes with
  | [] => Raise ValueError
  | o :: _ => Ok (nth (pick mod length outcomes) outcomes o)
  end.

(** Running a computation on every outcome of a draw; an exception in
    any outcome is an exception of the whole. *)
Fixpoint for_each {A B} (f : A -> result B) (l : list A) : result (list B) :=
  match l with
  | [] => Ok []
  | a :: t =>
      bind (f a) (fun b => bind (for_each f t) (fun bs => Ok (b :: bs)))
  end.

End Py.

Import Py.

Notation "x <- m ;; k" := (Py.bind m (fun x => k))
  (at level 61, m at next level, right associativity).

(* ================================================================= *)
(** ** class ExpReplay *)

Module Replay.

Section ExpReplay.

(** The buffer does not look into what it stores. *)
Context {St Ac Rw Dn : Type}.

(** The integer [0] that [add] appends to make room for a new slot. *)
Variables (st0 : St) (ac0 : Ac) (rw0 : Rw) (dn0 : Dn).

Record ExpReplay : Type := mkExpReplay {
  states : list St;
  actions : list Ac;
  next_states : list St;
  rewards : list Rw;
  dones : list Dn;
  pointer : nat;
  max_len : nat
}.

Definition exp_tuple : Type := (St * Ac * Rw * St * Dn)%type.

(** [ExpReplay()] with [replay_buffer_size = capacity]. *)
Definition init (capacity : nat) : ExpReplay :=
  mkExpReplay [] [] [] [] [] 0 capacity.

(** [ExpReplay.add] *)
Definition add (self : ExpReplay) (e : exp_tuple) : result ExpReplay :=
  let grow := length (states self) <? max_len self in
  let states1 := if grow then append (states self) st0 else states self in
  let actions1 := if grow then append (actions self) ac0 else actions self in
  let rewards1 := if grow then append (rewards self) rw0 else rewards self in
  let next_states1 :=
    if grow then append (next_states self) st0 else next_states self in
  let dones1 := if grow then append (dones self) dn0 else dones self in
  let '(state, action, reward, next_state, done) := e in
  states2 <- setitem states1 (pointer self) state ;;
  actions2 <- setitem actions1 (pointer self) action ;;
  rewards2 <- setitem rewards1 (pointer self) reward ;;
  next_states2 <- setitem next_states1 (pointer self) next_state ;;
  dones2 <- setitem dones1 (pointer self) done ;;
  pointer2 <- py_mod (pointer self + 1) (max_len self) ;;
  Ok (mkExpReplay states2 actions2 next_states2 rewards2 dones2
        pointer2 (max_len self)).

(** The five tuples that [sample] returns. *)
Definition batch : Type :=
  (list St * list Ac * list Rw * list St * list Dn)%type.

(** [ExpReplay.sample]: the equally likely batches, or the exception. *)
Definition sample (self : ExpReplay) (batch_size : Z)
  : result (list batch) :=
  picks <- random_sample
             (zip5 (states self) (actions self) (rewards self)
                   (next_states self) (dones self))
             batch_size ;;
  for_each unzip5 picks.

(** [ExpReplay.__len__] *)
Definition len (self : ExpReplay) : nat := length (states self).

(** Inserting a sequence of transitions, first to last. *)
Fixpoint add_all (self : ExpReplay) (es : list exp_tuple)
  : result ExpReplay :=
  match es with
  | [] => Ok self
  | e :: es' => self' <- add self e ;; add_all self' es'
  end.

(** The stored transitions, slot by slot. *)
Definition slots (self : ExpReplay) : list exp_tuple :=
  zip5 (states self) (actions self) (rewards self)
       (next_states self) (dones self).

(** The stored transitions from the oldest to the newest: the slots from
    the write cursor on are older than the slots before it. *)
Definition oldest_first (self : ExpReplay) : list exp_tuple :=
  ring_view (pointer self) (slots self).

(** What holds of every memory that [add] has built: the five lists have
    one length, at most the capacity, and the write cursor is the next
    free slot or, in a full memory, some slot. *)
Record ring_ok (b : ExpReplay) : Prop := {
  ok_capacity : 0 < max_len b;
  ok_actions : length (actions b) = len b;
  ok_rewards : length (rewards b) = len b;
  ok_next_states : length (next_states b) = len b;
  ok_dones : length (dones b) = len b;
  ok_len : len b <= max_len b;
  ok_pointer :
    if len b <? max_len b then pointer b = len b else pointer b < max_len b
}.

(** A choice of [k] slots for a batch: pairwise different slot numbers,
    each with the transition stored in that slot, in the order in which
    the batch lists them. *)
Definition valid_pick (self : ExpReplay) (k : nat)
    (p : list (nat * exp_tuple)) : Prop :=
  length p = k /\ NoDup (map fst p) /\
  Forall (fun ie => nth_error (slots self) (fst ie) = Some (snd ie)) p.

(** The transitions of a batch, row by row. *)
Definition rows (b : batch) : list exp_tuple :=
  let '(st_b, ac_b, rew_b, nst_b, dn_b) := b in
  zip5 st_b ac_b rew_b nst_b dn_b.

End ExpReplay.

(** A memory of capacity 5 that holds two transitions. *)
Definition two_stored : @ExpReplay nat nat nat bool :=
  mkExpReplay [1; 2] [1; 2] [2; 3] [1; 2] [false; false] 2 5.

(** The scenario of section 8 of the specification: seven transitions
    with the rewards 1 to 7, here with the step number as observation
    and action. *)
Definition seven_transitions : list (nat * nat * nat * nat * bool) :=
  map (fun k => (k, k, k, k + 1, false)) (seq 1 7).

End Replay.

(* ================================================================= *)
(** ** Tensor operations *)

Module Torch.

Local Open Scope R_scope.

(** A one-dimensional tensor is the list of its entries; a tensor of
    shape [B, n] is the list of its [B] rows.  Shapes agree the way they
    do in the program, where every size comes from the one environment;
    the one broadcast that the program uses, of a size-1 dimension against
    a longer one, is written out in [bcast]. *)
Definition tensor : Type := list R.
Definition tensor2 : Type := list tensor.

Fixpoint zip_with {A B C} (f : A -> B -> C) (a : list A) (b : list B)
  : list C :=
  match a, b with
  | x :: a', y :: b' => f x y :: zip_with f a' b'
  | _, _ => []
  end.

(** An entrywise binary operation on two rows. *)
Definition bcast (f : R -> R -> R) (x y : tensor) : tensor :=
  match x, y with
  | [x0], _ :: _ :: _ => map (f x0) y
  | _ :: _ :: _, [y0] => map (fun a => f a y0) x
  | _, _ => zip_with f x y
  end.

(** The same on tensors of shape [B, _]. *)
Definition bcast2 (f : R -> R -> R) (x y : tensor2) : tensor2 :=
  zip_with (bcast f) x y.

Definition map2d (f : R -> R) (x : tensor2) : tensor2 := map (map f) x.

Definition sum (x : tensor) : R := fold_right Rplus 0 x.

(** [torch.mean] over every entry of a tensor of shape [B, _]. *)
Definition mean (x : tensor2) : R :=
  sum (concat x) / INR (length (concat x)).

Definition dot (x y : tensor) : R := sum (zip_with Rmult x y).

(** [F.relu] and [torch.clamp] *)
Definition relu (x : tensor) : tensor := map (Rmax 0) x.
Definition clamp (x : tensor) (min max : R) : tensor :=
  map (fun v => Rmin (Rmax v min) max) x.

(** [torch.tanh], [torch.exp], [torch.cat] *)
Definition tanh (x : tensor) : tensor := map Rtrigo_def.tanh x.
Definition exp (x : tensor) : tensor := map Rtrigo_def.exp x.
Definition cat (x y : tensor) : tensor := x ++ y.

(** [tensor.unsqueeze(1)] of a tensor of shape [B]. *)
Definition unsqueeze1 (x : tensor) : tensor2 := map (fun v => [v]) x.

(** [tensor.float()] of booleans. *)
Definition float_of_bool (b : bool) : R := if b then 1 else 0.

(** *** [nn.Linear(in_features, out_features)]: [y = x W^T + b], the
    weight stored row by row. *)
Record Linear : Type := mkLinear {
  in_features : nat;
  out_features : nat;
  weight : tensor;
  bias : tensor
}.

Definition weight_row (l : Linear) (j : nat) : tensor :=
  firstn (in_features l) (skipn (j * in_features l) (weight l)).

Definition linear (l : Linear) (x : tensor) : tensor :=
  map (fun j => dot x (weight_row l j) + nth j (bias l) 0)
      (seq 0 (out_features l)).

(** *** [torch.distributions.Normal]

    [Normal(loc, scale).sample()] is [loc + scale * eps] for a standard
    normal draw [eps], which is an argument here. *)
Definition normal_sample (loc scale eps : tensor) : tensor :=
  zip_with Rplus loc (zip_with Rmult scale eps).

(** [Normal(loc, scale).log_prob(value)], entry by entry. *)
Definition normal_log_prob1 (loc scale value : R) : R :=
  - ((value - loc) ^ 2) / (2 * scale ^ 2) - ln scale - ln (sqrt (2 * PI)).

Definition normal_log_prob (loc scale value : tensor) : tensor :=
  zip_with (fun ls v => normal_log_prob1 (fst ls) (snd ls) v)
           (combine loc scale) value.

(** *** [nn.Module]: the parameter tensors of a network, in the order of
    [parameters()], and the network with these tensors overwritten (what
    an optimizer step or an assignment to [.data] does). *)
Class Module (M : Type) : Type := {
  parameters : M -> list tensor;
  with_parameters : M -> list tensor -> M
}.

#[export] Instance Linear_Module : Module Linear := {
  parameters l := [weight l; bias l];
  with_parameters l ps :=
    mkLinear (in_features l) (out_features l)
             (nth 0 ps (weight l)) (nth 1 ps (bias l))
}.

End Torch.

(* ================================================================= *)
(** ** Configuration constants of [main.py] *)

Module Config.

Local Open Scope R_scope.

Record t : Type := mk {
  hidden_size : nat;
  replay_buffer_size : nat;
  train_batch_size : nat;
  gamma : R;
  target_smoothing_coeff : R;
  logstd_min : R;
  logstd_max : R;
  reward_scaling : R;
  entropy_coeff : R
}.

Definition default : t := {|
  hidden_size := 256;
  replay_buffer_size := Z.to_nat 1000000;
  train_batch_size := 256;
  gamma := 99 / 100;
  target_smoothing_coeff := 5 / 1000;
  logstd_min := -20;
  logstd_max := 2;
  reward_scaling := 1;
  entropy_coeff := - (1 / 10 ^ 10)
|}.

End Config.

(* ================================================================= *)
(** ** The networks *)

Module Nets.

Import Torch.
Local Open Scope R_scope.

Section Networks.

Variable cfg : Config.t.

(** *** class Actor

    The layers [fc1] and [fc2] of the class are [a_fc1] and [a_fc2] here,
    those of [QNet] are [q_fc1], [q_fc2] and [q_fc3]. *)
Record Actor : Type := mkActor {
  a_fc1 : Linear;
  a_fc2 : Linear;
  fc_mean : Linear;
  fc_logstd : Linear;
  output_size : nat;
  action_scale : tensor
}.

(** [Actor.forward] on one observation. *)
Definition Actor_forward (self : Actor) (x : tensor) : tensor * tensor :=
  let x := relu (linear (a_fc1 self) x) in
  let x := relu (linear (a_fc2 self) x) in
  let x_m := linear (fc_mean self) x in
  let x_ls :=
    clamp (linear (fc_logstd self) x)
          (Config.logstd_min cfg) (Config.logstd_max cfg) in
  (x_m, x_ls).

(** [Actor.get_action]; [eps] is the standard normal draw behind
    [Normal(...).sample()]. *)
Definition get_action (self : Actor) (state : tensor) (eps : tensor)
  : tensor :=
  let state_th := state in
  let '(action_mean_th, action_logstd_th) := Actor_forward self state_th in
  let action_th_sampled :=
    bcast Rmult
      (tanh (normal_sample action_mean_th (exp action_logstd_th) eps))
      (action_scale self) in
  action_th_sampled.

(** *** class QNet *)
Record QNet : Type := mkQNet {
  q_fc1 : Linear;
  q_fc2 : Linear;
  q_fc3 : Linear
}.

(** [QNet.forward] on one observation and one action. *)
Definition QNet_forward (self : QNet) (s a : tensor) : tensor :=
  let x := relu (linear (q_fc1 self) s) in
  let x := relu (linear (q_fc2 self) (cat x a)) in
  let x := linear (q_fc3 self) x in
  x.

End Networks.

(** The parameters of a network are those of its layers, in the order in
    which [__init__] registers them. *)
Definition assign2 (l : Linear) (ps : list tensor) (k : nat) : Linear :=
  with_parameters l (firstn 2 (skipn k ps)).

#[export] Instance Actor_Module : Module Actor := {
  parameters m :=
    parameters (a_fc1 m) ++ parameters (a_fc2 m)
      ++ parameters (fc_mean m) ++ parameters (fc_logstd m);
  with_parameters m ps :=
    mkActor (assign2 (a_fc1 m) ps 0) (assign2 (a_fc2 m) ps 2)
            (assign2 (fc_mean m) ps 4) (assign2 (fc_logstd m) ps 6)
            (output_size m) (action_scale m)
}.

#[export] Instance QNet_Module : Module QNet := {
  parameters m :=
    parameters (q_fc1 m) ++ parameters (q_fc2 m) ++ parameters (q_fc3 m);
  with_parameters m ps :=
    mkQNet (assign2 (q_fc1 m) ps 0) (assign2 (q_fc2 m) ps 2)
           (assign2 (q_fc3 m) ps 4)
}.

End Nets.

(* ================================================================= *)
(** ** The state-value network *)

Module Value.

Import Torch.
Local Open Scope R_scope.

(** Modelled from the spec: [VNet], the class that [main.py] imports from
    [sac.networks] and that is not part of the source file.  Section 4.3:
    a function from a state to a scalar with the trunk of the critics
    minus the action input, that is two hidden layers with rectified
    linear activations and a projection to one output. *)
Record VNet : Type := mkVNet {
  v_fc1 : Linear;
  v_fc2 : Linear;
  v_fc3 : Linear
}.

Definition VNet_forward (self : VNet) (s : tensor) : tensor :=
  let x := relu (linear (v_fc1 self) s) in
  let x := relu (linear (v_fc2 self) x) in
  let x := linear (v_fc3 self) x in
  x.

#[export] Instance VNet_Module : Module VNet := {
  parameters m :=
    parameters (v_fc1 m) ++ parameters (v_fc2 m) ++ parameters (v_fc3 m);
  with_parameters m ps :=
    mkVNet (Nets.assign2 (v_fc1 m) ps 0) (Nets.assign2 (v_fc2 m) ps 2)
           (Nets.assign2 (v_fc3 m) ps 4)
}.

End Value.

(* ================================================================= *)
(** ** [optimize_model], [evaluate_episode] and the training loop *)

Module SAC.

Import Torch Nets Value.
Local Open Scope R_scope.

(** The five networks that [__main__] builds. *)
Record Networks : Type := mkNetworks {
  policy : Actor;
  q1_net : QNet;
  q2_net : QNet;
  v_net : VNet;
  v_target_net : VNet
}.

Definition set_policy (n : Networks) (p : Actor) : Networks :=
  mkNetworks p (q1_net n) (q2_net n) (v_net n) (v_target_net n).
Definition set_q_nets (n : Networks) (q1 q2 : QNet) : Networks :=
  mkNetworks (policy n) q1 q2 (v_net n) (v_target_net n).
Definition set_v_net (n : Networks) (v : VNet) : Networks :=
  mkNetworks (policy n) (q1_net n) (q2_net n) v (v_target_net n).
Definition set_v_target_net (n : Networks) (v : VNet) : Networks :=
  mkNetworks (policy n) (q1_net n) (q2_net n) (v_net n) v.

(** The replay memory of the program: observations and actions are
    tensors, rewards are numbers, [done] is a boolean. *)
Definition Memory : Type := @Replay.ExpReplay tensor tensor R bool.
Definition memory_add (m : Memory) (e : Replay.exp_tuple)
  : result Memory :=
  Replay.add (@nil R) (@nil R) 0 false m e.

(** One sampled batch, as [optimize_model] unpacks it. *)
Definition Batch : Type := @Replay.batch tensor tensor R bool.

(** The two random draws of one call of [optimize_model]: which batch
    [memory.sample] returns and the standard normal tensor [z]. *)
Record Draws : Type := mkDraws {
  pick : nat;
  z : tensor2
}.

Section Optimize.

Variable cfg : Config.t.

(** [torch.autograd]: the partial derivatives of a scalar function of
    some parameter tensors, at given values of these tensors.  [backward]
    on a graph whose saved tensors are as the forward pass left them
    differentiates the function that the forward pass has computed, at the
    parameter values of the forward pass. *)
Variable grad : (list tensor -> R) -> list tensor -> list tensor.

(** [backward] on a graph some of whose saved tensors an optimizer has
    since overwritten in place.  What autograd does then depends on the
    version of torch: where [Optimizer.step] bumps the version counters of
    the parameters it writes, [backward] raises [RuntimeError]; elsewhere it
    returns what the chain rule gives with the overwritten tensors in the
    place of the saved ones.  The arguments are the loss as a function of the
    differentiated leaves, these leaves, and the overwritten parameters as
    the forward pass read them and as they are now. *)
Variable stale_grad :
  (list tensor -> R) -> list tensor -> list tensor -> list tensor
  -> result (list tensor).

(** [optim.Adam]: the optimizer's own state (step count and moment
    estimates) and its [step], from the parameters and their gradients
    to the new state and the new parameters. *)
Variable Optimizer : Type.
Variable step : Optimizer -> list tensor -> list tensor
                -> Optimizer * list tensor.

(** The three optimizers of [__main__]: [actor_optimizer] owns the
    parameters of [policy], [q_net_optimizer] the concatenation
    [[*q1_net.parameters(), *q2_net.parameters()]], [v_net_optimizer]
    the parameters of [v_net]. *)
Record Optimizers : Type := mkOptimizers {
  actor_optimizer : Optimizer;
  q_net_optimizer : Optimizer;
  v_net_optimizer : Optimizer
}.

(** *** The forward pass (lines 125-143), as a function of the networks *)
Section Forward.

Variables (b : Batch) (z : tensor2).

Definition states_th : tensor2 := fst (fst (fst (fst b))).
Definition actions_th : tensor2 := snd (fst (fst (fst b))).
Definition rewards_th : tensor2 := unsqueeze1 (snd (fst (fst b))).
Definition next_states_th : tensor2 := snd (fst b).
Definition dones_th : tensor2 :=
  unsqueeze1 (map float_of_bool (snd b)).

Definition Q1_vals (n : Networks) : tensor2 :=
  zip_with (QNet_forward (q1_net n)) states_th actions_th.
Definition Q2_vals (n : Networks) : tensor2 :=
  zip_with (QNet_forward (q2_net n)) states_th actions_th.
Definition V_vals (n : Networks) : tensor2 :=
  map (VNet_forward (v_net n)) states_th.
Definition V_next_state_vals (n : Networks) : tensor2 :=
  map (VNet_forward (v_target_net n)) next_states_th.
Definition pi_action_means (n : Networks) : tensor2 :=
  map (fun s => fst (Actor_forward cfg (policy n) s)) states_th.
Definition pi_action_logstd (n : Networks) : tensor2 :=
  map (fun s => snd (Actor_forward cfg (policy n) s)) states_th.
Definition pi_action_stds (n : Networks) : tensor2 :=
  map2d Rtrigo_def.exp (pi_action_logstd n).

Definition newly_sampled_actions (n : Networks) : tensor2 :=
  bcast2 Rplus (pi_action_means n) (bcast2 Rmult z (pi_action_stds n)).
Definition newly_sampled_action_log_probs (n : Networks) : tensor2 :=
  zip_with (fun ms a => normal_log_prob (fst ms) (snd ms) a)
           (combine (pi_action_means n) (pi_action_stds n))
           (newly_sampled_actions n).
Definition newly_sampled_Q1_vals (n : Networks) : tensor2 :=
  zip_with (QNet_forward (q1_net n)) states_th (newly_sampled_actions n).
Definition newly_sampled_Q2_vals (n : Networks) : tensor2 :=
  zip_with (QNet_forward (q2_net n)) states_th (newly_sampled_actions n).
Definition newly_sampled_Q_minvals (n : Networks) : tensor2 :=
  bcast2 Rmin (newly_sampled_Q1_vals n) (newly_sampled_Q2_vals n).

(** *** The three losses

    Each loss is written as a function of two copies of the networks:
    [cur] holds the values of the forward pass and [var] the leaves
    that [backward] differentiates.  A tensor under [.detach()] reads
    [cur]; every other tensor reads [var].  The number that the program
    reports is the loss at [var = cur]. *)
Definition J_v (cur var : Networks) : R :=
  mean (map2d (fun x => x ^ 2)
          (bcast2 Rminus (V_vals var)
             (bcast2 Rminus (newly_sampled_Q_minvals cur)
                (map2d (Rmult (Config.entropy_coeff cfg))
                       (newly_sampled_action_log_probs cur))))).

Definition q_target (var : Networks) : tensor2 :=
  bcast2 Rplus rewards_th
    (bcast2 Rmult
       (map2d (Rmult (Config.gamma cfg)) (V_next_state_vals var))
       (map2d (fun d => 1 - d) dones_th)).

Definition J_q1 (var : Networks) : R :=
  mean (map2d (fun x => x ^ 2)
          (bcast2 Rminus (Q1_vals var) (q_target var))).
Definition J_q2 (var : Networks) : R :=
  mean (map2d (fun x => x ^ 2)
          (bcast2 Rminus (Q2_vals var) (q_target var))).
Definition J_q (var : Networks) : R := J_q1 var + J_q2 var.

Definition J_pi (var : Networks) : R :=
  mean (bcast2 Rminus
          (map2d (Rmult (Config.entropy_coeff cfg))
                 (newly_sampled_action_log_probs var))
          (newly_sampled_Q_minvals var)).

(** *** The three updates (lines 146-148, 153-155 and 158-160)

    [zero_grad(); backward(); step()] of an optimizer: the gradient of
    the loss with respect to the parameters the optimizer owns, at
    their current values, and one [step] on these parameters. *)
Definition update_v (cur : Networks) (o : Optimizer)
  : Optimizer * VNet :=
  let ps := parameters (v_net cur) in
  let g :=
    grad (fun ps' =>
            J_v cur (set_v_net cur (with_parameters (v_net cur) ps')))
         ps in
  let '(o', ps') := step o ps g in
  (o', with_parameters (v_net cur) ps').

Definition q_params (n : Networks) : list tensor :=
  parameters (q1_net n) ++ parameters (q2_net n).
Definition with_q_params (n : Networks) (ps : list tensor)
  : Networks :=
  let k := length (parameters (q1_net n)) in
  set_q_nets n (with_parameters (q1_net n) (firstn k ps))
               (with_parameters (q2_net n) (skipn k ps)).

Definition update_q (cur : Networks) (o : Optimizer)
  : Optimizer * (QNet * QNet) :=
  let ps := q_params cur in
  let g := grad (fun ps' => J_q (with_q_params cur ps')) ps in
  let '(o', ps') := step o ps g in
  let n' := with_q_params cur ps' in
  (o', (q1_net n', q2_net n')).

(** Lines 158-160.  The graph of [J_pi] holds the weights of the two
    critics, through which the loss reaches the policy; they are the
    parameters that [q_net_optimizer.step()] has overwritten at line 155,
    [q_now], when [J_pi.backward()] runs at line 159. *)
Definition update_pi (cur : Networks) (q_now : list tensor) (o : Optimizer)
  : result (Optimizer * Actor) :=
  let ps := parameters (policy cur) in
  g <- stale_grad
         (fun ps' =>
            J_pi (set_policy cur (with_parameters (policy cur) ps')))
         ps (q_params cur) q_now ;;
  let '(o', ps') := step o ps g in
  Ok (o', with_parameters (policy cur) ps').

(** Lines 125-161 on the batch [b] and the noise [z].  The three losses
    are tensors of the one forward pass through the networks [cur] as they
    are on entry; the optimizers then overwrite their parameters one after
    the other.  The graphs of [J_v] and [J_q] are intact when they are
    differentiated: [J_v] reads the value network, which no optimizer has
    stepped yet, and [J_q] the critics and the target network, which
    [v_net_optimizer] does not own.  The graph of [J_pi] is not. *)
Definition optimize_on_batch (cur : Networks) (opts : Optimizers)
  : result ((R * R * R) * Networks * Optimizers) :=
  let nets := cur in
  let J_v_val := J_v cur cur in
  let '(ov, v') := update_v cur (v_net_optimizer opts) in
  let nets := set_v_net nets v' in
  let J_q_val := J_q cur in
  let '(oq, (q1', q2')) := update_q cur (q_net_optimizer opts) in
  let nets := set_q_nets nets q1' q2' in
  let J_pi_val := J_pi cur in
  r <- update_pi cur (q_params nets) (actor_optimizer opts) ;;
  let '(oa, p') := r in
  let nets := set_policy nets p' in
  Ok ((J_v_val, J_q_val, J_pi_val), nets, mkOptimizers oa oq ov).

End Forward.

(** [optimize_model] *)
Definition optimize_model (nets : Networks) (memory : Memory)
    (opts : Optimizers) (d : Draws)
  : result ((R * R * R) * Networks * Optimizers) :=
  if Replay.len memory <? Config.train_batch_size cfg
  then Ok ((0, 0, 0), nets, opts)
  else
    batches <- Replay.sample memory
                 (Z.of_nat (Config.train_batch_size cfg)) ;;
    b <- draw (pick d) batches ;;
    optimize_on_batch b (z d) nets opts.

(** *** The environment

    The simulator is outside the program: its state [Env], [reset],
    [step] (next observation, reward, done flag), [render] and the upper
    action bound [action_space.high]. *)
Variable Env : Type.
Variable env_reset : Env -> Env * tensor.
Variable env_step : Env -> tensor -> Env * (tensor * R * bool).
Variable env_render : Env -> Env.
Variable action_space_high : tensor.

(** Lines 172 and 175: the action of one evaluation step. *)
Definition eval_action (policy : Actor) (state : tensor) : tensor :=
  let '(action_mean_th, action_logstd_th) :=
    Actor_forward cfg policy state in
  bcast Rmult (tanh action_mean_th) action_space_high.

(** [evaluate_episode]; the loop runs until the environment reports
    [done], [fuel] bounds the number of its iterations. *)
Fixpoint evaluate_loop (fuel : nat) (env : Env) (policy : Actor)
    (state : tensor) (rew_ep : R) (sum_std : tensor) (steps : nat)
  : option (Env * R) :=
  match fuel with
  | O => None
  | S fuel' =>
      let env := env_render env in
      let action_logstd_th := snd (Actor_forward cfg policy state) in
      let steps := (steps + 1)%nat in
      let sum_std := bcast Rplus sum_std (exp action_logstd_th) in
      let action := eval_action policy state in
      let '(env, (next_state, reward, done)) := env_step env action in
      let rew_ep := rew_ep + reward in
      if done then Some (env, rew_ep)
      else evaluate_loop fuel' env policy next_state rew_ep sum_std steps
  end.

Definition evaluate_episode (fuel : nat) (env : Env) (policy : Actor)
  : option (Env * R) :=
  let '(env, state) := env_reset env in
  evaluate_loop fuel env policy state 0 [0] 0.

(** *** The training loop *)

(** Lines 226-227: [t_par.data = par.data*tau + t_par.data*(1-tau)] for
    the pairs of [zip(v_target_net.parameters(), v_net.parameters())];
    a target tensor without a partner keeps its data. *)
Definition smooth_tensor (tau : R) (t_par par : tensor) : tensor :=
  bcast Rplus (map (fun x => x * tau) par)
              (map (fun x => x * (1 - tau)) t_par).

Fixpoint smooth_parameters (tau : R) (t_pars pars : list tensor)
  : list tensor :=
  match t_pars, pars with
  | t_par :: t_pars', par :: pars' =>
      smooth_tensor tau t_par par :: smooth_parameters tau t_pars' pars'
  | _, _ => t_pars
  end.

Definition smooth_target (n : Networks) : Networks :=
  set_v_target_net n
    (with_parameters (v_target_net n)
       (smooth_parameters (Config.target_smoothing_coeff cfg)
          (parameters (v_target_net n)) (parameters (v_net n)))).

Record TrainState : Type := mkTrainState {
  nets : Networks;
  opts : Optimizers;
  memory : Memory;
  env : Env;
  state : tensor;
  steps : nat;
  rew_ep : R;
  loss : R * R * R
}.

(** The random draws of one pass through the loop body: the noise of
    [policy.get_action] and the draws of [optimize_model]. *)
Record StepDraws : Type := mkStepDraws {
  eps : tensor;
  opt_draws : Draws
}.

(** Lines 215-229: one pass through the body of [while not done]. *)
Definition train_step (s : TrainState) (d : StepDraws)
  : result (TrainState * bool) :=
  let steps := (steps s + 1)%nat in
  let action := get_action cfg (policy (nets s)) (state s) (eps d) in
  let '(env, (next_state, reward, done)) := env_step (env s) action in
  let rew_ep := rew_ep s + reward in
  let exp_tuple :=
    (state s, action, Config.reward_scaling cfg * reward,
     next_state, done) in
  memory <- memory_add (memory s) exp_tuple ;;
  r <- optimize_model (nets s) memory (opts s) (opt_draws d) ;;
  let '(loss, nets, opts) := r in
  let nets := smooth_target nets in
  Ok (mkTrainState nets opts memory env next_state steps rew_ep loss,
      done).

(** The states after the successive passes of [while not done], one for
    each entry of [ds] until the environment reports [done]. *)
Fixpoint episode_trace (s : TrainState) (ds : list StepDraws)
  : result (list TrainState) :=
  match ds with
  | [] => Ok []
  | d :: ds' =>
      r <- train_step s d ;;
      let '(s', done) := r in
      if (done : bool) then Ok [s']
      else rest <- episode_trace s' ds' ;; Ok (s' :: rest)
  end.

(** Lines 210-212 followed by the loop. *)
Definition run_episode (s : TrainState) (ds : list StepDraws)
  : result (list TrainState) :=
  let '(env, state) := env_reset (env s) in
  episode_trace
    (mkTrainState (nets s) (opts s) (memory s) env state (steps s) 0
                  (loss s))
    ds.

(** Lines 195-207: the networks as constructed (the layers stand for
    their random initial weights), the target network loaded with the
    parameters of the value network, the optimizers and the memory. *)
Definition main_init (a1 a2 am als : Linear) (output_size : nat)
    (q1 q2 : QNet) (v vt : VNet) (oa oq ov : Optimizer) (env : Env)
  : TrainState :=
  let policy := mkActor a1 a2 am als output_size action_space_high in
  let v_target_net := with_parameters vt (parameters v) in
  mkTrainState (mkNetworks policy q1 q2 v v_target_net)
               (mkOptimizers oa oq ov)
               (Replay.init (Config.replay_buffer_size cfg))
               env [] 0 0 (0, 0, 0).

End Optimize.

End SAC.

(* ================================================================= *)
(** ** The formulas of the specification

    Section 4.5 of the specification, sample by sample and as written
    there; the statements below compare them with what [optimize_model]
    computes on tensors. *)

Module Spec.

Import Torch Nets Value SAC.
Local Open Scope R_scope.

(** The value of a network with one output, and the mean of some numbers. *)
Definition scalar (t : tensor) : R := nth 0 t 0.
Definition avg (l : list R) : R := sum l / INR (length l).

(** The density of the normal distribution. *)
Definition normal_pdf (mu sigma x : R) : R :=
  / (sigma * sqrt (2 * PI))
  * Rtrigo_def.exp (- ((x - mu) ^ 2) / (2 * sigma ^ 2)).

(** The closed form of an exponential moving average with coefficient
    [tau]: after the snapshots [v_1 .. v_N] the target that started at [t0]
    is [(1-tau)^N * t0 + sum_k tau * (1-tau)^(N-k) * v_k]. *)
Fixpoint weighted_history (tau : R) (vs : list R) : R :=
  match vs with
  | [] => 0
  | v :: rest => tau * (1 - tau) ^ length rest * v + weighted_history tau rest
  end.

Definition ema_closed (tau t0 : R) (vs : list R) : R :=
  (1 - tau) ^ length vs * t0 + weighted_history tau vs.

(** Entry [i] of parameter tensor [j], and parameter lists of one shape. *)
Definition entry (ps : list tensor) (j i : nat) : R :=
  nth i (nth j ps []) 0.
Definition same_shape (ps qs : list tensor) : Prop :=
  map (@length R) ps = map (@length R) qs.

Section Formulas.

Variable cfg : Config.t.

Definition gamma : R := Config.gamma cfg.
Definition alpha : R := Config.entropy_coeff cfg.

Definition V (n : Networks) (s : tensor) : R :=
  scalar (VNet_forward (v_net n) s).
Definition V_target (n : Networks) (s : tensor) : R :=
  scalar (VNet_forward (v_target_net n) s).
Definition Q1 (n : Networks) (s a : tensor) : R :=
  scalar (QNet_forward (q1_net n) s a).
Definition Q2 (n : Networks) (s a : tensor) : R :=
  scalar (QNet_forward (q2_net n) s a).

(** [y = r + gamma * (1 - done) * V_target(s')] *)
Definition y (n : Networks) (e : tensor * tensor * R * tensor * bool) : R :=
  let '(s, a, r, s', done) := e in
  r + gamma * (1 - float_of_bool done) * V_target n s'.

(** [J_Q = mean[(Q1(s,a)-y)^2] + mean[(Q2(s,a)-y)^2]] *)
Definition J_Q (n : Networks)
    (batch : list (tensor * tensor * R * tensor * bool)) : R :=
  avg (map (fun e => (Q1 n (fst (fst (fst (fst e)))) (snd (fst (fst (fst e))))
                      - y n e) ^ 2) batch)
  + avg (map (fun e => (Q2 n (fst (fst (fst (fst e))))
                             (snd (fst (fst (fst e))))
                        - y n e) ^ 2) batch).

(** [a' = mean + eps * exp(logstd)], entry by entry. *)
Definition new_action (p : Actor) (s eps : tensor) : tensor :=
  let '(mean, logstd) := Actor_forward cfg p s in
  map (fun mel => fst (fst mel) + snd (fst mel) * Rtrigo_def.exp (snd mel))
      (combine (combine mean eps) logstd).

(** The density of [a'] under the diagonal Gaussian with the means and the
    standard deviations [exp(logstd)] of the policy: the product of the
    densities of its entries. *)
Definition diag_normal_pdf (p : Actor) (s eps : tensor) : R :=
  let '(mean, logstd) := Actor_forward cfg p s in
  fold_right Rmult 1
    (map (fun mla =>
            normal_pdf (fst (fst mla)) (Rtrigo_def.exp (snd (fst mla)))
                       (snd mla))
         (combine (combine mean logstd) (new_action p s eps))).

(** [logprob(a')]: the Gaussian log-probability density of [a'] under
    [(mean, exp(logstd))], one number for each sample. *)
Definition log_density (p : Actor) (s eps : tensor) : R :=
  ln (diag_normal_pdf p s eps).

(** [Qmin' = min(Q1(s,a'), Q2(s,a'))] for the action [a'] of the policy of
    [pol]. *)
Definition Qmin (n pol : Networks) (s eps : tensor) : R :=
  Rmin (Q1 n s (new_action (policy pol) s eps))
       (Q2 n s (new_action (policy pol) s eps)).

(** [J_V = mean[(V(s) - stopgrad(Qmin' - alpha*logprob(a')))^2]], the mean
    over the samples of the batch: the target is computed from the networks
    [cur] of the forward pass, the value from [var]. *)
Definition J_V (cur var : Networks) (states : list tensor) (z : tensor2)
  : R :=
  avg (map (fun sz =>
              (V var (fst sz)
               - (Qmin cur cur (fst sz) (snd sz)
                  - alpha * log_density (policy cur) (fst sz) (snd sz)))
              ^ 2)
           (combine states z)).

(** [J_pi = mean[alpha*logprob(a') - Qmin']], the mean over the samples of
    the batch, everything computed from [var]. *)
Definition J_pi (var : Networks) (states : list tensor) (z : tensor2) : R :=
  avg (map (fun sz =>
              alpha * log_density (policy var) (fst sz) (snd sz)
              - Qmin var var (fst sz) (snd sz))
           (combine states z)).

(** The shapes that the constructors of [__main__] give: one output for the
    critics and the value networks, as many means as log-deviations. *)
Definition scalar_heads (n : Networks) : Prop :=
  out_features (q_fc3 (q1_net n)) = 1%nat /\
  out_features (q_fc3 (q2_net n)) = 1%nat /\
  out_features (v_fc3 (v_net n)) = 1%nat /\
  out_features (v_fc3 (v_target_net n)) = 1%nat.

Definition actor_heads (p : Actor) : Prop :=
  out_features (fc_mean p) = output_size p /\
  out_features (fc_logstd p) = output_size p.

(** [z] has the shape of the means of a batch of [B] observations, as
    [Normal(zeros_like(means), ones_like(stds)).sample()] has. *)
Definition noise_shape (p : Actor) (B : nat) (z : tensor2) : Prop :=
  length z = B /\
  Forall (fun zr => length zr = output_size p) z.

(** [act_deterministic(state)]: [tanh(mean) * action_scale], with no
    sampling. *)
Definition act_deterministic (p : Actor) (state : tensor) : tensor :=
  bcast Rmult (tanh (fst (Actor_forward cfg p state))) (action_scale p).

(** An evaluation episode: until the environment reports [done], render,
    select the action with [act_deterministic], step the environment and
    add the reward to the total; [fuel] bounds the number of steps. *)
Section Evaluation.

Variable Env : Type.
Variable env_reset : Env -> Env * tensor.
Variable env_step : Env -> tensor -> Env * (tensor * R * bool).
Variable env_render : Env -> Env.

Fixpoint evaluation_rollout (fuel : nat) (env : Env) (p : Actor)
    (state : tensor) (total : R) : option (Env * R) :=
  match fuel with
  | O => None
  | S fuel' =>
      let '(env, (next_state, reward, done)) :=
        env_step (env_render env) (act_deterministic p state) in
      if (done : bool) then Some (env, total + reward)
      else evaluation_rollout fuel' env p next_state (total + reward)
  end.

Definition evaluation_episode (fuel : nat) (env : Env) (p : Actor)
  : option (Env * R) :=
  let '(env, state) := env_reset env in
  evaluation_rollout fuel env p state 0.

End Evaluation.

End Formulas.

End Spec.

(* ================================================================= *)
(** ** The losses with one log-probability for each action dimension

    [Normal(mean, std).log_prob(a')] is a tensor of the shape of [a']: the
    program keeps one log-probability for each dimension of the action and
    never adds them up.  These are the formulas of the section above with
    the log-probability taken dimension by dimension. *)

Module PerDimension.

Import Torch Nets Value SAC.
Local Open Scope R_scope.

Section Formulas.

Variable cfg : Config.t.

(** The logarithm of the Gaussian density of every entry of [a'] under the
    mean and the standard deviation [exp(logstd)] of its dimension. *)
Definition logprob (p : Actor) (s eps : tensor) : tensor :=
  let '(mean, logstd) := Actor_forward cfg p s in
  map (fun mla =>
         ln (Spec.normal_pdf (fst (fst mla))
               (Rtrigo_def.exp (snd (fst mla))) (snd mla)))
      (combine (combine mean logstd) (Spec.new_action cfg p s eps)).

(** The same in terms of the noise, with no term for the [tanh] that
    squashes the action afterwards. *)
Definition logprob_of_noise (p : Actor) (s eps : tensor) : tensor :=
  map (fun el => - (fst el ^ 2) / 2 - snd el - ln (sqrt (2 * PI)))
      (combine eps (snd (Actor_forward cfg p s))).

(** The value loss: the mean runs over the samples and, for each sample,
    over the entries of the log-probability. *)
Definition J_V (cur var : Networks) (states : list tensor) (z : tensor2)
  : R :=
  Spec.avg
    (flat_map
       (fun sz =>
          map (fun lp => (Spec.V var (fst sz)
                          - (Spec.Qmin cfg cur cur (fst sz) (snd sz)
                             - Spec.alpha cfg * lp))
                         ^ 2)
              (logprob (policy cur) (fst sz) (snd sz)))
       (combine states z)).

(** The policy loss, everything computed from [var]: the policy inside
    [a'] and the log-probability, the critics inside [Qmin']. *)
Definition J_pi (var : Networks) (states : list tensor) (z : tensor2) : R :=
  Spec.avg
    (flat_map
       (fun sz =>
          map (fun lp => Spec.alpha cfg * lp
                         - Spec.Qmin cfg var var (fst sz) (snd sz))
              (logprob (policy var) (fst sz) (snd sz)))
       (combine states z)).

(** What [J_pi] would be with [Qmin'] detached. *)
Definition J_pi_detached (cur var : Networks) (states : list tensor)
    (z : tensor2) : R :=
  Spec.avg
    (flat_map
       (fun sz =>
          map (fun lp => Spec.alpha cfg * lp
                         - Spec.Qmin cfg cur cur (fst sz) (snd sz))
              (logprob (policy var) (fst sz) (snd sz)))
       (combine states z)).

End Formulas.

End PerDimension.

(* ================================================================= *)
(** ** A small instance

    One-unit networks, a plain gradient-descent optimizer and a one-step
    environment, on which the statements below are run. *)

Module Example.

Import Torch Nets Value SAC.
Local Open Scope R_scope.

Definition cfg : Config.t := {|
  Config.hidden_size := 1;
  Config.replay_buffer_size := 5;
  Config.train_batch_size := 1;
  Config.gamma := 99 / 100;
  Config.target_smoothing_coeff := 1 / 2;
  Config.logstd_min := -20;
  Config.logstd_max := 2;
  Config.reward_scaling := 1;
  Config.entropy_coeff := - (1 / 10 ^ 10)
|}.

Definition lin (w b : R) : Linear := mkLinear 1 1 [w] [b].

Definition actor : Actor :=
  mkActor (lin 1 0) (lin 1 0) (lin 1 0) (lin 0 0) 1 [2].
Definition qnet : QNet :=
  mkQNet (lin 1 0) (mkLinear 2 1 [1; 1] [0]) (lin 1 0).
Definition vnet : VNet := mkVNet (lin 1 0) (lin 1 0) (lin 1 0).
Definition networks : Networks := mkNetworks actor qnet qnet vnet vnet.

(** A stand-in for autograd that reports the gradient 1 for every entry,
    and gradient descent with learning rate 1/10 counting its steps. *)
Definition grad (f : list tensor -> R) (ps : list tensor) : list tensor :=
  map (map (fun _ => 1)) ps.
(** Two stand-ins for [backward] on a graph with overwritten tensors: one
    that raises, as a torch that checks version counters does, and one that
    goes on with the gradient 1. *)
Definition checked_grad (f : list tensor -> R) (ps qs qs' : list tensor)
  : result (list tensor) := Raise RuntimeError.
Definition stale_grad (f : list tensor -> R) (ps qs qs' : list tensor)
  : result (list tensor) := Ok (grad f ps).
Definition Optimizer : Type := nat.
Definition step (o : Optimizer) (ps g : list tensor)
  : Optimizer * list tensor :=
  (S o, zip_with (zip_with (fun p d => p - 1 / 10 * d)) ps g).
Definition optimizers : Optimizers Optimizer := mkOptimizers 0%nat 0%nat 0%nat.

(** An environment whose episodes last one step. *)
Definition Env : Type := nat.
Definition env_reset (e : Env) : Env * tensor := (e, [0]).
Definition env_step (e : Env) (a : tensor) : Env * (tensor * R * bool) :=
  (S e, ([1], 1, true)).
Definition action_space_high : tensor := [2].

(** The same configuration without the entropy term, and a second actor
    that differs from [actor] in the weight of its mean head. *)
Definition cfg0 : Config.t := {|
  Config.hidden_size := 1;
  Config.replay_buffer_size := 5;
  Config.train_batch_size := 1;
  Config.gamma := 99 / 100;
  Config.target_smoothing_coeff := 1 / 2;
  Config.logstd_min := -20;
  Config.logstd_max := 2;
  Config.reward_scaling := 1;
  Config.entropy_coeff := 0
|}.
Definition actor' : Actor :=
  mkActor (lin 1 0) (lin 1 0) (lin 0 0) (lin 0 0) 1 [2].

(** An instance with a two-dimensional action and the entropy coefficient
    1: every weight is 0, so that the means, the log-deviations, the values
    and the critic values are 0. *)
Definition cfg1 : Config.t := {|
  Config.hidden_size := 1;
  Config.replay_buffer_size := 5;
  Config.train_batch_size := 1;
  Config.gamma := 99 / 100;
  Config.target_smoothing_coeff := 1 / 2;
  Config.logstd_min := -20;
  Config.logstd_max := 2;
  Config.reward_scaling := 1;
  Config.entropy_coeff := 1
|}.
Definition actor2 : Actor :=
  mkActor (lin 0 0) (lin 0 0) (mkLinear 1 2 [0; 0] [0; 0])
          (mkLinear 1 2 [0; 0] [0; 0]) 2 [2; 2].
Definition qnet2 : QNet :=
  mkQNet (lin 0 0) (mkLinear 3 1 [0; 0; 0] [0]) (lin 0 0).
Definition vnet0 : VNet := mkVNet (lin 0 0) (lin 0 0) (lin 0 0).
Definition networks2 : Networks :=
  mkNetworks actor2 qnet2 qnet2 vnet0 vnet0.

(** A batch of one transition with a two-dimensional action, and a noise
    draw for it. *)
Definition batch2 : Batch := columns5 [([1], [0; 0], 1, [1], false)].
Definition noise2 : tensor2 := [[1; 1]].

Definition memory0 : Memory := Replay.init (Config.replay_buffer_size cfg).

(** A memory that holds one transition. *)
Definition memory1 : Memory :=
  Replay.mkExpReplay [[1]] [[0]] [[1]] [1] [false] 1 5.

Definition start : TrainState Optimizer Env :=
  mkTrainState networks optimizers memory0 0%nat [0] 0 0 (0, 0, 0).

Definition draws : StepDraws := mkStepDraws [0] (mkDraws 0 [[0]]).

End Example.

(* ================================================================= *)
(** * Properties *)

(** ** Lists *)

Section ListFacts.

Context {X : Type}.
Implicit Types (l : list X) (x : X).

Lemma length_list_set l i x : length (list_set l i x) = length l.
Proof.
  revert i; induction l as [|h t IH]; intros [|i]; simpl; auto.
Qed.

Lemma list_set_app_last l x y : list_set (l ++ [y]) (length l) x = l ++ [x].
Proof. induction l as [|h t IH]; simpl; [reflexivity | now rewrite IH]. Qed.

Lemma setitem_grow l y x k :
  k = length l -> setitem (append l y) k x = Ok (l ++ [x]).
Proof.
  intros ->. unfold setitem, append. rewrite length_app; simpl.
  replace (length l <? length l + 1) with true
    by (symmetry; apply Nat.ltb_lt; lia).
  now rewrite list_set_app_last.
Qed.

Lemma setitem_in l k x :
  k < length l -> setitem l k x = Ok (list_set l k x).
Proof.
  intros H. unfold setitem.
  now replace (k <? length l) with true by (symmetry; apply Nat.ltb_lt; lia).
Qed.

Lemma list_set_split l i x :
  i < length l ->
  list_set l i x = firstn i l ++ x :: skipn (S i) l.
Proof.
  revert i; induction l as [|h t IH]; intros [|i] Hi; simpl in *; try lia.
  - reflexivity.
  - rewrite IH by lia. reflexivity.
Qed.

Lemma ring_view_grow l x C :
  length l < C ->
  ring_view ((length l + 1) mod C) (l ++ [x]) = l ++ [x].
Proof.
  intros HC. unfold ring_view.
  destruct (Nat.eq_dec (length l + 1) C) as [E|E].
  - rewrite E, Nat.Div0.mod_same. simpl. now rewrite app_nil_r.
  - rewrite Nat.mod_small by lia.
    replace (length l + 1) with (length (l ++ [x]))
      by (rewrite length_app; simpl; lia).
    now rewrite skipn_all, firstn_all.
Qed.

Lemma ring_view_overwrite l x C p :
  length l = C -> p < C ->
  ring_view ((p + 1) mod C) (list_set l p x) = tl (ring_view p l) ++ [x].
Proof.
  intros HC Hp. unfold ring_view.
  rewrite list_set_split by lia.
  assert (Hf : length (firstn p l) = p) by (rewrite length_firstn; lia).
  destruct (skipn p l) as [|y rest] eqn:Hs.
  { apply (f_equal (@length X)) in Hs. rewrite length_skipn in Hs.
    simpl in Hs. lia. }
  assert (Hrest : skipn (S p) l = rest).
  { replace (S p) with (1 + p) by lia.
    rewrite <- skipn_skipn, Hs. reflexivity. }
  rewrite Hrest. simpl.
  destruct (Nat.eq_dec (p + 1) C) as [E|E].
  - rewrite E, Nat.Div0.mod_same. simpl.
    assert (rest = []) as ->.
    { apply length_zero_iff_nil. rewrite <- Hrest, length_skipn. lia. }
    now rewrite app_nil_r.
  - rewrite Nat.mod_small by lia.
    replace (p + 1) with (length (firstn p l) + 1) by lia.
    rewrite skipn_app, firstn_app.
    rewrite (skipn_all2 (firstn p l)) by lia.
    rewrite (firstn_all2 (firstn p l)) by lia.
    replace (length (firstn p l) + 1 - length (firstn p l)) with 1 by lia.
    simpl. now rewrite <- app_assoc.
Qed.

Lemma ring_view_length p l : length (ring_view p l) = length l.
Proof.
  unfold ring_view. rewrite length_app, length_skipn, length_firstn. lia.
Qed.

Lemma lastn_short C l : length l <= C -> lastn C l = l.
Proof.
  intros H. unfold lastn. replace (length l - C) with 0 by lia. reflexivity.
Qed.

Lemma lastn_length C l : length (lastn C l) = Nat.min (length l) C.
Proof. unfold lastn. rewrite length_skipn. lia. Qed.

Lemma lastn_drop_head C x l :
  C <= length l -> lastn C (x :: l) = lastn C l.
Proof.
  intros H. unfold lastn. simpl length.
  replace (S (length l) - C) with (S (length l - C)) by lia.
  reflexivity.
Qed.

End ListFacts.

(** ** The replay memory *)

Section ReplayFacts.

Context {St Ac Rw Dn : Type}.
Variables (st0 : St) (ac0 : Ac) (rw0 : Rw) (dn0 : Dn).

Local Abbreviation ExpReplay := (@Replay.ExpReplay St Ac Rw Dn).
Local Abbreviation exp_tuple := (@Replay.exp_tuple St Ac Rw Dn).
Local Abbreviation add := (Replay.add st0 ac0 rw0 dn0).
Local Abbreviation add_all := (Replay.add_all st0 ac0 rw0 dn0).
Local Abbreviation ring_ok := (@Replay.ring_ok St Ac Rw Dn).

Lemma ring_ok_init C : 0 < C -> ring_ok (Replay.init C).
Proof.
  intros HC. constructor; unfold Replay.len; simpl; auto; try lia.
  destruct (Nat.ltb_spec 0 C); lia.
Qed.

Lemma slots_length b : ring_ok b -> length (Replay.slots b) = Replay.len b.
Proof.
  intros [? Ha Hr Hn Hd ? ?].
  unfold Replay.slots, zip5, Replay.len, Replay.exp_tuple in *.
  rewrite !length_combine. lia.
Qed.

Lemma combine_snoc {A B} (a : list A) (b : list B) x y :
  length a = length b ->
  combine (a ++ [x]) (b ++ [y]) = combine a b ++ [(x, y)].
Proof.
  revert b; induction a as [|h t IH]; intros [|h' t'] H; simpl in *;
    try discriminate; auto.
  rewrite IH by lia. reflexivity.
Qed.

Lemma combine_list_set {A B} (a : list A) (b : list B) i x y :
  combine (list_set a i x) (list_set b i y)
  = list_set (combine a b) i (x, y).
Proof.
  revert b i; induction a as [|h t IH]; intros [|h' t'] [|i]; simpl;
    try reflexivity.
  now rewrite IH.
Qed.

(** One insertion, on the slots. *)
Lemma add_slots b e :
  ring_ok b ->
  exists b',
    add b e = Ok b' /\ ring_ok b' /\
    Replay.max_len b' = Replay.max_len b /\
    Replay.pointer b' = (Replay.pointer b + 1) mod Replay.max_len b /\
    Replay.slots b' =
      (if Replay.len b <? Replay.max_len b
       then Replay.slots b ++ [e]
       else list_set (Replay.slots b) (Replay.pointer b) e).
Proof.
  intros [HC Ha Hr Hn Hd Hl Hp].
  destruct b as [ss aa nn rr dd p C]; unfold Replay.len in *; simpl in *.
  destruct e as [[[[s a] r] n] d].
  unfold Replay.add, Replay.slots, zip5, Replay.len; simpl.
  replace (py_mod (p + 1) C) with (Ok ((p + 1) mod C))
    by (unfold py_mod; destruct (Nat.eqb_spec C 0); [lia | reflexivity]).
  assert (Hup : (p + 1) mod C < C) by (apply Nat.mod_upper_bound; lia).
  destruct (Nat.ltb_spec (length ss) C) as [Hlt|Hge].
  - subst p.
    rewrite !setitem_grow by congruence. simpl.
    eexists; split; [reflexivity|].
    split; [|split; [reflexivity|split; [reflexivity|]]].
    + constructor; unfold Replay.len; simpl; rewrite ?length_app; simpl;
        try lia.
      destruct (Nat.ltb_spec (length ss + 1) C); [|assumption].
      rewrite Nat.mod_small by lia. reflexivity.
    + simpl. rewrite !combine_snoc; auto;
        rewrite ?length_combine; lia.
  - rewrite !setitem_in by lia. simpl.
    eexists; split; [reflexivity|].
    split; [|split; [reflexivity|split; [reflexivity|]]].
    + constructor; unfold Replay.len; simpl; rewrite ?length_list_set;
        try lia.
      destruct (Nat.ltb_spec (length ss) C); [lia|assumption].
    + simpl. now rewrite !combine_list_set.
Qed.

(** One insertion, on the stored transitions from oldest to newest: a
    memory below its capacity gains the new transition, a full memory
    loses its oldest transition for it. *)
Lemma add_oldest_first b e :
  ring_ok b ->
  exists b',
    add b e = Ok b' /\ ring_ok b' /\
    Replay.max_len b' = Replay.max_len b /\
    Replay.oldest_first b' =
      (if Replay.len b <? Replay.max_len b
       then Replay.oldest_first b
       else tl (Replay.oldest_first b)) ++ [e].
Proof.
  intros Hok. destruct (add_slots e Hok) as (b' & Hadd & Hok' & HC & Hp & Hs).
  exists b'. split; [|split; [|split]]; auto.
  unfold Replay.oldest_first. rewrite Hs, Hp.
  pose proof (slots_length Hok) as Hlen.
  destruct Hok as [HC0 _ _ _ _ Hl Hptr].
  destruct (Nat.ltb_spec (Replay.len b) (Replay.max_len b)) as [Hlt|Hge].
  - rewrite Hptr, <- Hlen.
    rewrite ring_view_grow by lia.
    unfold ring_view. now rewrite skipn_all, firstn_all, app_nil_l.
  - apply ring_view_overwrite; lia.
Qed.

Lemma oldest_first_length b :
  ring_ok b -> length (Replay.oldest_first b) = Replay.len b.
Proof.
  intros H. unfold Replay.oldest_first.
  now rewrite ring_view_length, slots_length.
Qed.

(** Any number of insertions. *)
Lemma add_all_oldest_first es : forall b,
  ring_ok b ->
  exists b',
    add_all b es = Ok b' /\ ring_ok b' /\
    Replay.max_len b' = Replay.max_len b /\
    Replay.oldest_first b' =
      lastn (Replay.max_len b) (Replay.oldest_first b ++ es).
Proof.
  induction es as [|e es IH]; intros b Hok.
  - exists b. simpl. split; [|split; [|split]]; auto.
    rewrite app_nil_r, lastn_short; auto.
    rewrite oldest_first_length by auto. apply Hok.
  - destruct (add_oldest_first e Hok) as (b1 & Hadd & Hok1 & HC1 & Hof).
    destruct (IH b1 Hok1) as (b' & Hall & Hok' & HC' & Hof').
    exists b'. simpl. rewrite Hadd. simpl.
    split; [|split; [|split]]; auto; try congruence.
    rewrite Hof', HC1, Hof.
    pose proof (oldest_first_length Hok) as Hlen.
    destruct (Nat.ltb_spec (Replay.len b) (Replay.max_len b)) as [Hlt|Hge].
    + now rewrite <- app_assoc.
    + assert (HL : Replay.len b = Replay.max_len b)
        by (destruct Hok; lia).
      destruct (Replay.oldest_first b) as [|o rest] eqn:Ho; simpl in *.
      { destruct Hok; lia. }
      rewrite <- app_assoc. simpl.
      rewrite lastn_drop_head; [reflexivity|].
      rewrite length_app; simpl. lia.
Qed.

Lemma ring_view_In {X} p (l : list X) x : In x (ring_view p l) <-> In x l.
Proof.
  unfold ring_view. rewrite in_app_iff.
  rewrite <- (firstn_skipn p l) at 3. rewrite in_app_iff. tauto.
Qed.

Lemma add_all_from_init C es :
  0 < C ->
  exists b,
    add_all (Replay.init C) es = Ok b /\ ring_ok b /\
    Replay.max_len b = C /\
    Replay.oldest_first b = lastn C es.
Proof.
  intros HC.
  destruct (add_all_oldest_first es (ring_ok_init HC))
    as (b & Hall & Hok & Hmax & Hof).
  exists b. auto.
Qed.

End ReplayFacts.

(** C6.  Inserting any sequence of transitions into an empty memory of
    capacity [C > 0] never fails; the memory then reports the size
    [min (number of inserts) C] and holds exactly the last that many
    transitions inserted; one more insertion into a full memory drops the
    oldest stored transition and keeps the others.  With capacity 5 and the
    rewards 1 to 7 the memory ends with the rewards 3 to 7, rewards 6 and 7
    in the slots of the evicted 1 and 2, and reports size 5. *)
Theorem replay_ring_invariant :
  (forall (St Ac Rw Dn : Type) (st0 : St) (ac0 : Ac) (rw0 : Rw) (dn0 : Dn)
          (C : nat) (es : list (St * Ac * Rw * St * Dn)),
      0 < C ->
      exists b,
        Replay.add_all st0 ac0 rw0 dn0 (Replay.init C) es = Ok b /\
        Replay.len b = Nat.min (length es) C /\
        Replay.oldest_first b = lastn C es /\
        (forall e, In e (Replay.slots b) <-> In e (lastn C es)) /\
        (forall e, exists b',
            Replay.add st0 ac0 rw0 dn0 b e = Ok b' /\
            Replay.len b' = Nat.min (length es + 1) C /\
            Replay.oldest_first b' =
              (if length es <? C then Replay.oldest_first b
               else tl (Replay.oldest_first b)) ++ [e]))
  /\
  (exists b,
      Replay.add_all 0 0 0 false (Replay.init 5) Replay.seven_transitions = Ok b /\
      Replay.len b = 5 /\
      Replay.rewards b = [6; 7; 3; 4; 5] /\
      map (fun e => snd (fst (fst e))) (Replay.oldest_first b)
        = [3; 4; 5; 6; 7]).
Proof.
  split.
  - intros St Ac Rw Dn st0 ac0 rw0 dn0 C es HC.
    destruct (add_all_from_init st0 ac0 rw0 dn0 es HC)
      as (b & Hall & Hok & Hmax & Hof).
    assert (Hlen : Replay.len b = Nat.min (length es) C).
    { rewrite <- (oldest_first_length Hok), Hof. apply lastn_length. }
    exists b. split; [exact Hall|]. split; [exact Hlen|].
    split; [exact Hof|]. split.
    + intros e. unfold Replay.exp_tuple in *. rewrite <- Hof.
      unfold Replay.oldest_first. symmetry. apply ring_view_In.
    + intros e.
      destruct (add_oldest_first st0 ac0 rw0 dn0 e Hok)
        as (b' & Hadd & Hok' & Hmax' & Hof').
      exists b'. split; [exact Hadd|].
      assert (Hcond : (Replay.len b <? Replay.max_len b) = (length es <? C)).
      { rewrite Hmax, Hlen.
        destruct (Nat.ltb_spec (length es) C);
          [apply Nat.ltb_lt | apply Nat.ltb_ge]; lia. }
      rewrite Hcond in Hof'. split; [|exact Hof'].
      rewrite <- (oldest_first_length Hok'), Hof', length_app.
      destruct (Nat.ltb_spec (length es) C).
      * rewrite (oldest_first_length Hok), Hlen. simpl. lia.
      * pose proof (oldest_first_length Hok) as Hl. rewrite Hlen in Hl.
        destruct (Replay.oldest_first b); simpl in *; lia.
  - eexists. split; [vm_compute; reflexivity|].
    split; [reflexivity|]. split; reflexivity.
Qed.

(** The memory of the scenario above, as the general statement gives it. *)
Lemma replay_ring_invariant_witness :
  0 < 5 /\
  exists b,
    Replay.add_all 0 0 0 false (Replay.init 5) Replay.seven_transitions = Ok b /\
    Replay.len b = Nat.min (length Replay.seven_transitions) 5 /\
    Replay.oldest_first b = lastn 5 Replay.seven_transitions.
Proof.
  split; [lia|].
  destruct (proj1 replay_ring_invariant nat nat nat bool 0 0 0 false 5
              Replay.seven_transitions) as (b & H1 & H2 & H3 & _); [lia|].
  exists b. auto.
Defined.

(** ** [random.sample] *)

Section SampleFacts.

Context {X : Type}.
Implicit Types (l p r : list X) (x : X).

Lemma remove_at_split l : forall i x,
  nth_error l i = Some x ->
  exists l1 l2, l = l1 ++ x :: l2 /\ remove_at i l = l1 ++ l2.
Proof.
  induction l as [|h t IH]; intros [|i] x H; simpl in *; try discriminate.
  - injection H as ->. exists [], t. auto.
  - destruct (IH i x H) as (l1 & l2 & -> & E).
    exists (h :: l1), l2. simpl. now rewrite E.
Qed.

Lemma in_selections_S k l p :
  In p (selections (S k) l) <->
  exists i x r,
    p = x :: r /\ nth_error l i = Some x /\
    In r (selections k (remove_at i l)).
Proof.
  simpl. rewrite in_flat_map. split.
  - intros (i & _ & H). destruct (nth_error l i) as [x|] eqn:E; [|easy].
    apply in_map_iff in H as (r & <- & Hr). now exists i, x, r.
  - intros (i & x & r & -> & E & Hr). exists i. split.
    + apply in_seq. split; [lia|]. simpl.
      apply nth_error_Some. congruence.
    + rewrite E. now apply in_map.
Qed.

(** The outcomes of a draw from a pool without repetition are the lists
    of [k] pairwise different entries of the pool, in every order. *)
Lemma selections_spec k : forall l p,
  NoDup l ->
  (In p (selections k l) <-> length p = k /\ NoDup p /\ incl p l).
Proof.
  induction k as [|k IH]; intros l p Hl.
  - simpl. split.
    + intros [<-|[]]. repeat split; [constructor | easy].
    + intros (H & _). left. symmetry. now apply length_zero_iff_nil.
  - rewrite in_selections_S. split.
    + intros (i & x & r & -> & E & Hr).
      destruct (remove_at_split l i E) as (l1 & l2 & -> & Erm).
      rewrite Erm in Hr. apply NoDup_remove in Hl as [Hl Hx].
      apply (IH _ _ Hl) in Hr as (Hlen & Hnd & Hin).
      repeat split.
      * simpl. now rewrite Hlen.
      * constructor; [|exact Hnd]. intros Hxr. now apply Hx, Hin.
      * intros y [<-|Hy]; [apply in_elt|].
        apply Hin, in_app_or in Hy. apply in_or_app. simpl. tauto.
    + intros (Hlen & Hnd & Hin). destruct p as [|x r]; [discriminate|].
      injection Hlen as Hlen. apply NoDup_cons_iff in Hnd as [Hxr Hnd].
      destruct (In_nth_error l x (Hin x (in_eq _ _))) as [i E].
      exists i, x, r. repeat split; [exact E|].
      destruct (remove_at_split l i E) as (l1 & l2 & -> & Erm).
      rewrite Erm. apply NoDup_remove in Hl as [Hl Hx].
      apply (IH _ _ Hl). repeat split; [exact Hlen | exact Hnd |].
      intros y Hy. assert (Hyl := Hin y (in_cons _ _ _ Hy)).
      apply in_app_or in Hyl. apply in_or_app.
      destruct Hyl as [H|[<-|H]]; tauto.
Qed.

Lemma NoDup_flat_map {A B} (f : A -> list B) (xs : list A) :
  NoDup xs ->
  (forall a, In a xs -> NoDup (f a)) ->
  (forall a a' y, In a xs -> In a' xs -> In y (f a) -> In y (f a') ->
                  a = a') ->
  NoDup (flat_map f xs).
Proof.
  induction xs as [|a xs IH]; intros Hnd Hf Hdis; simpl; [constructor|].
  apply NoDup_cons_iff in Hnd as [Ha Hnd].
  apply NoDup_app.
  - apply Hf. now left.
  - apply IH; auto.
    + intros; apply Hf; now right.
    + intros a1 a2 y H1 H2. apply Hdis; now right.
  - intros y Hy Hy'. apply in_flat_map in Hy' as (a' & Ha' & Hy').
    assert (a = a') by (apply (Hdis a a' y); simpl; auto).
    congruence.
Qed.

Lemma NoDup_map_cons x (ls : list (list X)) :
  NoDup ls -> NoDup (map (cons x) ls).
Proof.
  induction 1 as [|r ls Hr Hnd IH]; simpl; constructor; auto.
  intros H. apply in_map_iff in H as (r' & E & Hr').
  injection E as ->. contradiction.
Qed.

(** Every outcome is listed once: the outcomes are equally likely. *)
Lemma selections_NoDup k : forall l, NoDup l -> NoDup (selections k l).
Proof.
  induction k as [|k IH]; intros l Hl; simpl.
  - constructor; [easy | constructor].
  - apply NoDup_flat_map.
    + apply seq_NoDup.
    + intros i _. destruct (nth_error l i) as [x|] eqn:E; [|constructor].
      apply NoDup_map_cons, IH.
      destruct (remove_at_split l i E) as (l1 & l2 & -> & ->).
      now apply NoDup_remove in Hl.
    + intros i j y Hi _ Hyi Hyj.
      destruct (nth_error l i) as [x|] eqn:Ei; [|easy].
      destruct (nth_error l j) as [x'|] eqn:Ej; [|easy].
      apply in_map_iff in Hyi as (r & <- & _).
      apply in_map_iff in Hyj as (r' & E & _). injection E as -> _.
      apply (proj1 (NoDup_nth_error l) Hl).
      * apply nth_error_Some. congruence.
      * congruence.
Qed.

Lemma selections_length k : forall l p,
  In p (selections k l) -> length p = k.
Proof.
  induction k as [|k IH]; intros l p H.
  - destruct H as [<-|[]]. reflexivity.
  - apply in_selections_S in H as (i & x & r & -> & _ & Hr).
    simpl. f_equal. eapply IH, Hr.
Qed.

End SampleFacts.

Lemma remove_at_map {A B} (f : A -> B) (l : list A) : forall i,
  remove_at i (map f l) = map f (remove_at i l).
Proof.
  induction l as [|h t IH]; intros [|i]; simpl; auto. now rewrite IH.
Qed.

(** Drawing from the image of a list is drawing from the list. *)
Lemma selections_map {A B} (f : A -> B) k : forall (l : list A),
  selections k (map f l) = map (map f) (selections k l).
Proof.
  induction k as [|k IH]; intros l; simpl; [reflexivity|].
  rewrite length_map, !flat_map_concat_map, concat_map, map_map.
  f_equal. apply map_ext. intros i.
  rewrite nth_error_map. destruct (nth_error l i) as [x|]; simpl; auto.
  rewrite remove_at_map, IH, !map_map. reflexivity.
Qed.

Lemma Forall2_map_left {A B C} (f : A -> B) (R : B -> C -> Prop) l :
  forall bs, Forall2 R (map f l) bs -> Forall2 (fun a c => R (f a) c) l bs.
Proof.
  induction l as [|a l IH]; intros bs H; inversion H; subst; constructor;
    auto.
Qed.

Lemma Forall2_impl_in {A B} (R R' : A -> B -> Prop) l :
  forall bs,
    (forall a b, In a l -> R a b -> R' a b) ->
    Forall2 R l bs -> Forall2 R' l bs.
Proof.
  induction l as [|a l IH]; intros bs Himp H; inversion H; subst;
    constructor.
  - apply Himp; [now left | assumption].
  - apply IH; [|assumption]. intros a' b' Ha'. apply Himp. now right.
Qed.

Section IndexedFacts.

Context {X : Type}.

Lemma in_combine_seq (l : list X) : forall s i x,
  In (i, x) (combine (seq s (length l)) l) <->
  s <= i /\ nth_error l (i - s) = Some x.
Proof.
  induction l as [|h t IH]; intros s i x; simpl.
  - split; [easy|]. intros [_ H]. destruct (i - s); discriminate.
  - rewrite IH. split.
    + intros [E|[Hs Hn]].
      * injection E as <- <-. rewrite Nat.sub_diag. auto.
      * split; [lia|]. replace (i - s) with (S (i - S s)) by lia. exact Hn.
    + intros [Hs Hn]. destruct (Nat.eq_dec i s) as [->|Hne].
      * rewrite Nat.sub_diag in Hn. injection Hn as ->. now left.
      * right. split; [lia|].
        replace (i - s) with (S (i - S s)) in Hn by lia. exact Hn.
Qed.

Lemma in_indexed (l : list X) i x :
  In (i, x) (indexed l) <-> nth_error l i = Some x.
Proof.
  unfold indexed. rewrite in_combine_seq, Nat.sub_0_r.
  split; [tauto | split; [lia | assumption]].
Qed.

Lemma map_snd_combine_seq (l : list X) : forall s,
  map snd (combine (seq s (length l)) l) = l.
Proof. induction l as [|h t IH]; intros s; simpl; [|rewrite IH]; auto. Qed.

Lemma map_fst_combine_seq (l : list X) : forall s,
  map fst (combine (seq s (length l)) l) = seq s (length l).
Proof. induction l as [|h t IH]; intros s; simpl; [|rewrite IH]; auto. Qed.

Lemma indexed_NoDup (l : list X) : NoDup (indexed l).
Proof.
  apply (NoDup_map_inv fst). unfold indexed.
  rewrite map_fst_combine_seq. apply seq_NoDup.
Qed.

Lemma indexed_fst_inj (l : list X) a a' :
  In a (indexed l) -> In a' (indexed l) -> fst a = fst a' -> a = a'.
Proof.
  destruct a as [i x], a' as [j y]. simpl.
  rewrite !in_indexed. intros H H' <-. congruence.
Qed.

End IndexedFacts.

Section SampleReplay.

Context {St Ac Rw Dn : Type}.

Local Abbreviation ExpReplay := (@Replay.ExpReplay St Ac Rw Dn).
Local Abbreviation exp_tuple := (St * Ac * Rw * St * Dn)%type.
Local Abbreviation batch := (@Replay.batch St Ac Rw Dn).

Lemma unzip5_columns (rs : list exp_tuple) (b : batch) :
  unzip5 rs = Ok b -> b = columns5 rs.
Proof.
  unfold unzip5. destruct rs; [discriminate|]. intros H. now injection H.
Qed.

Lemma rows_unzip5 (rs : list exp_tuple) (b : batch) :
  unzip5 rs = Ok b -> Replay.rows b = rs.
Proof.
  intros H. apply unzip5_columns in H. subst b.
  unfold Replay.rows, zip5, columns5.
  induction rs as [|[[[[s a] r] n] d] rs IH]; simpl; [reflexivity|].
  now rewrite IH.
Qed.

Lemma for_each_unzip5 (ps : list (list exp_tuple)) :
  Forall (fun p => p <> []) ps ->
  exists bs : list batch,
    for_each unzip5 ps = Ok bs /\
    Forall2 (fun p b => Replay.rows b = p) ps bs.
Proof.
  induction 1 as [|p ps Hp _ (bs & E & IH)]; simpl.
  - exists []. split; [reflexivity | constructor].
  - destruct (unzip5 p) as [b|e] eqn:Eb.
    + rewrite E. simpl. exists (b :: bs). split; [reflexivity|].
      constructor; [now apply rows_unzip5 | exact IH].
    + destruct p; [contradiction | discriminate].
Qed.

Lemma valid_pick_iff (b : ExpReplay) k (p : list (nat * exp_tuple)) :
  Replay.valid_pick b k p <->
  length p = k /\ NoDup p /\ incl p (indexed (Replay.slots b)).
Proof.
  unfold Replay.valid_pick.
  assert (Hin : Forall (fun ie => nth_error (Replay.slots b) (fst ie)
                                  = Some (snd ie)) p
                <-> incl p (indexed (Replay.slots b))).
  { rewrite Forall_forall. unfold incl.
    split; intros H [i e] Hie; specialize (H (i, e) Hie);
      now apply in_indexed. }
  rewrite Hin. split; intros (Hlen & Hnd & Hincl); repeat split; auto.
  - eapply NoDup_map_inv, Hnd.
  - apply NoDup_map_NoDup_ForallPairs; [|exact Hnd].
    intros a a' Ha Ha'. apply (indexed_fst_inj (Replay.slots b)); auto.
Qed.

End SampleReplay.

(** C7, as the code has it.  On a memory whose five lists have one length
    [n], [sample(batch_size)] raises [ValueError] whenever [batch_size > n];
    whenever [1 <= batch_size <= n] it returns a batch of exactly
    [batch_size] transitions read from pairwise different slots, and the
    equally likely outcomes are the choices of [batch_size] pairwise
    different slots in every order, each of them once. *)
Theorem sample_without_replacement :
  forall (St Ac Rw Dn : Type) (b : @Replay.ExpReplay St Ac Rw Dn) (k : Z),
    length (Replay.slots b) = Replay.len b ->
    ((Z.of_nat (Replay.len b) < k)%Z ->
       Replay.sample b k = Raise ValueError) /\
    ((1 <= k <= Z.of_nat (Replay.len b))%Z ->
       exists picks batches,
         Replay.sample b k = Ok batches /\
         NoDup picks /\
         (forall p, In p picks <-> Replay.valid_pick b (Z.to_nat k) p) /\
         Forall2 (fun p batch =>
                    Replay.rows batch = map snd p /\
                    length (Replay.rows batch) = Z.to_nat k)
                 picks batches).
Proof.
  intros St Ac Rw Dn b k Hwf.
  unfold Replay.sample, random_sample. fold (Replay.slots b).
  unfold Replay.exp_tuple in *. rewrite Hwf.
  split; intros Hk.
  - replace (Z.of_nat (Replay.len b) <? k)%Z with true
      by (symmetry; apply Z.ltb_lt; lia).
    now rewrite orb_true_r.
  - replace (k <? 0)%Z with false by (symmetry; apply Z.ltb_ge; lia).
    replace (Z.of_nat (Replay.len b) <? k)%Z with false
      by (symmetry; apply Z.ltb_ge; lia).
    simpl.
    set (n := Z.to_nat k).
    set (picks := selections n (indexed (Replay.slots b))).
    assert (Hsel : selections n (Replay.slots b) = map (map snd) picks).
    { unfold picks. rewrite <- selections_map. unfold indexed.
      now rewrite map_snd_combine_seq. }
    assert (Hlen : forall p, In p picks -> length p = n)
      by (intros p; apply selections_length).
    destruct (@for_each_unzip5 St Ac Rw Dn (map (map snd) picks))
      as (batches & Hfe & Hrows).
    { apply Forall_forall. intros r Hr.
      apply in_map_iff in Hr as (p & <- & Hp). apply Hlen in Hp.
      destruct p; [simpl in Hp; lia | discriminate]. }
    exists picks, batches.
    split; [etransitivity; [|exact Hfe]; f_equal; exact Hsel|].
    split; [apply selections_NoDup, indexed_NoDup|].
    split.
    + intros p. rewrite valid_pick_iff.
      apply selections_spec, indexed_NoDup.
    + apply Forall2_map_left in Hrows.
      eapply Forall2_impl_in; [|exact Hrows].
      intros p batch Hp E. simpl in E. split; [exact E|].
      rewrite E, length_map. now apply Hlen.
Qed.

(** C7 at a memory that holds two transitions: a batch of two is one of
    the equally likely ordered choices of two different slots. *)
Lemma sample_without_replacement_witness :
  length (Replay.slots Replay.two_stored) = Replay.len Replay.two_stored /\
  (1 <= 2 <= Z.of_nat (Replay.len Replay.two_stored))%Z /\
  exists picks batches,
    Replay.sample Replay.two_stored 2 = Ok batches /\
    NoDup picks /\
    (forall p, In p picks <->
               Replay.valid_pick Replay.two_stored (Z.to_nat 2) p) /\
    Forall2 (fun p batch =>
               Replay.rows batch = map snd p /\
               length (Replay.rows batch) = Z.to_nat 2)
            picks batches.
Proof.
  split; [reflexivity|]. split; [simpl; lia|].
  apply (proj2 (sample_without_replacement Replay.two_stored 2 eq_refl)).
  simpl; lia.
Defined.

(** C7 as stated fails for a batch of size 0: the memory holds two
    transitions, [2 >= 0], and [sample(0)] raises instead of returning an
    empty batch. *)
Lemma sample_batch_zero_raises :
  (Z.of_nat (Replay.len Replay.two_stored) >= 0)%Z /\
  Replay.sample Replay.two_stored 0 = Raise ValueError /\
  ~ (exists batches, Replay.sample Replay.two_stored 0 = Ok batches).
Proof.
  split; [simpl; lia|]. split; [reflexivity|].
  intros [batches H]. discriminate H.
Qed.

(** ** Tensors *)

Section TensorFacts.

Import Torch.
Local Open Scope R_scope.

Lemma nth_error_zip_with {A B C} (f : A -> B -> C) (a : list A) :
  forall (b : list B) i c,
    nth_error (zip_with f a b) i = Some c ->
    exists x y,
      nth_error a i = Some x /\ nth_error b i = Some y /\ c = f x y.
Proof.
  induction a as [|x a IH]; intros [|y b] [|i] c H; simpl in *;
    try discriminate.
  - injection H as <-. now exists x, y.
  - now apply IH.
Qed.

Lemma length_zip_with {A B C} (f : A -> B -> C) (a : list A) :
  forall (b : list B),
    length (zip_with f a b) = Nat.min (length a) (length b).
Proof.
  induction a as [|x a IH]; intros [|y b]; simpl; auto.
Qed.

(** The hyperbolic tangent lies strictly between -1 and 1. *)
Lemma tanh_bound x : Rabs (Rtrigo_def.tanh x) < 1.
Proof.
  unfold Rtrigo_def.tanh, sinh, cosh.
  pose proof (exp_pos x) as Ha. pose proof (exp_pos (- x)) as Hb.
  set (a := Rtrigo_def.exp x) in *. set (b := Rtrigo_def.exp (- x)) in *.
  replace ((a - b) / 2 / ((a + b) / 2)) with ((a - b) / (a + b))
    by (field; lra).
  apply Rabs_def1.
  - apply (Rmult_lt_reg_r (a + b)); [lra|].
    unfold Rdiv. rewrite Rmult_assoc, Rinv_l by lra. lra.
  - apply (Rmult_lt_reg_r (a + b)); [lra|].
    unfold Rdiv. rewrite Rmult_assoc, Rinv_l by lra. lra.
Qed.

Lemma tanh_tensor_bound (x : tensor) :
  Forall (fun u => Rabs u <= 1) (tanh x).
Proof.
  unfold tanh. apply Forall_forall. intros u Hu.
  apply in_map_iff in Hu as (v & <- & _). left. apply tanh_bound.
Qed.

Lemma scaled_bound u sc : Rabs u <= 1 -> Rabs (u * sc) <= Rabs sc.
Proof.
  intros H. rewrite Rabs_mult. pose proof (Rabs_pos sc).
  rewrite <- (Rmult_1_l (Rabs sc)) at 2.
  apply Rmult_le_compat_r; assumption.
Qed.

(** An entrywise product with a tensor of entries of magnitude at most 1
    is bounded, entry by entry, by the other factor. *)
Lemma bcast_mul_bounded (x y : tensor) i a sc :
  Forall (fun u => Rabs u <= 1) x ->
  nth_error (bcast Rmult x y) i = Some a ->
  nth_error y i = Some sc ->
  Rabs a <= Rabs sc.
Proof.
  intros Hx Ha Hsc.
  assert (Hzip : forall x' : tensor,
             Forall (fun u => Rabs u <= 1) x' ->
             nth_error (zip_with Rmult x' y) i = Some a ->
             Rabs a <= Rabs sc).
  { intros x' Hx' H.
    apply nth_error_zip_with in H as (u & v & Hu & Hv & ->).
    assert (v = sc) as -> by congruence.
    apply scaled_bound. rewrite Forall_forall in Hx'.
    eapply Hx', nth_error_In, Hu. }
  assert (Hmap : forall x0, Rabs x0 <= 1 ->
             nth_error (map (Rmult x0) y) i = Some a ->
             Rabs a <= Rabs sc).
  { intros x0 Hx0 H. rewrite nth_error_map, Hsc in H.
    injection H as <-. now apply scaled_bound. }
  unfold bcast in Ha.
  destruct x as [|x0 [|x1 xs]]; [now apply (Hzip [])| |].
  - inversion Hx; subst.
    destruct y as [|y0 [|y1 ys]];
      [now apply (Hzip [x0]) | now apply (Hzip [x0]) |
       now apply (Hmap x0)].
  - destruct y as [|y0 [|y1 ys]];
      [now apply (Hzip (x0 :: x1 :: xs)) | |
       now apply (Hzip (x0 :: x1 :: xs))].
    destruct i as [|i]; [|destruct i; discriminate].
    simpl in *. injection Ha as <-. injection Hsc as <-.
    apply scaled_bound. now inversion Hx.
Qed.

End TensorFacts.

(** ** Actions *)

Section ActionFacts.

Import Torch Nets Value SAC.
Local Open Scope R_scope.

Variable cfg : Config.t.
Variable high : tensor.

Lemma get_action_eq (p : Actor) (s eps : tensor) :
  get_action cfg p s eps =
  bcast Rmult
    (tanh (normal_sample (fst (Actor_forward cfg p s))
                         (exp (snd (Actor_forward cfg p s))) eps))
    (action_scale p).
Proof. reflexivity. Qed.

Lemma eval_action_eq (p : Actor) (s : tensor) :
  eval_action cfg high p s =
  bcast Rmult (tanh (fst (Actor_forward cfg p s))) high.
Proof. reflexivity. Qed.

End ActionFacts.

(** C10.  Every entry of the action that [get_action] returns, whatever the
  state and the sampling noise, is bounded in magnitude by the entry of
  [action_scale] of the same dimension; the same holds for the action of
  an evaluation step and the action bound of the environment that scales
  it. *)
Theorem action_within_scale :
forall (cfg : Config.t) (high : Torch.tensor) (p : Nets.Actor)
       (s eps : Torch.tensor) (i : nat) (a sc : R),
  (nth_error (Nets.get_action cfg p s eps) i = Some a ->
   nth_error (Nets.action_scale p) i = Some sc ->
   (Rabs a <= Rabs sc)%R) /\
  (nth_error (SAC.eval_action cfg high p s) i = Some a ->
   nth_error high i = Some sc ->
   (Rabs a <= Rabs sc)%R).
Proof.
  intros cfg high p s eps i a sc. split; intros Ha Hsc.
  - rewrite get_action_eq in Ha.
    eapply bcast_mul_bounded; [apply tanh_tensor_bound | exact Ha | exact Hsc].
  - rewrite eval_action_eq in Ha.
    eapply bcast_mul_bounded; [apply tanh_tensor_bound | exact Ha | exact Hsc].
Qed.

(** C10 on the small instance: the one entry of the sampled action against
    the action scale 2. *)
Lemma action_within_scale_witness :
  exists a,
    nth_error (Nets.get_action Example.cfg Example.actor [0%R] [0%R]) 0
      = Some a /\
    nth_error (Nets.action_scale Example.actor) 0 = Some 2%R /\
    (Rabs a <= Rabs 2)%R.
Proof.
  eexists. split; [reflexivity|]. split; [reflexivity|].
  apply (proj1 (action_within_scale Example.cfg Example.action_space_high
                  Example.actor [0%R] [0%R] 0 _ 2%R)); reflexivity.
Defined.

(** ** The optimization step *)

Lemma draw_In {X} (pick : nat) (outcomes : list X) (x : X) :
  draw pick outcomes = Ok x -> In x outcomes.
Proof.
  unfold draw. destruct outcomes as [|o os]; [discriminate|].
  intros H.
  replace x with (nth (pick mod length (o :: os)) (o :: os) o)
    by congruence.
  apply nth_In, Nat.mod_upper_bound. discriminate.
Qed.

Section OptimizeFacts.

Import Torch Nets Value SAC.
Local Open Scope R_scope.

Variable cfg : Config.t.
Variable grad : (list tensor -> R) -> list tensor -> list tensor.
Variable stale_grad :
  (list tensor -> R) -> list tensor -> list tensor -> list tensor
  -> result (list tensor).
Variable Optimizer : Type.
Variable step : Optimizer -> list tensor -> list tensor
                -> Optimizer * list tensor.

Local Abbreviation optimize_model :=
  (optimize_model cfg grad stale_grad step).
Local Abbreviation optimize_on_batch :=
  (optimize_on_batch cfg grad stale_grad step).
Local Abbreviation update_v := (update_v cfg grad step).
Local Abbreviation update_q := (update_q cfg grad step).
Local Abbreviation update_pi := (update_pi cfg stale_grad step).

(** The networks after the steps of [v_net_optimizer] and
    [q_net_optimizer], which is where [J_pi.backward()] finds them. *)
Lemma optimize_on_batch_eq b z cur (opts : Optimizers Optimizer) :
  optimize_on_batch b z cur opts =
  let uv := update_v b z cur (v_net_optimizer opts) in
  let uq := update_q b cur (q_net_optimizer opts) in
  let stepped :=
    set_q_nets (set_v_net cur (snd uv)) (fst (snd uq)) (snd (snd uq)) in
  r <- update_pi b z cur (q_params stepped) (actor_optimizer opts) ;;
  Ok ((J_v cfg b z cur cur, J_q cfg b cur, J_pi cfg b z cur),
      set_policy stepped (snd r),
      mkOptimizers (fst r) (fst uq) (fst uv)).
Proof.
  unfold SAC.optimize_on_batch.
  destruct (SAC.update_v _ _ _ _ _ _ _) as [ov v'].
  destruct (SAC.update_q _ _ _ _ _ _) as [oq [q1' q2']].
  cbn [fst snd].
  destruct (SAC.update_pi _ _ _ _ _ _ _ _) as [[oa p']|e]; reflexivity.
Qed.

(** The result of the three updates, component by component, when the
    policy step returns. *)
Lemma optimize_on_batch_inv b z cur (opts : Optimizers Optimizer) r :
  optimize_on_batch b z cur opts = Ok r ->
  exists oa p',
    update_pi b z cur
      (q_params
         (set_q_nets cur
            (fst (snd (update_q b cur (q_net_optimizer opts))))
            (snd (snd (update_q b cur (q_net_optimizer opts))))))
      (actor_optimizer opts) = Ok (oa, p') /\
    r = ((J_v cfg b z cur cur, J_q cfg b cur, J_pi cfg b z cur),
         set_policy
           (set_q_nets
              (set_v_net cur (snd (update_v b z cur (v_net_optimizer opts))))
              (fst (snd (update_q b cur (q_net_optimizer opts))))
              (snd (snd (update_q b cur (q_net_optimizer opts)))))
           p',
         mkOptimizers oa
           (fst (update_q b cur (q_net_optimizer opts)))
           (fst (update_v b z cur (v_net_optimizer opts)))).
Proof.
  rewrite optimize_on_batch_eq. cbv zeta. intros H.
  change (q_params (set_q_nets (set_v_net cur ?v) ?a ?c))
    with (q_params (set_q_nets cur a c)) in H.
  destruct (update_pi b z cur _ (actor_optimizer opts)) as [[oa p']|e];
    [|discriminate].
  cbn [bind fst snd] in H. injection H as <-.
  exists oa, p'. split; reflexivity.
Qed.

(** A call that gets past the guard has drawn one of the batches of
    [memory.sample(train_batch_size)]. *)
Lemma optimize_model_inv nets mem opts d r :
  optimize_model nets mem opts d = Ok r ->
  (Replay.len mem < Config.train_batch_size cfg)%nat /\
    r = ((0, 0, 0), nets, opts)
  \/
  (Config.train_batch_size cfg <= Replay.len mem)%nat /\
    exists batches b,
      Replay.sample mem (Z.of_nat (Config.train_batch_size cfg))
        = Ok batches /\
      In b batches /\
      optimize_on_batch b (z d) nets opts = Ok r.
Proof.
  unfold SAC.optimize_model.
  destruct (Nat.ltb_spec (Replay.len mem) (Config.train_batch_size cfg))
    as [Hlt|Hge]; intros H.
  - left. split; [exact Hlt|]. now injection H.
  - right. split; [exact Hge|].
    destruct (Replay.sample mem _) as [batches|e]; [|discriminate].
    cbn [bind] in H.
    destruct (draw (pick d) batches) as [b|e] eqn:Ed; [|discriminate].
    cbn [bind] in H.
    exists batches, b. split; [reflexivity|]. split; [|exact H].
    eapply draw_In, Ed.
Qed.

Lemma optimize_model_v_target nets mem opts d l nets' opts' :
  optimize_model nets mem opts d = Ok (l, nets', opts') ->
  v_target_net nets' = v_target_net nets.
Proof.
  intros H. apply optimize_model_inv in H
    as [[_ E]|[_ (bs & b & _ & _ & E)]].
  - now injection E as _ <- _.
  - apply optimize_on_batch_inv in E as (oa & p' & _ & E).
    now injection E as _ -> _.
Qed.

Lemma optimize_model_action_scale nets mem opts d l nets' opts' :
  optimize_model nets mem opts d = Ok (l, nets', opts') ->
  action_scale (policy nets') = action_scale (policy nets).
Proof.
  intros H. apply optimize_model_inv in H
    as [[_ E]|[_ (bs & b & _ & _ & E)]].
  - now injection E as _ <- _.
  - apply optimize_on_batch_inv in E as (oa & p' & Hpi & E).
    injection E as _ -> _. simpl.
    unfold SAC.update_pi in Hpi.
    destruct (stale_grad _ _ _ _) as [g|e]; [|discriminate].
    cbn [bind] in Hpi. destruct (step _ _ _).
    injection Hpi as _ <-. reflexivity.
Qed.

End OptimizeFacts.

(** C8.  While the memory holds fewer than [train_batch_size] transitions,
    [optimize_model] returns the losses [(0, 0, 0)] and hands back the five
    networks and the three optimizers as it received them, whatever the
    random draws; calling it again on what it returned does the same. *)
Theorem optimize_model_noop :
  forall (cfg : Config.t)
         (grad : (list Torch.tensor -> R) -> list Torch.tensor
                 -> list Torch.tensor)
         (stale_grad : (list Torch.tensor -> R) -> list Torch.tensor
                       -> list Torch.tensor -> list Torch.tensor
                       -> result (list Torch.tensor))
         (Optimizer : Type)
         (step : Optimizer -> list Torch.tensor -> list Torch.tensor
                 -> Optimizer * list Torch.tensor)
         (nets : SAC.Networks) (memory : SAC.Memory)
         (opts : SAC.Optimizers Optimizer) (d d' : SAC.Draws),
    Replay.len memory < Config.train_batch_size cfg ->
    SAC.optimize_model cfg grad stale_grad step nets memory opts d
      = Ok ((0%R, 0%R, 0%R), nets, opts) /\
    (r <- SAC.optimize_model cfg grad stale_grad step nets memory opts d ;;
     SAC.optimize_model cfg grad stale_grad step (snd (fst r)) memory (snd r) d')
      = Ok ((0%R, 0%R, 0%R), nets, opts).
Proof.
  intros cfg grad stale_grad Optimizer step nets memory opts d d' Hlen.
  assert (E : forall d0, SAC.optimize_model cfg grad stale_grad step nets memory opts d0
                         = Ok ((0%R, 0%R, 0%R), nets, opts)).
  { intros d0. unfold SAC.optimize_model.
    now replace (Replay.len memory <? Config.train_batch_size cfg) with true
      by (symmetry; apply Nat.ltb_lt; exact Hlen). }
  split; [apply E|]. rewrite E. simpl. apply E.
Qed.

(** C8 on the small instance: an empty memory and batch size 1. *)
Lemma optimize_model_noop_witness :
  Replay.len Example.memory0 < Config.train_batch_size Example.cfg /\
  SAC.optimize_model Example.cfg Example.grad Example.stale_grad Example.step Example.networks
    Example.memory0 Example.optimizers (SAC.mkDraws 0 [[0%R]])
  = Ok ((0%R, 0%R, 0%R), Example.networks, Example.optimizers).
Proof.
  split; [cbv; lia|].
  apply (optimize_model_noop Example.cfg Example.grad Example.stale_grad Example.step
           Example.networks Example.memory0 Example.optimizers
           (SAC.mkDraws 0 [[0%R]]) (SAC.mkDraws 0 [[0%R]])).
  cbv; lia.
Defined.

(** ** Batches *)

Lemma selections_incl {X} k : forall (l p : list X),
  In p (selections k l) -> incl p l.
Proof.
  induction k as [|k IH]; intros l p H.
  - destruct H as [<-|[]]. easy.
  - apply in_selections_S in H as (i & x & r & -> & E & Hr).
    destruct (remove_at_split l i E) as (l1 & l2 & -> & Erm).
    rewrite Erm in Hr. apply IH in Hr.
    intros y [<-|Hy]; [apply in_elt|].
    apply Hr, in_app_or in Hy. apply in_or_app. simpl. tauto.
Qed.

Lemma for_each_In {A B} (f : A -> result B) (l : list A) :
  forall bs b,
    for_each f l = Ok bs -> In b bs -> exists a, In a l /\ f a = Ok b.
Proof.
  induction l as [|a l IH]; simpl; intros bs b H Hb.
  - injection H as <-. destruct Hb.
  - destruct (f a) as [b0|e] eqn:Ea; [|discriminate]. simpl in H.
    destruct (for_each f l) as [bs0|e]; [|discriminate]. simpl in H.
    injection H as <-. destruct Hb as [<-|Hb].
    + exists a. auto.
    + destruct (IH bs0 b eq_refl Hb) as (a' & Ha' & E). exists a'. auto.
Qed.

(** A batch that [sample] can return lists [batch_size] stored
    transitions, column by column. *)
Lemma sample_batch_rows {St Ac Rw Dn : Type}
    (mem : @Replay.ExpReplay St Ac Rw Dn) (k : Z) batches b :
  Replay.sample mem k = Ok batches ->
  In b batches ->
  b = columns5 (Replay.rows b) /\
  length (Replay.rows b) = Z.to_nat k /\
  incl (Replay.rows b) (Replay.slots mem).
Proof.
  unfold Replay.sample, random_sample. fold (Replay.slots mem).
  destruct (_ || _)%bool; [discriminate|]. cbn [bind]. intros Hfe Hb.
  eapply for_each_In in Hfe as (p & Hp & Eu); [|exact Hb].
  pose proof (rows_unzip5 p Eu) as Er. rewrite Er.
  split; [now apply unzip5_columns|].
  split; [eapply selections_length, Hp | eapply selections_incl, Hp].
Qed.

Section BatchTensors.

Import Torch.
Local Open Scope R_scope.

Context {T : Type}.
Implicit Types (rs : list T) (g h : T -> R).

Lemma zip_with_map {A B C} (f : A -> B -> C) (ga : T -> A) (gb : T -> B) rs :
  zip_with f (map ga rs) (map gb rs) = map (fun r => f (ga r) (gb r)) rs.
Proof. induction rs as [|r rs IH]; simpl; [|rewrite IH]; reflexivity. Qed.

Lemma bcast_scalar_l (f : R -> R -> R) x (y : tensor) :
  bcast f [x] y = map (f x) y.
Proof. destruct y as [|y0 [|y1 ys]]; reflexivity. Qed.

Lemma bcast_scalar_r (f : R -> R -> R) (x : tensor) y :
  bcast f x [y] = map (fun a => f a y) x.
Proof. destruct x as [|x0 [|x1 xs]]; reflexivity. Qed.

Lemma bcast_same_length (f : R -> R -> R) (x y : tensor) :
  length x = length y -> bcast f x y = zip_with f x y.
Proof.
  destruct x as [|x0 [|x1 xs]], y as [|y0 [|y1 ys]]; simpl; intros H;
    try discriminate; reflexivity.
Qed.

Lemma map2d_singletons (f : R -> R) g rs :
  map2d f (map (fun r => [g r]) rs) = map (fun r => [f (g r)]) rs.
Proof. unfold map2d. rewrite map_map. reflexivity. Qed.

Lemma bcast2_singletons (f : R -> R -> R) g h rs :
  bcast2 f (map (fun r => [g r]) rs) (map (fun r => [h r]) rs)
  = map (fun r => [f (g r) (h r)]) rs.
Proof. unfold bcast2. rewrite zip_with_map. reflexivity. Qed.

Lemma concat_singletons g rs : concat (map (fun r => [g r]) rs) = map g rs.
Proof. induction rs as [|r rs IH]; simpl; [|rewrite IH]; reflexivity. Qed.

Lemma mean_singletons g rs :
  mean (map (fun r => [g r]) rs) = Spec.avg (map g rs).
Proof. unfold mean, Spec.avg. now rewrite concat_singletons. Qed.

Lemma mean_rows (F : T -> tensor) rs :
  mean (map F rs) = Spec.avg (flat_map F rs).
Proof. unfold mean, Spec.avg. now rewrite flat_map_concat_map. Qed.

End BatchTensors.

Lemma length_linear (l : Torch.Linear) (x : Torch.tensor) :
  length (Torch.linear l x) = Torch.out_features l.
Proof. unfold Torch.linear. now rewrite length_map, length_seq. Qed.

(** A layer with one output returns the one-entry tensor of its value. *)
Lemma linear_scalar (l : Torch.Linear) (x : Torch.tensor) :
  Torch.out_features l = 1 ->
  Torch.linear l x = [Spec.scalar (Torch.linear l x)].
Proof. unfold Torch.linear, Spec.scalar. intros ->. reflexivity. Qed.

(** ** The losses *)

Section LossFacts.

Import Torch Nets Value SAC.
Local Open Scope R_scope.

Variable cfg : Config.t.

Local Abbreviation exp_tuple := (tensor * tensor * R * tensor * bool)%type.
Implicit Types (rs : list exp_tuple) (n cur var : Networks).

Lemma QNet_forward_scalar (q : QNet) s a :
  out_features (q_fc3 q) = 1%nat ->
  QNet_forward q s a = [Spec.scalar (QNet_forward q s a)].
Proof. intros H. unfold QNet_forward. now apply linear_scalar. Qed.

Lemma VNet_forward_scalar (v : VNet) s :
  out_features (v_fc3 v) = 1%nat ->
  VNet_forward v s = [Spec.scalar (VNet_forward v s)].
Proof. intros H. unfold VNet_forward. now apply linear_scalar. Qed.

Lemma Q1_vals_rows rs n :
  out_features (q_fc3 (q1_net n)) = 1%nat ->
  Q1_vals (columns5 rs) n =
  map (fun e => [Spec.Q1 n (fst (fst (fst (fst e))))
                          (snd (fst (fst (fst e))))]) rs.
Proof.
  intros H. unfold Q1_vals, states_th, actions_th, columns5. simpl.
  rewrite zip_with_map. apply map_ext. intros e.
  now apply QNet_forward_scalar.
Qed.

Lemma Q2_vals_rows rs n :
  out_features (q_fc3 (q2_net n)) = 1%nat ->
  Q2_vals (columns5 rs) n =
  map (fun e => [Spec.Q2 n (fst (fst (fst (fst e))))
                          (snd (fst (fst (fst e))))]) rs.
Proof.
  intros H. unfold Q2_vals, states_th, actions_th, columns5. simpl.
  rewrite zip_with_map. apply map_ext. intros e.
  now apply QNet_forward_scalar.
Qed.

Lemma q_target_rows rs n :
  out_features (v_fc3 (v_target_net n)) = 1%nat ->
  q_target cfg (columns5 rs) n = map (fun e => [Spec.y cfg n e]) rs.
Proof.
  intros H.
  unfold q_target, rewards_th, V_next_state_vals, dones_th, next_states_th,
    unsqueeze1, columns5. simpl. rewrite !map_map.
  rewrite (map_ext (fun e : exp_tuple =>
                      VNet_forward (v_target_net n) (snd (fst e)))
                   (fun e => [Spec.V_target n (snd (fst e))]))
    by (intros e; now apply VNet_forward_scalar).
  rewrite !map2d_singletons, !bcast2_singletons.
  apply map_ext. intros [[[[s a] r] s'] d]. simpl.
  unfold Spec.gamma. f_equal. ring.
Qed.

(** The critic loss of the code is the critic loss of the specification. *)
Lemma J_q_refines rs n :
  Spec.scalar_heads n -> J_q cfg (columns5 rs) n = Spec.J_Q cfg n rs.
Proof.
  intros (H1 & H2 & _ & Ht). unfold J_q, J_q1, J_q2, Spec.J_Q.
  rewrite Q1_vals_rows, Q2_vals_rows, q_target_rows by assumption.
  rewrite !bcast2_singletons, !map2d_singletons, !mean_singletons.
  reflexivity.
Qed.

End LossFacts.

(** ** The newly sampled actions and their log-probabilities *)

Section PolicyFacts.

Import Torch Nets Value SAC.
Local Open Scope R_scope.

Variable cfg : Config.t.

Lemma sqrt_2PI_pos : 0 < sqrt (2 * PI).
Proof. apply sqrt_lt_R0. pose proof PI_RGT_0. lra. Qed.

(** [Normal.log_prob] is the logarithm of the normal density. *)
Lemma normal_log_prob1_pdf mu sigma x :
  0 < sigma ->
  normal_log_prob1 mu sigma x = ln (Spec.normal_pdf mu sigma x).
Proof.
  intros Hs. pose proof sqrt_2PI_pos as Hp.
  unfold normal_log_prob1, Spec.normal_pdf.
  rewrite ln_mult.
  - rewrite ln_exp, ln_Rinv, ln_mult by (try apply Rmult_lt_0_compat; lra).
    lra.
  - apply Rinv_0_lt_compat, Rmult_lt_0_compat; lra.
  - apply exp_pos.
Qed.

(** In terms of the noise: the log-probability of [mean + eps * sigma] is
    [- eps^2 / 2 - ln sigma - ln (sqrt (2 pi))]. *)
Lemma normal_log_prob1_reparam mu sigma eps :
  0 < sigma ->
  normal_log_prob1 mu sigma (mu + eps * sigma)
  = - (eps ^ 2) / 2 - ln sigma - ln (sqrt (2 * PI)).
Proof.
  intros Hs. unfold normal_log_prob1. f_equal. f_equal. field. lra.
Qed.

Lemma Actor_forward_lengths (p : Actor) (s : tensor) :
  length (fst (Actor_forward cfg p s)) = out_features (fc_mean p) /\
  length (snd (Actor_forward cfg p s)) = out_features (fc_logstd p).
Proof.
  unfold Actor_forward, clamp. simpl.
  now rewrite length_map, !length_linear.
Qed.

Lemma new_action_zip (m zr ls : tensor) :
  zip_with Rplus m (zip_with Rmult zr (exp ls))
  = map (fun mel => fst (fst mel) + snd (fst mel) * Rtrigo_def.exp (snd mel))
        (combine (combine m zr) ls).
Proof.
  unfold exp. revert zr ls.
  induction m as [|m0 m IH]; intros [|e zr] [|l ls]; simpl;
    try reflexivity.
  now rewrite IH.
Qed.

(** One row of [newly_sampled_actions]. *)
Lemma new_action_row (p : Actor) (s zr : tensor) :
  Spec.actor_heads p ->
  length zr = output_size p ->
  bcast Rplus (fst (Actor_forward cfg p s))
    (bcast Rmult zr (exp (snd (Actor_forward cfg p s))))
  = Spec.new_action cfg p s zr.
Proof.
  intros [Hm Hl] Hz.
  destruct (Actor_forward_lengths p s) as [Lm Ll].
  unfold Spec.new_action.
  destruct (Actor_forward cfg p s) as [m ls]. simpl in *.
  assert (Le : length (exp ls) = length ls) by apply length_map.
  rewrite (bcast_same_length Rmult zr (exp ls)) by lia.
  rewrite bcast_same_length
    by (rewrite length_zip_with; lia).
  apply new_action_zip.
Qed.

Lemma log_prob_zip (m ls a : tensor) :
  normal_log_prob m (exp ls) a
  = map (fun mla =>
           ln (Spec.normal_pdf (fst (fst mla))
                 (Rtrigo_def.exp (snd (fst mla))) (snd mla)))
        (combine (combine m ls) a).
Proof.
  unfold normal_log_prob, exp. revert ls a.
  induction m as [|m0 m IH]; intros [|l ls] [|a0 a]; simpl;
    try reflexivity.
  rewrite IH. f_equal. apply normal_log_prob1_pdf, exp_pos.
Qed.

(** One row of [newly_sampled_action_log_probs]. *)
Lemma log_prob_row (p : Actor) (s zr : tensor) :
  normal_log_prob (fst (Actor_forward cfg p s))
    (exp (snd (Actor_forward cfg p s))) (Spec.new_action cfg p s zr)
  = PerDimension.logprob cfg p s zr.
Proof.
  unfold PerDimension.logprob.
  destruct (Actor_forward cfg p s) as [m ls] eqn:E. simpl.
  apply log_prob_zip.
Qed.

End PolicyFacts.

Lemma map_fst_combine_eq {A B} (a : list A) : forall (b : list B),
  length b = length a -> map fst (combine a b) = a.
Proof.
  induction a as [|x a IH]; intros [|y b] H; simpl in *; try discriminate;
    [reflexivity|]. now rewrite IH by lia.
Qed.

Lemma map_snd_combine_eq {A B} (a : list A) : forall (b : list B),
  length b = length a -> map snd (combine a b) = b.
Proof.
  induction a as [|x a IH]; intros [|y b] H; simpl in *; try discriminate;
    [reflexivity|]. now rewrite IH by lia.
Qed.

Lemma combine_map_same {T A B} (ga : T -> A) (gb : T -> B) (c : list T) :
  combine (map ga c) (map gb c) = map (fun x => (ga x, gb x)) c.
Proof. induction c as [|x c IH]; simpl; [|rewrite IH]; reflexivity. Qed.

Section BatchForward.

Import Torch Nets Value SAC.
Local Open Scope R_scope.

Variable cfg : Config.t.
Variables (b : Batch) (z : tensor2).

(** The observations of the batch, each with its row of noise. *)
Local Abbreviation csz := (combine (states_th b) z).

Hypothesis z_length : length z = length (states_th b).

Lemma newly_sampled_actions_rows n :
  Spec.actor_heads (policy n) ->
  Forall (fun zr => length zr = output_size (policy n)) z ->
  newly_sampled_actions cfg b z n
  = map (fun sz => Spec.new_action cfg (policy n) (fst sz) (snd sz)) csz.
Proof.
  intros Hh Hz.
  unfold newly_sampled_actions, pi_action_means, pi_action_stds,
    pi_action_logstd, bcast2, map2d.
  pose proof (map_fst_combine_eq (states_th b) z z_length) as Hs.
  pose proof (map_snd_combine_eq (states_th b) z z_length) as Hn.
  set (c := combine (states_th b) z) in *.
  rewrite <- Hs. rewrite <- Hn at 1. rewrite !map_map.
  rewrite !zip_with_map. apply map_ext_in. intros [s zr] Hin. simpl.
  apply new_action_row; [exact Hh|].
  rewrite Forall_forall in Hz. apply Hz.
  unfold c in Hin. eapply in_combine_r, Hin.
Qed.

Lemma log_probs_rows n :
  Spec.actor_heads (policy n) ->
  Forall (fun zr => length zr = output_size (policy n)) z ->
  newly_sampled_action_log_probs cfg b z n
  = map (fun sz => PerDimension.logprob cfg (policy n) (fst sz) (snd sz)) csz.
Proof.
  intros Hh Hz. unfold newly_sampled_action_log_probs.
  rewrite newly_sampled_actions_rows by assumption.
  unfold pi_action_means, pi_action_stds, pi_action_logstd, map2d.
  pose proof (map_fst_combine_eq (states_th b) z z_length) as Hs.
  set (c := combine (states_th b) z) in *.
  rewrite <- Hs. rewrite !map_map.
  rewrite combine_map_same, zip_with_map.
  apply map_ext. intros [s zr]. simpl.
  apply log_prob_row.
Qed.

Lemma Q_minvals_rows n :
  Spec.actor_heads (policy n) ->
  Forall (fun zr => length zr = output_size (policy n)) z ->
  Spec.scalar_heads n ->
  newly_sampled_Q_minvals cfg b z n
  = map (fun sz => [Spec.Qmin cfg n n (fst sz) (snd sz)]) csz.
Proof.
  intros Hh Hz (H1 & H2 & _).
  unfold newly_sampled_Q_minvals, newly_sampled_Q1_vals,
    newly_sampled_Q2_vals.
  rewrite newly_sampled_actions_rows by assumption.
  pose proof (map_fst_combine_eq (states_th b) z z_length) as Hs.
  set (c := combine (states_th b) z) in *.
  rewrite <- Hs. rewrite !zip_with_map.
  rewrite (map_ext _ (fun sz : tensor * tensor =>
             [Spec.Q1 n (fst sz)
                (Spec.new_action cfg (policy n) (fst sz) (snd sz))]))
    by (intros sz; now apply QNet_forward_scalar).
  rewrite (map_ext (fun sz : tensor * tensor =>
             QNet_forward (q2_net n) (fst sz) _)
             (fun sz : tensor * tensor =>
             [Spec.Q2 n (fst sz)
                (Spec.new_action cfg (policy n) (fst sz) (snd sz))]))
    by (intros sz; now apply QNet_forward_scalar).
  rewrite bcast2_singletons. reflexivity.
Qed.

Lemma V_vals_rows n :
  out_features (v_fc3 (v_net n)) = 1%nat ->
  V_vals b n = map (fun sz : tensor * tensor => [Spec.V n (fst sz)]) csz.
Proof.
  intros H. unfold V_vals.
  pose proof (map_fst_combine_eq (states_th b) z z_length) as Hs.
  set (c := combine (states_th b) z) in *.
  rewrite <- Hs, map_map. apply map_ext. intros sz.
  now apply VNet_forward_scalar.
Qed.

(** The value loss of the code is the value loss of the specification. *)
Lemma J_v_refines cur var :
  Spec.actor_heads (policy cur) ->
  Forall (fun zr => length zr = output_size (policy cur)) z ->
  Spec.scalar_heads cur ->
  out_features (v_fc3 (v_net var)) = 1%nat ->
  J_v cfg b z cur var = PerDimension.J_V cfg cur var (states_th b) z.
Proof.
  intros Hh Hz Hs Hv. unfold J_v, PerDimension.J_V.
  rewrite (V_vals_rows var Hv), Q_minvals_rows, log_probs_rows
    by assumption.
  unfold map2d, bcast2. rewrite !map_map, !zip_with_map, map_map.
  rewrite mean_rows. f_equal. apply flat_map_ext. intros [s zr].
  cbn [fst snd]. rewrite !bcast_scalar_l, !map_map. reflexivity.
Qed.

(** The policy loss of the code is the policy loss of the specification. *)
Lemma J_pi_refines var :
  Spec.actor_heads (policy var) ->
  Forall (fun zr => length zr = output_size (policy var)) z ->
  Spec.scalar_heads var ->
  J_pi cfg b z var = PerDimension.J_pi cfg var (states_th b) z.
Proof.
  intros Hh Hz Hs. unfold J_pi, PerDimension.J_pi.
  rewrite Q_minvals_rows, log_probs_rows by assumption.
  unfold map2d, bcast2. rewrite !map_map, !zip_with_map.
  rewrite mean_rows. f_equal. apply flat_map_ext. intros [s zr].
  cbn [fst snd]. rewrite bcast_scalar_r, !map_map. reflexivity.
Qed.

End BatchForward.

Section ReparamFacts.

Import Torch Nets Value SAC.
Local Open Scope R_scope.

Variable cfg : Config.t.

Lemma logprob_noise_zip (m zr ls : tensor) :
  length m = length ls ->
  length zr = length ls ->
  map (fun mla =>
         ln (Spec.normal_pdf (fst (fst mla))
               (Rtrigo_def.exp (snd (fst mla))) (snd mla)))
      (combine (combine m ls)
         (map (fun mel => fst (fst mel)
                          + snd (fst mel) * Rtrigo_def.exp (snd mel))
              (combine (combine m zr) ls)))
  = map (fun el => - (fst el ^ 2) / 2 - snd el - ln (sqrt (2 * PI)))
        (combine zr ls).
Proof.
  revert zr ls.
  induction m as [|m0 m IH]; intros [|e zr] [|l ls] Hm Hz; simpl in *;
    try discriminate; [reflexivity|].
  rewrite IH by lia. f_equal.
  rewrite <- normal_log_prob1_pdf by apply exp_pos.
  rewrite normal_log_prob1_reparam by apply exp_pos.
  now rewrite ln_exp.
Qed.

(** The log-probability of the newly sampled action is that of the noise
    minus the log-deviation. *)
Lemma logprob_reparam (p : Actor) (s zr : tensor) :
  Spec.actor_heads p ->
  length zr = output_size p ->
  PerDimension.logprob cfg p s zr = PerDimension.logprob_of_noise cfg p s zr.
Proof.
  intros [Hm Hl] Hz.
  destruct (Actor_forward_lengths cfg p s) as [Lm Ll].
  unfold PerDimension.logprob, PerDimension.logprob_of_noise, Spec.new_action.
  destruct (Actor_forward cfg p s) as [m ls]. simpl in *.
  apply logprob_noise_zip; lia.
Qed.

Lemma normal_pdf_pos mu sigma x : 0 < sigma -> 0 < Spec.normal_pdf mu sigma x.
Proof.
  intros Hs. unfold Spec.normal_pdf. apply Rmult_lt_0_compat.
  - apply Rinv_0_lt_compat, Rmult_lt_0_compat;
      [exact Hs | apply sqrt_2PI_pos].
  - apply exp_pos.
Qed.

Lemma sum_ln_product (l : list R) :
  Forall (fun x => 0 < x) l ->
  sum (map ln l) = ln (fold_right Rmult 1 l).
Proof.
  induction 1 as [|x l Hx Hl IH]; simpl; [now rewrite ln_1|].
  rewrite ln_mult, IH; [reflexivity | exact Hx |].
  clear IH. induction Hl as [|y l Hy _ IH]; simpl; [lra|].
  now apply Rmult_lt_0_compat.
Qed.

(** The entries of the log-probability are the terms of the logarithm of
    the diagonal Gaussian density: they sum to it. *)
Lemma logprob_sum (p : Actor) (s zr : tensor) :
  sum (PerDimension.logprob cfg p s zr) = ln (Spec.diag_normal_pdf cfg p s zr).
Proof.
  unfold PerDimension.logprob, Spec.diag_normal_pdf.
  destruct (Actor_forward cfg p s) as [m ls].
  rewrite <- sum_ln_product.
  - now rewrite map_map.
  - apply Forall_forall. intros x Hx.
    apply in_map_iff in Hx as (mla & <- & _).
    apply normal_pdf_pos, exp_pos.
Qed.

End ReparamFacts.

(** ** One action dimension, and more than one *)

Section OneDimension.

Import Torch Nets Value SAC.
Local Open Scope R_scope.

Variable cfg : Config.t.

(** For a one-dimensional action the one entry of the log-probability is
    the log-density of [a']. *)
Lemma logprob_one_dimension (p : Actor) (s eps : tensor) :
  Spec.actor_heads p -> output_size p = 1%nat -> length eps = 1%nat ->
  PerDimension.logprob cfg p s eps = [Spec.log_density cfg p s eps].
Proof.
  intros [Hm Hl] Ho He.
  destruct (Actor_forward_lengths cfg p s) as [Lm Ll].
  unfold PerDimension.logprob, Spec.log_density, Spec.diag_normal_pdf,
    Spec.new_action.
  destruct (Actor_forward cfg p s) as [m ls]. cbn [fst snd] in *.
  destruct m as [|m0 [|m1 m]]; cbn [length] in Lm; try lia.
  destruct ls as [|l0 [|l1 ls]]; cbn [length] in Ll; try lia.
  destruct eps as [|e0 [|e1 eps]]; cbn [length] in He; try lia.
  cbn [combine map fold_right fst snd]. now rewrite Rmult_1_r.
Qed.

Lemma flat_map_singletons {A B} (f : A -> list B) (g : A -> B) (l : list A) :
  Forall (fun a => f a = [g a]) l -> flat_map f l = map g l.
Proof.
  induction 1 as [|a l Ha _ IH]; [reflexivity|].
  cbn [flat_map map]. now rewrite Ha, IH.
Qed.

Variables (states : list tensor) (z : tensor2).

Lemma one_entry_rows (p : Actor) :
  Spec.actor_heads p -> output_size p = 1%nat ->
  Forall (fun zr => length zr = output_size p) z ->
  Forall (fun sz => PerDimension.logprob cfg p (fst sz) (snd sz)
                    = [Spec.log_density cfg p (fst sz) (snd sz)])
         (combine states z).
Proof.
  intros Hh Ho Hz. rewrite Forall_forall in *. intros [s eps] Hin.
  apply logprob_one_dimension; auto.
  rewrite <- Ho. eapply Hz, in_combine_r, Hin.
Qed.

(** With one action dimension the losses with one log-probability for each
    dimension are the losses with the log-density of [a']. *)
Lemma J_V_one_dimension (cur var : Networks) :
  Spec.actor_heads (policy cur) -> output_size (policy cur) = 1%nat ->
  Forall (fun zr => length zr = output_size (policy cur)) z ->
  PerDimension.J_V cfg cur var states z = Spec.J_V cfg cur var states z.
Proof.
  intros Hh Ho Hz. unfold PerDimension.J_V, Spec.J_V. f_equal.
  apply flat_map_singletons.
  eapply Forall_impl; [|exact (one_entry_rows Hh Ho Hz)].
  intros sz H. cbv beta. now rewrite H.
Qed.

Lemma J_pi_one_dimension (var : Networks) :
  Spec.actor_heads (policy var) -> output_size (policy var) = 1%nat ->
  Forall (fun zr => length zr = output_size (policy var)) z ->
  PerDimension.J_pi cfg var states z = Spec.J_pi cfg var states z.
Proof.
  intros Hh Ho Hz. unfold PerDimension.J_pi, Spec.J_pi. f_equal.
  apply flat_map_singletons.
  eapply Forall_impl; [|exact (one_entry_rows Hh Ho Hz)].
  intros sz H. cbv beta. now rewrite H.
Qed.

End OneDimension.

Section TwoDimensions.

Import Torch Nets Value SAC.
Local Open Scope R_scope.

Lemma ln_sqrt_2PI_pos : 0 < ln (sqrt (2 * PI)).
Proof.
  rewrite <- ln_1. apply ln_increasing; [lra|].
  rewrite <- sqrt_1 at 1. apply sqrt_lt_1; pose proof PI2_1; lra.
Qed.

Ltac zero_weights :=
  repeat (rewrite ?Rmult_0_r, ?Rplus_0_r, ?Rplus_0_l;
          try rewrite (Rmax_left 0 0) by lra).

Lemma actor2_forward :
  Actor_forward Example.cfg1 Example.actor2 [1] = ([0; 0], [0; 0]).
Proof.
  unfold Actor_forward, Example.actor2, Example.lin, linear, relu, clamp,
    dot, weight_row, sum.
  cbn -[Rmax Rmin]. zero_weights.
  rewrite (Rmax_left 0 (-20)) by lra. rewrite (Rmin_left 0 2) by lra.
  reflexivity.
Qed.

Lemma qnet2_forward (a1 a2 : R) :
  QNet_forward Example.qnet2 [1] [a1; a2] = [0].
Proof.
  unfold QNet_forward, Example.qnet2, Example.lin, linear, relu, cat, dot,
    weight_row, sum.
  cbn -[Rmax Rmin]. zero_weights. reflexivity.
Qed.

Lemma vnet0_forward : VNet_forward Example.vnet0 [1] = [0].
Proof.
  unfold VNet_forward, Example.vnet0, Example.lin, linear, relu, dot,
    weight_row, sum.
  cbn -[Rmax Rmin]. zero_weights. reflexivity.
Qed.

Lemma networks2_heads :
  Spec.actor_heads (policy Example.networks2) /\
  Spec.scalar_heads Example.networks2 /\
  Spec.noise_shape (policy Example.networks2)
    (length (states_th Example.batch2)) Example.noise2.
Proof.
  split; [split; reflexivity|]. split; [repeat split|].
  split; [reflexivity | repeat constructor].
Qed.

(** On the two-dimensional instance each of the two log-probabilities is
    [- 1/2 - ln (sqrt (2 pi))]. *)
Lemma logprob2 :
  PerDimension.logprob Example.cfg1 Example.actor2 [1] [1; 1]
  = [- (1 ^ 2) / 2 - 0 - ln (sqrt (2 * PI));
     - (1 ^ 2) / 2 - 0 - ln (sqrt (2 * PI))].
Proof.
  rewrite logprob_reparam; [|split; reflexivity | reflexivity].
  unfold PerDimension.logprob_of_noise. now rewrite actor2_forward.
Qed.

Lemma log_density2 :
  Spec.log_density Example.cfg1 Example.actor2 [1] [1; 1]
  = 2 * (- (1 ^ 2) / 2 - 0 - ln (sqrt (2 * PI))).
Proof.
  unfold Spec.log_density. rewrite <- logprob_sum, logprob2.
  unfold sum. cbn [fold_right]. ring.
Qed.

Lemma Qmin2 :
  Spec.Qmin Example.cfg1 Example.networks2 Example.networks2 [1] [1; 1] = 0.
Proof.
  unfold Spec.Qmin, Spec.Q1, Spec.Q2, Spec.new_action.
  cbn [policy q1_net q2_net Example.networks2].
  rewrite actor2_forward. cbn [combine map fst snd].
  rewrite !qnet2_forward. unfold Spec.scalar. cbn [nth].
  apply Rmin_left. lra.
Qed.

Lemma V2 : Spec.V Example.networks2 [1] = 0.
Proof.
  unfold Spec.V. cbn [v_net Example.networks2].
  now rewrite vnet0_forward.
Qed.

(** The three tensors of the code on the two-dimensional instance, against
    the formulas with the log-density of [a']. *)
Lemma two_dimensions :
  newly_sampled_action_log_probs Example.cfg1 Example.batch2 Example.noise2
    Example.networks2
  = [[- (1 ^ 2) / 2 - 0 - ln (sqrt (2 * PI));
      - (1 ^ 2) / 2 - 0 - ln (sqrt (2 * PI))]] /\
  J_v Example.cfg1 Example.batch2 Example.noise2 Example.networks2
    Example.networks2
  = (1 / 2 + ln (sqrt (2 * PI))) ^ 2 /\
  Spec.J_V Example.cfg1 Example.networks2 Example.networks2
    (states_th Example.batch2) Example.noise2
  = 4 * (1 / 2 + ln (sqrt (2 * PI))) ^ 2 /\
  J_pi Example.cfg1 Example.batch2 Example.noise2 Example.networks2
  = - (1 / 2 + ln (sqrt (2 * PI))) /\
  Spec.J_pi Example.cfg1 Example.networks2 (states_th Example.batch2)
    Example.noise2
  = - 2 * (1 / 2 + ln (sqrt (2 * PI))).
Proof.
  destruct networks2_heads as (Hh & Hs & Hl & Hz).
  split.
  { rewrite log_probs_rows by (auto; reflexivity).
    cbn [Example.batch2 Example.noise2 states_th columns5 map combine fst snd
         policy Example.networks2].
    now rewrite logprob2. }
  split.
  { rewrite J_v_refines by (auto; try reflexivity; apply Hs).
    unfold PerDimension.J_V.
    cbn [Example.batch2 Example.noise2 states_th columns5 map combine fst snd
         policy Example.networks2 flat_map app].
    rewrite logprob2, Qmin2, V2. unfold Spec.alpha, Spec.avg, sum.
    cbn [Example.cfg1 Config.entropy_coeff map app fold_right length].
    simpl INR. field. }
  split.
  { unfold Spec.J_V.
    cbn [Example.batch2 Example.noise2 states_th columns5 map combine fst snd
         policy Example.networks2].
    rewrite log_density2, Qmin2, V2. unfold Spec.alpha, Spec.avg, sum.
    cbn [Example.cfg1 Config.entropy_coeff map app fold_right length].
    simpl INR. field. }
  split.
  { rewrite J_pi_refines by (auto; reflexivity).
    unfold PerDimension.J_pi.
    cbn [Example.batch2 Example.noise2 states_th columns5 map combine fst snd
         policy Example.networks2 flat_map app].
    rewrite logprob2, Qmin2. unfold Spec.alpha, Spec.avg, sum.
    cbn [Example.cfg1 Config.entropy_coeff map app fold_right length].
    simpl INR. field. }
  unfold Spec.J_pi.
  cbn [Example.batch2 Example.noise2 states_th columns5 map combine fst snd
       policy Example.networks2].
  rewrite log_density2, Qmin2. unfold Spec.alpha, Spec.avg, sum.
  cbn [Example.cfg1 Config.entropy_coeff map app fold_right length].
  simpl INR. field.
Qed.

End TwoDimensions.

(** C5.  In the forward pass of the optimization step, for networks built
    with equally many means and log-deviations and a noise tensor of the
    shape of the means: the newly sampled action of every sample is
    [mean + eps * exp(logstd)], entry by entry, for the standard normal draw
    [eps] and the policy outputs at the sampled observation; it does not
    depend on the actions stored in the batch; its log-probability is kept
    dimension by dimension: the entry of a dimension is the logarithm of
    the Gaussian density of that entry of [a'] under the mean and
    [exp(logstd)] of the dimension, which is
    [- eps^2 / 2 - logstd - ln (sqrt (2 pi))] and carries no term for the
    [tanh] squashing.  For a one-dimensional action the one entry is the
    log-density of [a'] under the diagonal Gaussian; for more dimensions the
    entries sum to it, and the program does not form the sum. *)
Theorem newly_sampled_action_reparameterized :
  forall (cfg : Config.t) (b : SAC.Batch) (z : Torch.tensor2)
         (n : SAC.Networks),
    Spec.actor_heads (SAC.policy n) ->
    Spec.noise_shape (SAC.policy n) (length (SAC.states_th b)) z ->
    SAC.newly_sampled_actions cfg b z n
      = map (fun sz => Spec.new_action cfg (SAC.policy n) (fst sz) (snd sz))
            (combine (SAC.states_th b) z) /\
    (forall actions' : list Torch.tensor,
        SAC.newly_sampled_actions cfg
          (SAC.states_th b, actions', snd (fst (fst b)), snd (fst b), snd b)
          z n
        = SAC.newly_sampled_actions cfg b z n) /\
    SAC.newly_sampled_action_log_probs cfg b z n
      = map (fun sz =>
               PerDimension.logprob cfg (SAC.policy n) (fst sz) (snd sz))
            (combine (SAC.states_th b) z) /\
    (forall s eps, In (s, eps) (combine (SAC.states_th b) z) ->
        PerDimension.logprob cfg (SAC.policy n) s eps
        = PerDimension.logprob_of_noise cfg (SAC.policy n) s eps /\
        Torch.sum (PerDimension.logprob cfg (SAC.policy n) s eps)
        = Spec.log_density cfg (SAC.policy n) s eps) /\
    (Nets.output_size (SAC.policy n) = 1%nat ->
     SAC.newly_sampled_action_log_probs cfg b z n
     = map (fun sz => [Spec.log_density cfg (SAC.policy n) (fst sz) (snd sz)])
           (combine (SAC.states_th b) z)).
Proof.
  intros cfg b z n Hh [Hlen Hrows].
  split; [now apply newly_sampled_actions_rows|].
  split; [reflexivity|].
  split; [now apply log_probs_rows|].
  rewrite Forall_forall in Hrows.
  split.
  - intros s eps Hin. split; [|apply logprob_sum].
    apply logprob_reparam; [exact Hh|].
    eapply Hrows, in_combine_r, Hin.
  - intros Ho. rewrite log_probs_rows by (auto; now apply Forall_forall).
    apply map_ext_in. intros [s eps] Hin.
    apply logprob_one_dimension; auto.
    rewrite <- Ho. eapply Hrows, in_combine_r, Hin.
Qed.

(** C5 on the small instance, whose action has one dimension: a batch of
    one observation and the noise 1/2. *)
Lemma newly_sampled_action_reparameterized_witness :
  Spec.actor_heads (SAC.policy Example.networks) /\
  Spec.noise_shape (SAC.policy Example.networks) 1 [[(1 / 2)%R]] /\
  SAC.newly_sampled_actions Example.cfg
    (columns5 [([1%R], [0%R], 1%R, [1%R], false)]) [[(1 / 2)%R]]
    Example.networks
  = [Spec.new_action Example.cfg Example.actor [1%R] [(1 / 2)%R]] /\
  SAC.newly_sampled_action_log_probs Example.cfg
    (columns5 [([1%R], [0%R], 1%R, [1%R], false)]) [[(1 / 2)%R]]
    Example.networks
  = [[Spec.log_density Example.cfg Example.actor [1%R] [(1 / 2)%R]]].
Proof.
  assert (Hh : Spec.actor_heads (SAC.policy Example.networks))
    by (split; reflexivity).
  assert (Hz : Spec.noise_shape (SAC.policy Example.networks) 1
                 [[(1 / 2)%R]])
    by (split; [reflexivity | repeat constructor]).
  split; [exact Hh|]. split; [exact Hz|].
  destruct (@newly_sampled_action_reparameterized Example.cfg
              (columns5 [([1%R], [0%R], 1%R, [1%R], false)])
              [[(1 / 2)%R]] Example.networks Hh Hz)
    as (Ha & _ & _ & _ & Hd).
  split; [exact Ha | exact (Hd eq_refl)].
Defined.

(** With a two-dimensional action the log-probability of the program is
    not the log-density of [a']: it has two entries, and neither is the
    log-density. *)
Lemma log_prob_not_log_density :
  SAC.newly_sampled_action_log_probs Example.cfg1 Example.batch2
    Example.noise2 Example.networks2
  <> map (fun sz =>
            [Spec.log_density Example.cfg1 (SAC.policy Example.networks2)
               (fst sz) (snd sz)])
         (combine (SAC.states_th Example.batch2) Example.noise2) /\
  Forall (Forall (fun lp =>
                    lp <> Spec.log_density Example.cfg1 Example.actor2
                            [1%R] [1%R; 1%R]))
    (SAC.newly_sampled_action_log_probs Example.cfg1 Example.batch2
       Example.noise2 Example.networks2).
Proof.
  destruct two_dimensions as (Hlp & _). rewrite Hlp. split.
  - cbn. discriminate.
  - pose proof ln_sqrt_2PI_pos as Hc. rewrite log_density2.
    repeat constructor; lra.
Qed.

(** ** A call of [optimize_model] that gets past the guard *)

Section RealStep.

Import Torch Nets Value SAC.
Local Open Scope R_scope.

Variable cfg : Config.t.
Variable grad : (list tensor -> R) -> list tensor -> list tensor.
Variable stale_grad :
  (list tensor -> R) -> list tensor -> list tensor -> list tensor
  -> result (list tensor).
Variable Optimizer : Type.
Variable step : Optimizer -> list tensor -> list tensor
                -> Optimizer * list tensor.

Lemma optimize_model_real nets mem (opts : Optimizers Optimizer) d r :
  (Config.train_batch_size cfg <= Replay.len mem)%nat ->
  optimize_model cfg grad stale_grad step nets mem opts d = Ok r ->
  exists batches b,
    Replay.sample mem (Z.of_nat (Config.train_batch_size cfg))
      = Ok batches /\
    In b batches /\
    b = columns5 (Replay.rows b) /\
    length (Replay.rows b) = Config.train_batch_size cfg /\
    length (states_th b) = Config.train_batch_size cfg /\
    optimize_on_batch cfg grad stale_grad step b (z d) nets opts = Ok r.
Proof.
  intros Hge H. apply optimize_model_inv in H
    as [[Hlt _]|[_ (batches & b & Hs & Hb & E)]]; [lia|].
  exists batches, b.
  destruct (sample_batch_rows _ _ _ Hs Hb) as (Hc & Hl & _).
  rewrite Nat2Z.id in Hl.
  repeat split; auto.
  rewrite Hc. unfold states_th, columns5. simpl.
  now rewrite length_map.
Qed.

(** The batches of [memory.sample(train_batch_size)] have
    [train_batch_size] observations. *)
Lemma sampled_batch_states (mem : Memory) batches (b : Batch) :
  Replay.sample mem (Z.of_nat (Config.train_batch_size cfg)) = Ok batches ->
  In b batches ->
  length (states_th b) = Config.train_batch_size cfg.
Proof.
  intros Hs Hb.
  destruct (sample_batch_rows _ _ _ Hs Hb) as (Hc & Hl & _).
  rewrite Nat2Z.id in Hl.
  rewrite Hc. unfold states_th, columns5. simpl.
  now rewrite length_map.
Qed.

End RealStep.

(** ** The three updates of the optimization step *)

Section UpdateClaims.

Import Torch Nets Value SAC.
Local Open Scope R_scope.

(** An optimizer step keeps the shapes of the actor. *)
Lemma actor_heads_with_parameters (p : Actor) (ps : list tensor) :
  Spec.actor_heads p ->
  Spec.actor_heads (with_parameters p ps) /\
  output_size (with_parameters p ps) = output_size p.
Proof. intros [Hm Hl]. repeat split; assumption. Qed.

Ltac eval_relu :=
  repeat match goal with
    | |- context [Rmax 0 ?e] => rewrite (Rmax_right 0 e) by lra
    | |- context [Rmin ?a ?b] => rewrite (Rmin_left a b) by lra
    end.

(** With the entropy coefficient 0 the policy loss is the mean of
    [- Qmin']; it still varies with the weights of the policy, where a loss
    with [Qmin'] detached does not. *)
Lemma policy_loss_reads_critics :
  PerDimension.J_pi Example.cfg0 (set_policy Example.networks Example.actor)
    [[1]] [[0]] = -2 /\
  PerDimension.J_pi Example.cfg0 (set_policy Example.networks Example.actor')
    [[1]] [[0]] = -1 /\
  PerDimension.J_pi_detached Example.cfg0 Example.networks
    (set_policy Example.networks Example.actor) [[1]] [[0]]
  = PerDimension.J_pi_detached Example.cfg0 Example.networks
      (set_policy Example.networks Example.actor') [[1]] [[0]].
Proof.
  unfold PerDimension.J_pi, PerDimension.J_pi_detached, Spec.avg, Spec.Qmin, Spec.Q1,
    Spec.Q2, PerDimension.logprob, Spec.new_action, Spec.alpha, Spec.scalar.
  cbn -[Rmax Rmin ln Rtrigo_def.exp Spec.normal_pdf INR].
  eval_relu. simpl INR. repeat split; lra.
Qed.

(** C3.  For networks of the shapes that [__main__] builds and every
    batch that [memory.sample(train_batch_size)] can return: the value loss
    is the mean, over the samples and the action dimensions, of
    [(V(s) - (Qmin' - alpha * logprob_i(a')))^2], [logprob_i(a')] being the
    log-probability of the [i]-th entry of [a']; for a one-dimensional
    action this is [mean[(V(s) - (Qmin' - alpha * logprob(a')))^2]].  The
    function that is differentiated takes the whole target from the forward
    pass, so that among the networks it reads the value network alone; the
    step of [v_net_optimizer] replaces the parameters of the value network.
    A call of [optimize_model] that returns reports this loss, and its
    networks differ from those on entry by this replacement, the critic
    step on the two critics and the policy step on the policy, the target
    network being untouched.  The default of [alpha] is -1e-10. *)
Theorem value_loss_stop_gradient :
  forall (cfg : Config.t)
         (grad : (list tensor -> R) -> list tensor -> list tensor)
         (stale_grad : (list tensor -> R) -> list tensor -> list tensor
                       -> list tensor -> result (list tensor))
         (Optimizer : Type)
         (step : Optimizer -> list tensor -> list tensor
                 -> Optimizer * list tensor)
         (nets : Networks) (memory : Memory) (opts : Optimizers Optimizer)
         (d : Draws),
    Spec.actor_heads (policy nets) ->
    Spec.scalar_heads nets ->
    Spec.noise_shape (policy nets) (Config.train_batch_size cfg) (z d) ->
    (forall batches b,
        Replay.sample memory (Z.of_nat (Config.train_batch_size cfg))
          = Ok batches ->
        In b batches ->
        J_v cfg b (z d) nets nets
          = PerDimension.J_V cfg nets nets (states_th b) (z d) /\
        (output_size (policy nets) = 1%nat ->
         J_v cfg b (z d) nets nets
         = Spec.J_V cfg nets nets (states_th b) (z d)) /\
        (forall var,
            out_features (v_fc3 (v_net var)) = 1%nat ->
            J_v cfg b (z d) nets var
            = PerDimension.J_V cfg nets var (states_th b) (z d)) /\
        (forall var var',
            v_net var = v_net var' ->
            J_v cfg b (z d) nets var = J_v cfg b (z d) nets var') /\
        (let ps := parameters (v_net nets) in
         let g :=
           grad (fun ps' =>
                   J_v cfg b (z d) nets
                     (set_v_net nets (with_parameters (v_net nets) ps')))
                ps in
         update_v cfg grad step b (z d) nets (v_net_optimizer opts)
         = (fst (step (v_net_optimizer opts) ps g),
            with_parameters (v_net nets)
              (snd (step (v_net_optimizer opts) ps g))))) /\
    (forall (Jv Jq Jpi : R) (nets' : Networks)
            (opts' : Optimizers Optimizer),
        (Config.train_batch_size cfg <= Replay.len memory)%nat ->
        optimize_model cfg grad stale_grad step nets memory opts d
          = Ok ((Jv, Jq, Jpi), nets', opts') ->
        exists batches b,
          Replay.sample memory (Z.of_nat (Config.train_batch_size cfg))
            = Ok batches /\
          In b batches /\
          Jv = J_v cfg b (z d) nets nets /\
          (v_net_optimizer opts', v_net nets')
          = update_v cfg grad step b (z d) nets (v_net_optimizer opts) /\
          nets' = set_policy
                    (set_q_nets (set_v_net nets (v_net nets'))
                       (q1_net nets') (q2_net nets'))
                    (policy nets') /\
          v_target_net nets' = v_target_net nets) /\
    Spec.alpha Config.default = - (1 / 10000000000).
Proof.
  intros cfg grad stale_grad Optimizer step nets memory opts d
    Hh Hs [Hzl Hzr].
  split; [|split].
  - intros batches b Hsam Hb.
    pose proof (@sampled_batch_states cfg memory batches b Hsam Hb) as Hlen.
    assert (Hz : length (z d) = length (states_th b)) by congruence.
    split; [apply J_v_refines; auto; apply Hs|].
    split.
    { intros Ho. rewrite J_v_refines by (auto; apply Hs).
      now apply J_V_one_dimension. }
    split; [intros var Hv; now apply J_v_refines|].
    split; [intros var var' Hv; unfold J_v, V_vals; now rewrite Hv|].
    cbv zeta. unfold update_v.
    destruct (step (v_net_optimizer opts) _ _) as [o' ps']. reflexivity.
  - intros Jv Jq Jpi nets' opts' Hge H.
    apply optimize_model_real in H
      as (batches & b & Hsam & Hb & _ & _ & _ & E); [|exact Hge].
    apply optimize_on_batch_inv in E as (oa & p' & _ & E).
    injection E as -> _ _ -> ->.
    exists batches, b. split; [exact Hsam|]. split; [exact Hb|].
    split; [reflexivity|]. cbn [v_net_optimizer v_net set_policy set_q_nets
                                set_v_net].
    split; [now destruct (update_v _ _ _ _ _ _ _)|].
    split; reflexivity.
  - unfold Spec.alpha, Config.default. simpl. lra.
Qed.

(** With a two-dimensional action the value loss of the program is not
    [mean[(V(s) - (Qmin' - alpha * logprob(a')))^2]] with the log-density
    of [a']. *)
Lemma value_loss_not_log_density :
  J_v Example.cfg1 Example.batch2 Example.noise2 Example.networks2
    Example.networks2
  <> Spec.J_V Example.cfg1 Example.networks2 Example.networks2
       (states_th Example.batch2) Example.noise2.
Proof.
  destruct two_dimensions as (_ & Hv & HV & _). rewrite Hv, HV.
  pose proof ln_sqrt_2PI_pos as Hc. nra.
Qed.

(** C4.  For networks of the shapes that [__main__] builds and every batch
    that [memory.sample(train_batch_size)] can return: the policy loss is
    the mean, over the samples and the action dimensions, of
    [alpha * logprob_i(a') - Qmin'], which for a one-dimensional action is
    [mean[alpha * logprob(a') - Qmin']]; as a function of the policy
    parameters it recomputes [a'], the log-probability and
    [Qmin' = min(Q1(s,a'), Q2(s,a'))], so that [Qmin'] is not a constant of
    it (on the small instance the loss varies with the policy through
    [Qmin'] alone, where a loss with [Qmin'] detached does not).  A call of
    [optimize_model] that returns reports this loss. *)
Theorem policy_loss_reparameterized :
  forall (cfg : Config.t)
         (grad : (list tensor -> R) -> list tensor -> list tensor)
         (stale_grad : (list tensor -> R) -> list tensor -> list tensor
                       -> list tensor -> result (list tensor))
         (Optimizer : Type)
         (step : Optimizer -> list tensor -> list tensor
                 -> Optimizer * list tensor)
         (nets : Networks) (memory : Memory) (opts : Optimizers Optimizer)
         (d : Draws),
    Spec.actor_heads (policy nets) ->
    Spec.scalar_heads nets ->
    Spec.noise_shape (policy nets) (Config.train_batch_size cfg) (z d) ->
    (forall batches b,
        Replay.sample memory (Z.of_nat (Config.train_batch_size cfg))
          = Ok batches ->
        In b batches ->
        J_pi cfg b (z d) nets
          = PerDimension.J_pi cfg nets (states_th b) (z d) /\
        (output_size (policy nets) = 1%nat ->
         J_pi cfg b (z d) nets = Spec.J_pi cfg nets (states_th b) (z d)) /\
        (forall ps',
            let var :=
              set_policy nets (with_parameters (policy nets) ps') in
            J_pi cfg b (z d) var
              = PerDimension.J_pi cfg var (states_th b) (z d) /\
            (output_size (policy nets) = 1%nat ->
             J_pi cfg b (z d) var
             = Spec.J_pi cfg var (states_th b) (z d)))) /\
    (forall (Jv Jq Jpi : R) (nets' : Networks)
            (opts' : Optimizers Optimizer),
        (Config.train_batch_size cfg <= Replay.len memory)%nat ->
        optimize_model cfg grad stale_grad step nets memory opts d
          = Ok ((Jv, Jq, Jpi), nets', opts') ->
        exists batches b,
          Replay.sample memory (Z.of_nat (Config.train_batch_size cfg))
            = Ok batches /\
          In b batches /\
          Jpi = J_pi cfg b (z d) nets) /\
    (PerDimension.J_pi Example.cfg0
       (set_policy Example.networks Example.actor) [[1]] [[0]]
     <> PerDimension.J_pi Example.cfg0
          (set_policy Example.networks Example.actor') [[1]] [[0]] /\
     PerDimension.J_pi_detached Example.cfg0 Example.networks
       (set_policy Example.networks Example.actor) [[1]] [[0]]
     = PerDimension.J_pi_detached Example.cfg0 Example.networks
         (set_policy Example.networks Example.actor') [[1]] [[0]]).
Proof.
  intros cfg grad stale_grad Optimizer step nets memory opts d
    Hh Hs [Hzl Hzr].
  split; [|split].
  - intros batches b Hsam Hb.
    pose proof (@sampled_batch_states cfg memory batches b Hsam Hb) as Hlen.
    assert (Hz : length (z d) = length (states_th b)) by congruence.
    split; [now apply J_pi_refines|].
    split.
    { intros Ho. rewrite J_pi_refines by auto.
      now apply J_pi_one_dimension. }
    intros ps' var.
    destruct (actor_heads_with_parameters ps' Hh) as [Hh' Ho'].
    assert (Hzr' : Forall (fun zr => length zr = output_size (policy var))
                     (z d)) by exact Hzr.
    split; [apply J_pi_refines; auto|].
    intros Ho. rewrite J_pi_refines by auto.
    apply J_pi_one_dimension; auto.
  - intros Jv Jq Jpi nets' opts' Hge H.
    apply optimize_model_real in H
      as (batches & b & Hsam & Hb & _ & _ & _ & E); [|exact Hge].
    apply optimize_on_batch_inv in E as (oa & p' & _ & E).
    injection E as _ _ -> _ _.
    exists batches, b. auto.
  - destruct policy_loss_reads_critics as (HA & HB & HD).
    split; [rewrite HA, HB; lra | exact HD].
Qed.

(** With a two-dimensional action the policy loss of the program is not
    [mean[alpha * logprob(a') - Qmin']] with the log-density of [a']. *)
Lemma policy_loss_not_log_density :
  J_pi Example.cfg1 Example.batch2 Example.noise2 Example.networks2
  <> Spec.J_pi Example.cfg1 Example.networks2 (states_th Example.batch2)
       Example.noise2.
Proof.
  destruct two_dimensions as (_ & _ & _ & Hp & HP). rewrite Hp, HP.
  pose proof ln_sqrt_2PI_pos as Hc. lra.
Qed.

End UpdateClaims.

(** ** The training loop *)

Section TrainFacts.

Import Torch Nets Value SAC.
Local Open Scope R_scope.

Variable cfg : Config.t.
Variable grad : (list tensor -> R) -> list tensor -> list tensor.
Variable stale_grad :
  (list tensor -> R) -> list tensor -> list tensor -> list tensor
  -> result (list tensor).
Variable Optimizer : Type.
Variable step : Optimizer -> list tensor -> list tensor
                -> Optimizer * list tensor.
Variable Env : Type.
Variable env_step : Env -> tensor -> Env * (tensor * R * bool).

Local Abbreviation train_step :=
  (train_step cfg grad stale_grad step env_step).
Local Abbreviation episode_trace :=
  (episode_trace cfg grad stale_grad step env_step).
Local Abbreviation tau := (Config.target_smoothing_coeff cfg).

Lemma VNet_parameters_length (v : VNet) : length (parameters v) = 6%nat.
Proof. reflexivity. Qed.

Lemma VNet_with_parameters (v : VNet) (ps : list tensor) :
  length ps = 6%nat -> parameters (with_parameters v ps) = ps.
Proof.
  intros H.
  destruct ps as [|p0 [|p1 [|p2 [|p3 [|p4 [|p5 [|p6 ps]]]]]]];
    try discriminate.
  reflexivity.
Qed.

Lemma length_smooth_parameters t : forall ts ps,
  length (smooth_parameters t ts ps) = length ts.
Proof.
  induction ts as [|t0 ts IH]; intros [|p0 ps]; simpl; auto.
Qed.

(** The smoothing writes the target network and nothing else. *)
Lemma smooth_target_spec (n : Networks) :
  policy (smooth_target cfg n) = policy n /\
  q1_net (smooth_target cfg n) = q1_net n /\
  q2_net (smooth_target cfg n) = q2_net n /\
  v_net (smooth_target cfg n) = v_net n /\
  parameters (v_target_net (smooth_target cfg n))
  = smooth_parameters tau (parameters (v_target_net n))
      (parameters (v_net n)).
Proof.
  repeat split.
Qed.

(** One pass through the loop body: the transition is stored, then
    [optimize_model] runs on the networks of the previous pass, then the
    target is smoothed. *)
Lemma train_step_inv (s s' : TrainState Optimizer Env) d done :
  train_step s d = Ok (s', done) ->
  exists e n1,
    memory_add (memory s) e = Ok (memory s') /\
    optimize_model cfg grad stale_grad step (nets s) (memory s') (opts s) (opt_draws d)
      = Ok (loss s', n1, opts s') /\
    nets s' = smooth_target cfg n1 /\
    steps s' = (steps s + 1)%nat.
Proof.
  unfold SAC.train_step. intros H.
  destruct (env_step _ _) as [env1 [[next_state reward] dn]].
  match type of H with context [memory_add (memory s) ?e] =>
    destruct (memory_add (memory s) e) as [mem1|x] eqn:Em; [|discriminate];
    exists e
  end.
  cbn [bind] in H.
  destruct (optimize_model cfg grad stale_grad step (nets s) mem1 (opts s)
              (opt_draws d)) as [[[l n1] o1]|x] eqn:Eo; [|discriminate].
  cbn [bind] in H. injection H as <- _.
  exists n1. simpl. auto.
Qed.

End TrainFacts.

Section LoopClaims.

Import Torch Nets Value SAC.
Local Open Scope R_scope.

(** C2.  In a pass through the training loop whose [optimize_model] gets
    past the guard, with critics and value networks of one output: the
    reported critic loss is
    [mean[(Q1(s,a)-y)^2] + mean[(Q2(s,a)-y)^2]] on the sampled batch of
    [train_batch_size] transitions, with [y = r + gamma*(1-done)*V_target(s')]
    and [V_target] the target network as the previous pass left it; the
    smoothing of this pass comes after and uses the value network that this
    pass has updated.  The parameters of both critics are replaced by one
    step of the one optimizer [q_net_optimizer], on their concatenation and
    on the gradient of the sum of the two mean squared errors. *)
Theorem critic_loss_joint_step :
  forall (cfg : Config.t)
         (grad : (list tensor -> R) -> list tensor -> list tensor)
         (stale_grad : (list tensor -> R) -> list tensor -> list tensor
                        -> list tensor -> result (list tensor))
         (Optimizer : Type)
         (step : Optimizer -> list tensor -> list tensor
                 -> Optimizer * list tensor)
         (Env : Type) (env_step : Env -> tensor -> Env * (tensor * R * bool))
         (s s' : TrainState Optimizer Env) (d : StepDraws) (done : bool),
    Spec.scalar_heads (nets s) ->
    (Config.train_batch_size cfg <= Replay.len (memory s'))%nat ->
    train_step cfg grad stale_grad step env_step s d = Ok (s', done) ->
    exists batches b,
      Replay.sample (memory s') (Z.of_nat (Config.train_batch_size cfg))
        = Ok batches /\
      In b batches /\
      length (Replay.rows b) = Config.train_batch_size cfg /\
      snd (fst (loss s')) = Spec.J_Q cfg (nets s) (Replay.rows b) /\
      (let ps := parameters (q1_net (nets s)) ++ parameters (q2_net (nets s)) in
       let g :=
         grad (fun ps' =>
                 J_q1 cfg b (with_q_params (nets s) ps')
                 + J_q2 cfg b (with_q_params (nets s) ps'))
              ps in
       let ps1 := snd (step (q_net_optimizer (opts s)) ps g) in
       let k := length (parameters (q1_net (nets s))) in
       q_net_optimizer (opts s') = fst (step (q_net_optimizer (opts s)) ps g)
       /\ q1_net (nets s') = with_parameters (q1_net (nets s)) (firstn k ps1)
       /\ q2_net (nets s') = with_parameters (q2_net (nets s)) (skipn k ps1))
      /\
      parameters (v_target_net (nets s'))
      = smooth_parameters (Config.target_smoothing_coeff cfg)
          (parameters (v_target_net (nets s)))
          (parameters (v_net (nets s'))).
Proof.
  intros cfg grad stale_grad Optimizer step Env env_step s s' d done Hs Hge H.
  apply train_step_inv in H as (e & n1 & _ & Hopt & Hn & _).
  destruct (loss s') as [[Jv Jq] Jpi] eqn:El.
  pose proof (@optimize_model_v_target cfg grad stale_grad _ step _ _ _ _
                _ _ _ Hopt) as Ht.
  apply optimize_model_real in Hopt
    as (batches & b & Hsam & Hb & Hc & Hrows & _ & E); [|exact Hge].
  apply optimize_on_batch_inv in E as (oa & p' & _ & E).
  injection E as _ HJq _ Hn1 Ho.
  destruct (smooth_target_spec cfg n1) as (_ & Hq1 & Hq2 & Hv & Hvt).
  exists batches, b. split; [exact Hsam|]. split; [exact Hb|].
  split; [exact Hrows|]. split.
  { simpl. rewrite HJq. rewrite Hc at 1. now apply J_q_refines. }
  rewrite Hn, Hq1, Hq2, Hv, Hvt, Ht, Ho. split; [|reflexivity].
  rewrite Hn1. cbn [q1_net q2_net set_policy set_q_nets q_net_optimizer].
  unfold update_q, q_params.
  change (fun ps' => J_q cfg b (with_q_params (nets s) ps'))
    with (fun ps' => J_q1 cfg b (with_q_params (nets s) ps')
                     + J_q2 cfg b (with_q_params (nets s) ps')).
  destruct (step (q_net_optimizer (opts s)) _ _) as [o' ps']. simpl.
  repeat split.
Qed.

End LoopClaims.

(** ** The statements on the small instance *)

Section Witnesses.

Import Torch Nets Value SAC.
Local Open Scope R_scope.

Lemma example_actor_heads : Spec.actor_heads (policy Example.networks).
Proof. split; reflexivity. Qed.

Lemma example_scalar_heads : Spec.scalar_heads Example.networks.
Proof. repeat split. Qed.

Lemma example_half_noise :
  Spec.noise_shape (policy Example.networks)
    (Config.train_batch_size Example.cfg) [[1 / 2]].
Proof. split; [reflexivity | repeat constructor]. Qed.

(** C3 on the small instance, whose action has one dimension: one stored
    transition, batch size 1, the noise 1/2. *)
Lemma value_loss_stop_gradient_witness :
  exists batches b,
    Replay.sample Example.memory1
      (Z.of_nat (Config.train_batch_size Example.cfg)) = Ok batches /\
    In b batches /\
    J_v Example.cfg b [[1 / 2]] Example.networks Example.networks
    = Spec.J_V Example.cfg Example.networks Example.networks
        (states_th b) [[1 / 2]].
Proof.
  do 2 eexists. split; [reflexivity|]. split; [left; reflexivity|].
  destruct (@value_loss_stop_gradient Example.cfg Example.grad
              Example.stale_grad nat Example.step Example.networks
              Example.memory1 Example.optimizers (mkDraws 0 [[1 / 2]])
              example_actor_heads example_scalar_heads example_half_noise)
    as (H & _).
  destruct (H _ _ eq_refl (or_introl eq_refl)) as (_ & H1 & _).
  exact (H1 eq_refl).
Defined.

(** C4 on the small instance. *)
Lemma policy_loss_reparameterized_witness :
  exists batches b,
    Replay.sample Example.memory1
      (Z.of_nat (Config.train_batch_size Example.cfg)) = Ok batches /\
    In b batches /\
    J_pi Example.cfg b [[1 / 2]] Example.networks
    = Spec.J_pi Example.cfg Example.networks (states_th b) [[1 / 2]].
Proof.
  do 2 eexists. split; [reflexivity|]. split; [left; reflexivity|].
  destruct (@policy_loss_reparameterized Example.cfg Example.grad
              Example.stale_grad nat Example.step Example.networks
              Example.memory1 Example.optimizers (mkDraws 0 [[1 / 2]])
              example_actor_heads example_scalar_heads example_half_noise)
    as (H & _).
  destruct (H _ _ eq_refl (or_introl eq_refl)) as (_ & H1 & _).
  exact (H1 eq_refl).
Defined.

(** C2 on the small instance: the first pass of the loop stores one
    transition and optimizes on it. *)
Lemma critic_loss_joint_step_witness :
  exists s' done,
    train_step Example.cfg Example.grad Example.stale_grad Example.step Example.env_step
      Example.start Example.draws = Ok (s', done) /\
    exists batches b,
      Replay.sample (memory s')
        (Z.of_nat (Config.train_batch_size Example.cfg)) = Ok batches /\
      In b batches /\
      snd (fst (loss s'))
      = Spec.J_Q Example.cfg Example.networks (Replay.rows b).
Proof.
  do 2 eexists. split; [reflexivity|].
  match goal with
  | |- exists batches b, Replay.sample (memory ?S) _ = _ /\ _ =>
      assert (Hge : (Config.train_batch_size Example.cfg
                     <= Replay.len (memory S))%nat) by (lazy; lia);
      destruct (@critic_loss_joint_step Example.cfg Example.grad Example.stale_grad _
                  Example.step _ Example.env_step Example.start S
                  Example.draws _ example_scalar_heads Hge eq_refl)
        as (batches & b & H1 & H2 & _ & H3 & _)
  end.
  exists batches, b. auto.
Defined.

End Witnesses.

(** ** Target smoothing *)

Section SmoothingFacts.

Import Torch Nets Value SAC.
Local Open Scope R_scope.

Variable tau : R.

(** Iterating the smoothing rule on one number gives the closed form. *)
Lemma smooth_scalar_closed (vs : list R) : forall t0,
  fold_left (fun t v => v * tau + t * (1 - tau)) vs t0
  = Spec.ema_closed tau t0 vs.
Proof.
  unfold Spec.ema_closed.
  induction vs as [|v vs IH]; intros t0; simpl; [ring|].
  rewrite IH. ring.
Qed.

Lemma smooth_tensor_entry (t : tensor) : forall (p : tensor) i,
  length t = length p ->
  nth i (smooth_tensor tau t p) 0 = nth i p 0 * tau + nth i t 0 * (1 - tau).
Proof.
  intros p i H. unfold smooth_tensor.
  rewrite bcast_same_length by (now rewrite !length_map).
  revert p i H.
  induction t as [|t0 t IH]; intros [|p0 p] [|i] H; simpl in *;
    try discriminate; try ring.
  apply IH. lia.
Qed.

Lemma smooth_tensor_length (t p : tensor) :
  length t = length p -> length (smooth_tensor tau t p) = length t.
Proof.
  intros H. unfold smooth_tensor.
  rewrite bcast_same_length by (now rewrite !length_map).
  rewrite length_zip_with, !length_map. lia.
Qed.

Lemma smooth_parameters_entry (ts : list tensor) : forall ps j i,
  Spec.same_shape ts ps ->
  Spec.entry (smooth_parameters tau ts ps) j i
  = Spec.entry ps j i * tau + Spec.entry ts j i * (1 - tau).
Proof.
  unfold Spec.same_shape, Spec.entry.
  induction ts as [|t ts IH]; intros [|p ps] j i H; simpl in H;
    try discriminate.
  - destruct j, i; simpl; ring.
  - injection H as Hl Hs. destruct j as [|j]; simpl.
    + now apply smooth_tensor_entry.
    + now apply IH.
Qed.

Lemma smooth_parameters_shape (ts : list tensor) : forall ps,
  Spec.same_shape ts ps ->
  Spec.same_shape ts (smooth_parameters tau ts ps).
Proof.
  unfold Spec.same_shape.
  induction ts as [|t ts IH]; intros [|p ps] H; simpl in *;
    try discriminate; [reflexivity|].
  injection H as Hl Hs. rewrite smooth_tensor_length by assumption.
  f_equal. now apply IH.
Qed.

(** Iterating the smoothing rule on parameters of one shape gives the
    closed form in every entry. *)
Lemma smooth_parameters_closed (vs : list (list tensor)) : forall t0 j i,
  Forall (Spec.same_shape t0) vs ->
  Spec.entry (fold_left (smooth_parameters tau) vs t0) j i
  = Spec.ema_closed tau (Spec.entry t0 j i)
      (map (fun v => Spec.entry v j i) vs).
Proof.
  intros t0 j i H. rewrite <- smooth_scalar_closed. revert t0 H.
  induction vs as [|v vs IH]; intros t0 H; simpl; [reflexivity|].
  inversion H as [|v' vs' Hv Hvs]; subst.
  rewrite IH.
  - now rewrite smooth_parameters_entry.
  - pose proof (smooth_parameters_shape Hv) as Hsh.
    eapply Forall_impl; [|exact Hvs].
    intros a Ha. unfold Spec.same_shape in *. congruence.
Qed.

End SmoothingFacts.

Lemma last_cons_default {X} (l : list X) : forall a d,
  last (a :: l) d = last l a.
Proof.
  induction l as [|b l IH]; intros a d; [reflexivity|].
  change (last (a :: b :: l) d) with (last (b :: l) d).
  now rewrite !IH.
Qed.

Section TraceFacts.

Import Torch Nets Value SAC.
Local Open Scope R_scope.

Variable cfg : Config.t.
Variable grad : (list tensor -> R) -> list tensor -> list tensor.
Variable stale_grad :
  (list tensor -> R) -> list tensor -> list tensor -> list tensor
  -> result (list tensor).
Variable Optimizer : Type.
Variable step : Optimizer -> list tensor -> list tensor
                -> Optimizer * list tensor.
Variable Env : Type.
Variable env_step : Env -> tensor -> Env * (tensor * R * bool).

Local Abbreviation train_step :=
  (train_step cfg grad stale_grad step env_step).
Local Abbreviation episode_trace :=
  (episode_trace cfg grad stale_grad step env_step).
Local Abbreviation tau := (Config.target_smoothing_coeff cfg).
Local Abbreviation target_parameters :=
  (fun s : TrainState Optimizer Env => parameters (v_target_net (nets s))).
Local Abbreviation value_parameters :=
  (fun s : TrainState Optimizer Env => parameters (v_net (nets s))).

(** One pass through the loop body smooths the target once, after the
    optimization step and towards the value network that this step has
    left. *)
Lemma train_step_target (s s' : TrainState Optimizer Env) d done :
  train_step s d = Ok (s', done) ->
  exists n1,
    optimize_model cfg grad stale_grad step (nets s) (memory s') (opts s) (opt_draws d)
      = Ok (loss s', n1, opts s') /\
    v_target_net n1 = v_target_net (nets s) /\
    v_net (nets s') = v_net n1 /\
    target_parameters s'
    = smooth_parameters tau (target_parameters s) (parameters (v_net n1)) /\
    steps s' = (steps s + 1)%nat.
Proof.
  intros H. apply train_step_inv in H as (e & n1 & _ & Hopt & Hn & Hst).
  exists n1. split; [exact Hopt|].
  pose proof (@optimize_model_v_target cfg grad stale_grad _ step _ _ _ _
                _ _ _ Hopt) as Ht.
  destruct (smooth_target_spec cfg n1) as (_ & _ & _ & Hv & Hvt).
  rewrite Hn, Hv, Hvt, Ht. auto.
Qed.

(** Along the passes of an episode the target is the fold of the smoothing
    rule over the successive value networks, one application for each
    pass. *)
Lemma episode_trace_target ds : forall (s : TrainState Optimizer Env) tr,
  episode_trace s ds = Ok tr ->
  steps (last tr s) = (steps s + length tr)%nat /\
  target_parameters (last tr s)
  = fold_left (smooth_parameters tau) (map value_parameters tr)
      (target_parameters s).
Proof.
  induction ds as [|d ds IH]; intros s tr H; simpl in H.
  - injection H as <-. simpl. split; [lia | reflexivity].
  - destruct (train_step s d) as [[s1 done]|x] eqn:E1; [|discriminate].
    cbn [bind] in H.
    apply train_step_target in E1 as (n1 & _ & _ & Hv & Ht & Hst).
    rewrite <- Hv in Ht.
    destruct done.
    + injection H as <-. simpl. split; [lia|]. exact Ht.
    + destruct (episode_trace s1 ds) as [rest|x] eqn:E2; [|discriminate].
      cbn [bind] in H. injection H as <-.
      destruct (IH s1 rest E2) as [IHs IHt].
      rewrite last_cons_default. cbn [map fold_left length].
      rewrite <- Ht. split; [lia | exact IHt].
Qed.

End TraceFacts.

Section SmoothingClaim.

Import Torch Nets Value SAC.
Local Open Scope R_scope.

(** C1.  [__main__] loads the target network with the parameters of the
    value network.  Every pass through the training loop, that is every
    environment step of training, runs [optimize_model], which leaves the
    target network alone, and right after it replaces the target parameters
    by [smoothing_coeff * param + (1 - smoothing_coeff) * target_param],
    entry by entry, with the parameters of the value network that the
    optimization has left.  After the [N] passes of an episode the target
    parameters are the fold of this rule over the [N] successive value
    networks, and when these have the shape of the target every entry is
    the closed-form exponential moving average of its [N] snapshots and its
    initial value.  For the snapshots 1, 2, 3, the coefficient 1/2 and the
    initial target 0 the target is 1/2, then 5/4, then 17/8. *)
Theorem target_smoothing_ema :
  (forall (cfg : Config.t) (Optimizer Env : Type) (high : tensor)
          (a1 a2 am als : Linear) (osz : nat) (q1 q2 : QNet) (v vt : VNet)
          (oa oq ov : Optimizer) (env : Env),
      parameters
        (v_target_net
           (nets (main_init cfg high a1 a2 am als osz q1 q2 v vt oa oq ov
                    env)))
      = parameters v) /\
  (forall (cfg : Config.t)
          (grad : (list tensor -> R) -> list tensor -> list tensor)
          (stale_grad : (list tensor -> R) -> list tensor -> list tensor
                         -> list tensor -> result (list tensor))
          (Optimizer : Type)
          (step : Optimizer -> list tensor -> list tensor
                  -> Optimizer * list tensor)
          (Env : Type) (env_step : Env -> tensor -> Env * (tensor * R * bool))
          (s s' : TrainState Optimizer Env) (d : StepDraws) (done : bool),
      train_step cfg grad stale_grad step env_step s d = Ok (s', done) ->
      exists n1,
        optimize_model cfg grad stale_grad step (nets s) (memory s') (opts s)
          (opt_draws d) = Ok (loss s', n1, opts s') /\
        v_target_net n1 = v_target_net (nets s) /\
        v_net (nets s') = v_net n1 /\
        parameters (v_target_net (nets s'))
        = smooth_parameters (Config.target_smoothing_coeff cfg)
            (parameters (v_target_net (nets s))) (parameters (v_net n1)) /\
        steps s' = (steps s + 1)%nat) /\
  (forall (tau : R) (t_pars pars : list tensor) (j i : nat),
      Spec.same_shape t_pars pars ->
      Spec.entry (smooth_parameters tau t_pars pars) j i
      = tau * Spec.entry pars j i + (1 - tau) * Spec.entry t_pars j i) /\
  (forall (cfg : Config.t)
          (grad : (list tensor -> R) -> list tensor -> list tensor)
          (stale_grad : (list tensor -> R) -> list tensor -> list tensor
                         -> list tensor -> result (list tensor))
          (Optimizer : Type)
          (step : Optimizer -> list tensor -> list tensor
                  -> Optimizer * list tensor)
          (Env : Type) (env_step : Env -> tensor -> Env * (tensor * R * bool))
          (s : TrainState Optimizer Env) (ds : list StepDraws)
          (tr : list (TrainState Optimizer Env)),
      episode_trace cfg grad stale_grad step env_step s ds = Ok tr ->
      let tau := Config.target_smoothing_coeff cfg in
      let t0 := parameters (v_target_net (nets s)) in
      let snapshots := map (fun s' => parameters (v_net (nets s'))) tr in
      let tN := parameters (v_target_net (nets (last tr s))) in
      steps (last tr s) = (steps s + length tr)%nat /\
      tN = fold_left (smooth_parameters tau) snapshots t0 /\
      (Forall (Spec.same_shape t0) snapshots ->
       forall j i,
         Spec.entry tN j i
         = Spec.ema_closed tau (Spec.entry t0 j i)
             (map (fun v => Spec.entry v j i) snapshots))) /\
  (smooth_parameters (1 / 2) [[0]] [[1]] = [[1 / 2]] /\
   smooth_parameters (1 / 2) [[1 / 2]] [[2]] = [[5 / 4]] /\
   smooth_parameters (1 / 2) [[5 / 4]] [[3]] = [[17 / 8]] /\
   Spec.ema_closed (1 / 2) 0 [1] = 1 / 2 /\
   Spec.ema_closed (1 / 2) 0 [1; 2] = 5 / 4 /\
   Spec.ema_closed (1 / 2) 0 [1; 2; 3] = 17 / 8).
Proof.
  split; [reflexivity|].
  split.
  { intros cfg grad stale_grad Optimizer step Env env_step s s' d done H.
    now apply train_step_target in H. }
  split.
  { intros tau t_pars pars j i H.
    rewrite smooth_parameters_entry by assumption. ring. }
  split.
  { intros cfg grad stale_grad Optimizer step Env env_step s ds tr H tau t0 snapshots tN.
    apply episode_trace_target in H as [Hst Hfold].
    split; [exact Hst|]. split; [exact Hfold|].
    intros Hshape j i. unfold tN. rewrite Hfold.
    now apply smooth_parameters_closed. }
  assert (Hone : forall tau t v x : R,
             v * tau + t * (1 - tau) = x ->
             smooth_parameters tau [[t]] [[v]] = [[x]]).
  { intros tau t v x <-. reflexivity. }
  unfold Spec.ema_closed.
  repeat split; try (apply Hone); simpl; lra.
Qed.

(** C1 on the small instance: an episode of one pass. *)
Lemma target_smoothing_ema_witness :
  exists tr,
    episode_trace Example.cfg Example.grad Example.stale_grad Example.step Example.env_step
      Example.start [Example.draws] = Ok tr /\
    steps (last tr Example.start) = (steps Example.start + length tr)%nat /\
    parameters (v_target_net (nets (last tr Example.start)))
    = fold_left
        (smooth_parameters (Config.target_smoothing_coeff Example.cfg))
        (map (fun s' => parameters (v_net (nets s'))) tr)
        (parameters (v_target_net (nets Example.start))).
Proof.
  eexists. split; [reflexivity|].
  match goal with
  | |- steps (last ?T _) = _ /\ _ =>
      destruct (proj1 (proj2 (proj2 (proj2 target_smoothing_ema)))
                  Example.cfg Example.grad Example.stale_grad _ Example.step _ Example.env_step
                  Example.start [Example.draws] T eq_refl)
        as (H1 & H2 & _)
  end.
  split; [exact H1 | exact H2].
Defined.

End SmoothingClaim.

Section EvaluationClaim.

Import Torch Nets Value SAC.
Local Open Scope R_scope.

(** Training never changes the action scale of the policy. *)
Lemma train_step_action_scale (cfg : Config.t)
    (grad : (list tensor -> R) -> list tensor -> list tensor)
    (stale_grad : (list tensor -> R) -> list tensor -> list tensor
                   -> list tensor -> result (list tensor))
    (Optimizer : Type)
    (step : Optimizer -> list tensor -> list tensor
            -> Optimizer * list tensor)
    (Env : Type) (env_step : Env -> tensor -> Env * (tensor * R * bool))
    (s s' : TrainState Optimizer Env) (d : StepDraws) (done : bool) :
  train_step cfg grad stale_grad step env_step s d = Ok (s', done) ->
  action_scale (policy (nets s')) = action_scale (policy (nets s)).
Proof.
  intros H. apply train_step_inv in H as (e & n1 & _ & Hopt & Hn & _).
  apply optimize_model_action_scale in Hopt.
  destruct (smooth_target_spec cfg n1) as (Hp & _).
  now rewrite Hn, Hp.
Qed.

(** With the action scale of the policy equal to the action bound of the
    environment, the loop of [evaluate_episode] is the rollout with
    [act_deterministic]. *)
Lemma evaluate_loop_refines (cfg : Config.t) (Env : Type)
    (env_step : Env -> tensor -> Env * (tensor * R * bool))
    (env_render : Env -> Env) (high : tensor) (p : Actor) :
  action_scale p = high ->
  forall (fuel : nat) (env : Env) (state : tensor) (rew : R)
         (sum_std : tensor) (steps : nat),
    evaluate_loop cfg env_step env_render high fuel env p state rew
      sum_std steps
    = Spec.evaluation_rollout cfg env_step env_render fuel env p state rew.
Proof.
  intros Hsc.
  induction fuel as [|fuel IH]; intros env state rew sum_std steps;
    [reflexivity|].
  cbn [evaluate_loop Spec.evaluation_rollout].
  rewrite eval_action_eq. unfold Spec.act_deterministic. rewrite Hsc.
  destruct (env_step _ _) as [env1 [[next_state reward] done]].
  destruct done; [reflexivity|]. apply IH.
Qed.

(** C9.  In an evaluation episode the action handed to [env.step] is, at
    every step, [tanh(mean(state)) * env.action_space.high], where
    [mean(state)] is the first output of the policy at the state the
    environment returned last; [__main__] builds the policy with
    [action_scale = env.action_space.high] and training keeps it, so that
    this is [act_deterministic(state) = tanh(mean(state)) * action_scale]
    and [evaluate_episode] is the rollout that selects its actions with
    [act_deterministic].  No noise is drawn: the episode is a function of
    the environment, the states and the layers of the policy that compute
    the mean, and policies that agree on these layers run the same
    episode. *)
Theorem evaluation_action_deterministic :
  forall (cfg : Config.t) (Env : Type)
         (env_reset : Env -> Env * tensor)
         (env_step : Env -> tensor -> Env * (tensor * R * bool))
         (env_render : Env -> Env) (high : tensor) (p : Actor),
    action_scale p = high ->
    (forall (fuel : nat) (env : Env),
        evaluate_episode cfg env_reset env_step env_render high fuel env p
        = Spec.evaluation_episode cfg env_reset env_step env_render fuel
            env p) /\
    (forall (fuel : nat) (env : Env) (state : tensor) (rew : R)
            (sum_std : tensor) (steps : nat),
        evaluate_loop cfg env_step env_render high (S fuel) env p state rew
          sum_std steps
        = let '(env1, (next_state, reward, done)) :=
            env_step (env_render env) (Spec.act_deterministic cfg p state) in
          if (done : bool) then Some (env1, rew + reward)
          else evaluate_loop cfg env_step env_render high fuel env1 p
                 next_state (rew + reward)
                 (bcast Rplus sum_std (exp (snd (Actor_forward cfg p state))))
                 (steps + 1)) /\
    (forall state : tensor,
        Spec.act_deterministic cfg p state
        = bcast Rmult (tanh (fst (Actor_forward cfg p state))) high) /\
    (forall (Optimizer : Type) (a1 a2 am als : Linear) (osz : nat)
            (q1 q2 : QNet) (v vt : VNet) (oa oq ov : Optimizer) (env : Env),
        action_scale
          (policy (nets (main_init cfg high a1 a2 am als osz q1 q2 v vt
                           oa oq ov env)))
        = high) /\
    (forall (grad : (list tensor -> R) -> list tensor -> list tensor)
            (stale_grad : (list tensor -> R) -> list tensor -> list tensor
                          -> list tensor -> result (list tensor))
            (Optimizer : Type)
            (step : Optimizer -> list tensor -> list tensor
                    -> Optimizer * list tensor)
            (s s' : TrainState Optimizer Env) (d : StepDraws) (done : bool),
        train_step cfg grad stale_grad step env_step s d = Ok (s', done) ->
        action_scale (policy (nets s')) = action_scale (policy (nets s))) /\
    (forall (p' : Actor) (fuel : nat) (env : Env),
        a_fc1 p' = a_fc1 p -> a_fc2 p' = a_fc2 p -> fc_mean p' = fc_mean p ->
        evaluate_episode cfg env_reset env_step env_render high fuel env p'
        = evaluate_episode cfg env_reset env_step env_render high fuel env
            p).
Proof.
  intros cfg Env env_reset env_step env_render high p Hsc.
  split.
  { intros fuel env. unfold evaluate_episode, Spec.evaluation_episode.
    destruct (env_reset env) as [env0 state0].
    now apply evaluate_loop_refines. }
  split.
  { intros fuel env state rew sum_std steps. cbn [evaluate_loop].
    rewrite eval_action_eq. unfold Spec.act_deterministic. rewrite Hsc.
    reflexivity. }
  split; [intros state; unfold Spec.act_deterministic; now rewrite Hsc|].
  split; [reflexivity|].
  split; [intros; eapply train_step_action_scale; eassumption|].
  intros p' fuel env H1 H2 Hm.
  assert (Hl : forall env0 state0 rew k ss ss' k',
             evaluate_loop cfg env_step env_render high fuel env0 p' state0
               rew ss k
             = evaluate_loop cfg env_step env_render high fuel env0 p state0
                 rew ss' k').
  { induction fuel as [|fuel IH]; intros env0 state0 rew k ss ss' k';
      [reflexivity|].
    cbn [evaluate_loop]. rewrite !eval_action_eq.
    unfold Actor_forward. rewrite H1, H2, Hm. cbn [fst].
    destruct (env_step _ _) as [env1 [[next_state reward] done]].
    destruct done; [reflexivity|]. apply IH. }
  unfold evaluate_episode. destruct (env_reset env) as [env0 state0].
  apply Hl.
Qed.

(** C9 on the small instance, whose actor has the action scale of its
    environment and whose episodes last one step. *)
Lemma evaluation_action_deterministic_witness :
  action_scale Example.actor = Example.action_space_high /\
  evaluate_episode Example.cfg Example.env_reset Example.env_step
    (fun e => e) Example.action_space_high 3 0%nat Example.actor
  = Spec.evaluation_episode Example.cfg Example.env_reset Example.env_step
      (fun e => e) 3 0%nat Example.actor /\
  Spec.evaluation_episode Example.cfg Example.env_reset Example.env_step
    (fun e => e) 3 0%nat Example.actor
  = Some (1%nat, 0 + 1).
Proof.
  split; [reflexivity|]. split; [|reflexivity].
  exact (proj1 (@evaluation_action_deterministic Example.cfg nat
                  Example.env_reset Example.env_step (fun e => e)
                  Example.action_space_high Example.actor eq_refl)
           3%nat 0%nat).
Defined.

End EvaluationClaim.

(* ================================================================= *)
(** * Further properties of the code *)

Unset Implicit Arguments.

(** ** The actor *)

Section ActionProperties.

Import Torch Nets Value SAC.
Local Open Scope R_scope.

Lemma normal_sample_zero_noise (m : tensor) : forall (sd eps : tensor),
  length sd = length m -> length eps = length m ->
  Forall (fun e => e = 0) eps ->
  normal_sample m sd eps = m.
Proof.
  unfold normal_sample.
  induction m as [|m0 m IH]; intros [|s0 sd] [|e0 eps] Hs He Hz;
    simpl in *; try discriminate; [reflexivity|].
  inversion Hz as [|? ? H0 Hz']; subst.
  rewrite IH by (auto; lia). f_equal. ring.
Qed.

(** X3.  For a policy whose action scale is the action bound of the
    environment and whose two heads have one size, the action that
    [get_action] returns for a draw of zeros is the action that
    [evaluate_episode] uses: evaluation is exploration without noise. *)
Theorem get_action_zero_noise :
  forall (cfg : Config.t) (high : tensor) (p : Actor) (s eps : tensor),
    action_scale p = high ->
    out_features (fc_logstd p) = out_features (fc_mean p) ->
    length eps = out_features (fc_mean p) ->
    Forall (fun e => e = 0) eps ->
    get_action cfg p s eps = eval_action cfg high p s.
Proof.
  intros cfg high p s eps Hsc Hh He Hz.
  rewrite get_action_eq, eval_action_eq, Hsc.
  destruct (Actor_forward_lengths cfg p s) as [Lm Ll].
  rewrite normal_sample_zero_noise; auto.
  unfold exp. rewrite length_map. congruence. congruence.
Qed.

Lemma get_action_zero_noise_witness :
  action_scale Example.actor = Example.action_space_high /\
  get_action Example.cfg Example.actor [1] [0]
  = eval_action Example.cfg Example.action_space_high Example.actor [1].
Proof.
  split; [reflexivity|].
  apply (get_action_zero_noise Example.cfg Example.action_space_high
           Example.actor [1] [0]); try reflexivity.
  repeat constructor.
Defined.

End ActionProperties.

(** ** The replay memory *)

Section ReplayProperties.

Context {St Ac Rw Dn : Type}.
Variables (st0 : St) (ac0 : Ac) (rw0 : Rw) (dn0 : Dn).

Lemma nth_error_list_set_eq {X} (l : list X) : forall i x,
  i < length l -> nth_error (list_set l i x) i = Some x.
Proof.
  induction l as [|h t IH]; intros [|i] x H; simpl in *; try lia; auto.
  apply IH. lia.
Qed.

Lemma nth_error_list_set_neq {X} (l : list X) : forall i j x,
  i <> j -> nth_error (list_set l i x) j = nth_error l j.
Proof.
  induction l as [|h t IH]; intros [|i] [|j] x H; simpl; auto;
    try contradiction.
Qed.

(** X5.  In a memory that [add] has built, [add] stores the new transition
    in the slot under the write cursor and leaves every other stored
    transition in its slot. *)
Theorem add_writes_cursor_slot :
  forall (b : @Replay.ExpReplay St Ac Rw Dn) (e : St * Ac * Rw * St * Dn),
    Replay.ring_ok b ->
    exists b',
      Replay.add st0 ac0 rw0 dn0 b e = Ok b' /\
      nth_error (Replay.slots b') (Replay.pointer b) = Some e /\
      (forall j, j <> Replay.pointer b -> j < Replay.len b ->
                 nth_error (Replay.slots b') j
                 = nth_error (Replay.slots b) j).
Proof.
  intros b e Hok.
  destruct (add_slots st0 ac0 rw0 dn0 e Hok)
    as (b' & Hadd & _ & _ & _ & Hs).
  pose proof (slots_length Hok) as Hlen.
  destruct Hok as [_ _ _ _ _ _ Hp].
  exists b'. split; [exact Hadd|]. rewrite Hs.
  unfold Replay.exp_tuple in *.
  destruct (Nat.ltb_spec (Replay.len b) (Replay.max_len b)) as [Hlt|Hge].
  - rewrite Hp, <- Hlen. split.
    + rewrite nth_error_app2, Nat.sub_diag by lia. reflexivity.
    + intros j _ Hj. now rewrite nth_error_app1 by lia.
  - split.
    + apply nth_error_list_set_eq. lia.
    + intros j Hj _. apply nth_error_list_set_neq. auto.
Qed.

End ReplayProperties.

Lemma add_writes_cursor_slot_witness :
  Replay.ring_ok (@Replay.init nat nat nat bool 5) /\
  exists b',
    Replay.add 0 0 0 false (Replay.init 5) (1, 1, 1, 2, false) = Ok b' /\
    nth_error (Replay.slots b') 0 = Some (1, 1, 1, 2, false).
Proof.
  assert (H : Replay.ring_ok (@Replay.init nat nat nat bool 5))
    by (apply ring_ok_init; lia).
  split; [exact H|].
  destruct (add_writes_cursor_slot 0 0 0 false (Replay.init 5)
              (1, 1, 1, 2, false) H) as (b' & H1 & H2 & _).
  exists b'. split; [exact H1 | exact H2].
Defined.

(** X6.  [add] raises [IndexError] whenever the write cursor is not an
    index of the list of states, grown by one slot if it was below the
    capacity; in particular every insertion into a new memory of capacity 0
    fails. *)
Theorem add_cursor_out_of_range :
  forall (St Ac Rw Dn : Type) (st0 : St) (ac0 : Ac) (rw0 : Rw) (dn0 : Dn)
         (b : @Replay.ExpReplay St Ac Rw Dn) (e : St * Ac * Rw * St * Dn),
    Replay.len b + (if Replay.len b <? Replay.max_len b then 1 else 0)
      <= Replay.pointer b ->
    Replay.add st0 ac0 rw0 dn0 b e = Raise IndexError.
Proof.
  intros St Ac Rw Dn st0 ac0 rw0 dn0 b e H.
  unfold Replay.add, Replay.len in *.
  destruct e as [[[[s a] r] n] d].
  assert (Hs : forall l : list St,
             length l <= Replay.pointer b ->
             setitem l (Replay.pointer b) s = Raise IndexError).
  { intros l Hl. unfold setitem.
    destruct (Nat.ltb_spec (Replay.pointer b) (length l)); [lia|easy]. }
  destruct (length (Replay.states b) <? Replay.max_len b).
  - rewrite Hs; [reflexivity|]. unfold append. rewrite length_app. simpl. lia.
  - rewrite Hs; [reflexivity|]. lia.
Qed.

Lemma add_cursor_out_of_range_witness :
  Replay.len (@Replay.init nat nat nat bool 0)
  + (if Replay.len (@Replay.init nat nat nat bool 0)
        <? Replay.max_len (@Replay.init nat nat nat bool 0) then 1 else 0)
  <= Replay.pointer (@Replay.init nat nat nat bool 0) /\
  Replay.add 0 0 0 false (Replay.init 0) (1, 1, 1, 2, false)
  = Raise IndexError.
Proof.
  assert (H : Replay.len (@Replay.init nat nat nat bool 0)
              + (if Replay.len (@Replay.init nat nat nat bool 0)
                    <? Replay.max_len (@Replay.init nat nat nat bool 0)
                 then 1 else 0)
              <= Replay.pointer (@Replay.init nat nat nat bool 0))
    by (simpl; lia).
  split; [exact H|].
  exact (add_cursor_out_of_range nat nat nat bool 0 0 0 false
           (Replay.init 0) (1, 1, 1, 2, false) H).
Defined.

Lemma sample_nonpositive :
  forall (St Ac Rw Dn : Type) (b : @Replay.ExpReplay St Ac Rw Dn) (k : Z),
    (k <= 0)%Z -> Replay.sample b k = Raise ValueError.
Proof.
  intros St Ac Rw Dn b k Hk. unfold Replay.sample, random_sample.
  destruct (Z.ltb_spec k 0) as [Hneg|Hnn]; [reflexivity|].
  assert (k = 0%Z) as -> by lia. simpl.
  destruct (Z.ltb_spec (Z.of_nat (length (zip5 (Replay.states b)
              (Replay.actions b) (Replay.rewards b) (Replay.next_states b)
              (Replay.dones b)))) 0); [lia|].
  reflexivity.
Qed.

(** X7.  [sample] raises [ValueError] for every batch size that is zero or
    negative, whatever the memory holds. *)
Theorem sample_nonpositive_raises :
  forall (St Ac Rw Dn : Type) (b : @Replay.ExpReplay St Ac Rw Dn) (k : Z),
    (k <= 0)%Z -> Replay.sample b k = Raise ValueError.
Proof.
  intros St Ac Rw Dn b k Hk.
  now apply sample_nonpositive.
Qed.

Lemma sample_nonpositive_raises_witness :
  (-3 <= 0)%Z /\ Replay.sample Replay.two_stored (-3) = Raise ValueError.
Proof.
  split; [lia|].
  apply (sample_nonpositive_raises nat nat nat bool Replay.two_stored (-3)).
  lia.
Defined.

Section SampleProperties.

Lemma length_remove_at {X} (l : list X) : forall i,
  i < length l -> length (remove_at i l) = length l - 1.
Proof.
  induction l as [|h t IH]; intros [|i] H; simpl in *; try lia.
  rewrite IH by lia. lia.
Qed.

Lemma list_sum_const {A} (g : A -> nat) (c : nat) (xs : list A) :
  (forall x, In x xs -> g x = c) ->
  list_sum (map g xs) = length xs * c.
Proof.
  induction xs as [|x xs IH]; intros H; simpl; [reflexivity|].
  rewrite H by (now left). rewrite IH; [reflexivity|].
  intros y Hy. apply H. now right.
Qed.

(** The number of outcomes of a draw of [k] entries from a pool. *)
Lemma selections_count {X} (k : nat) : forall (l : list X),
  length (selections k l) = falling (length l) k.
Proof.
  induction k as [|k IH]; intros l; simpl; [reflexivity|].
  rewrite length_flat_map.
  rewrite (list_sum_const _ (falling (length l - 1) k)).
  - now rewrite length_seq.
  - intros i Hi. apply in_seq in Hi.
    destruct (nth_error l i) as [x|] eqn:E.
    + rewrite length_map, IH, length_remove_at by lia. reflexivity.
    + apply nth_error_None in E. lia.
Qed.

Lemma falling_pos (k : nat) : forall n, k <= n -> 0 < falling n k.
Proof.
  induction k as [|k IH]; intros n H; simpl; [lia|].
  specialize (IH (n - 1)). nia.
Qed.

(** A draw of as many entries as the pool holds is a rearrangement of the
    pool. *)
Lemma selections_full_permutation {X} (l p : list X) :
  In p (selections (length l) l) -> Permutation p l.
Proof.
  intros H.
  assert (Hl : l = map snd (indexed l))
    by (unfold indexed; now rewrite map_snd_combine_seq).
  rewrite Hl in H at 2. rewrite selections_map in H.
  apply in_map_iff in H as (q & <- & Hq).
  apply selections_spec in Hq as (Hlen & Hnd & Hin);
    [|apply indexed_NoDup].
  rewrite Hl at 1. apply Permutation_map.
  apply NoDup_Permutation_bis; auto.
  unfold indexed. rewrite length_combine, length_seq. lia.
Qed.

Lemma for_each_length {A B} (f : A -> result B) (l : list A) :
  forall bs, for_each f l = Ok bs -> length bs = length l.
Proof.
  induction l as [|a l IH]; simpl; intros bs H.
  - now injection H as <-.
  - destruct (f a); [|discriminate]. simpl in H.
    destruct (for_each f l) as [bs0|]; [|discriminate]. simpl in H.
    injection H as <-. simpl. f_equal. now apply IH.
Qed.

(** X8.  On a memory whose five lists have one length, a batch of the size
    of the memory holds every stored transition exactly once, in some
    order. *)
Theorem sample_everything_is_permutation :
  forall (St Ac Rw Dn : Type) (b : @Replay.ExpReplay St Ac Rw Dn)
         (batches : list (@Replay.batch St Ac Rw Dn))
         (batch : @Replay.batch St Ac Rw Dn),
    length (Replay.slots b) = Replay.len b ->
    Replay.sample b (Z.of_nat (Replay.len b)) = Ok batches ->
    In batch batches ->
    Permutation (Replay.rows batch) (Replay.slots b).
Proof.
  intros St Ac Rw Dn b batches batch Hwf H Hb.
  unfold Replay.sample, random_sample in H. fold (Replay.slots b) in H.
  destruct (_ || _)%bool; [discriminate|]. cbn [bind] in H.
  eapply for_each_In in H as (p & Hp & Eu); [|exact Hb].
  rewrite (rows_unzip5 p Eu).
  apply selections_full_permutation.
  rewrite Nat2Z.id in Hp. unfold Replay.exp_tuple in *.
  now rewrite Hwf.
Qed.

Lemma sample_everything_is_permutation_witness :
  exists batches batch,
    Replay.sample Replay.two_stored
      (Z.of_nat (Replay.len Replay.two_stored)) = Ok batches /\
    In batch batches /\
    Permutation (Replay.rows batch) (Replay.slots Replay.two_stored).
Proof.
  eexists. eexists. split; [reflexivity|]. split; [left; reflexivity|].
  eapply (sample_everything_is_permutation nat nat nat bool
            Replay.two_stored _ _ eq_refl eq_refl).
  left. reflexivity.
Defined.

Lemma sample_ok_count :
  forall (St Ac Rw Dn : Type) (b : @Replay.ExpReplay St Ac Rw Dn) (k : Z),
    length (Replay.slots b) = Replay.len b ->
    (1 <= k <= Z.of_nat (Replay.len b))%Z ->
    exists batches,
      Replay.sample b k = Ok batches /\
      length batches = falling (Replay.len b) (Z.to_nat k) /\
      0 < length batches.
Proof.
  intros St Ac Rw Dn b k Hwf Hk.
  unfold Replay.sample, random_sample. fold (Replay.slots b).
  unfold Replay.exp_tuple in *. rewrite Hwf.
  replace (k <? 0)%Z with false by (symmetry; apply Z.ltb_ge; lia).
  replace (Z.of_nat (Replay.len b) <? k)%Z with false
    by (symmetry; apply Z.ltb_ge; lia).
  cbn [orb bind].
  destruct (@for_each_unzip5 St Ac Rw Dn
              (selections (Z.to_nat k) (Replay.slots b)))
    as (batches & Hfe & _).
  { apply Forall_forall. intros p Hp. apply selections_length in Hp.
    destruct p; [simpl in Hp; lia | discriminate]. }
  exists batches. split; [exact Hfe|].
  pose proof (for_each_length _ _ _ Hfe) as Hl.
  rewrite selections_count in Hl. unfold Replay.exp_tuple in *.
  rewrite Hwf in Hl.
  assert (Hpos : 0 < falling (Replay.len b) (Z.to_nat k))
    by (apply falling_pos; lia).
  split; [exact Hl|]. unfold Replay.batch in *. rewrite Hl. exact Hpos.
Qed.

(** X9.  On a memory whose five lists have one length [n], [sample] with
    [1 <= batch_size <= n] does not raise, and the number of its equally
    likely batches is [n * (n-1) * ... * (n - batch_size + 1)], which is
    not zero. *)
Theorem sample_outcome_count :
  forall (St Ac Rw Dn : Type) (b : @Replay.ExpReplay St Ac Rw Dn) (k : Z),
    length (Replay.slots b) = Replay.len b ->
    (1 <= k <= Z.of_nat (Replay.len b))%Z ->
    exists batches,
      Replay.sample b k = Ok batches /\
      length batches = falling (Replay.len b) (Z.to_nat k) /\
      0 < length batches.
Proof.
  intros St Ac Rw Dn b k Hwf Hk.
  destruct (sample_ok_count St Ac Rw Dn b k Hwf Hk)
    as (batches & Hs & Hl & Hpos).
  exists batches. split; [exact Hs|]. split; [exact Hl | exact Hpos].
Qed.

Lemma sample_outcome_count_witness :
  length (Replay.slots Replay.two_stored) = Replay.len Replay.two_stored /\
  (1 <= 1 <= Z.of_nat (Replay.len Replay.two_stored))%Z /\
  exists batches,
    Replay.sample Replay.two_stored 1 = Ok batches /\
    length batches = falling (Replay.len Replay.two_stored) (Z.to_nat 1).
Proof.
  assert (Hk : (1 <= 1 <= Z.of_nat (Replay.len Replay.two_stored))%Z)
    by (simpl; lia).
  split; [reflexivity|]. split; [exact Hk|].
  destruct (sample_outcome_count nat nat nat bool Replay.two_stored 1
              eq_refl Hk) as (batches & H1 & H2 & _).
  exists batches. split; [exact H1 | exact H2].
Defined.

End SampleProperties.

(** ** The optimization step *)

Section OptimizeProperties.

Import Torch Nets Value SAC.
Local Open Scope R_scope.

Variable cfg : Config.t.
Variable grad : (list tensor -> R) -> list tensor -> list tensor.
Variable stale_grad :
  (list tensor -> R) -> list tensor -> list tensor -> list tensor
  -> result (list tensor).
Variable Optimizer : Type.
Variable step : Optimizer -> list tensor -> list tensor
                -> Optimizer * list tensor.

Lemma draw_ok {X} (pick : nat) (outcomes : list X) :
  (0 < length outcomes)%nat ->
  exists x, draw pick outcomes = Ok x /\ In x outcomes.
Proof.
  intros H. destruct outcomes as [|o os]; [simpl in H; lia|].
  eexists. split; [reflexivity|].
  apply nth_In, Nat.mod_upper_bound. discriminate.
Qed.

(** With enough transitions in a memory whose lists have one length,
    [optimize_model] gets to the three updates on a sampled batch. *)
Lemma optimize_model_ok (nets : Networks) (mem : Memory)
    (opts : Optimizers Optimizer) (d : Draws) :
  length (Replay.slots mem) = Replay.len mem ->
  (1 <= Config.train_batch_size cfg <= Replay.len mem)%nat ->
  exists batches b,
    Replay.sample mem (Z.of_nat (Config.train_batch_size cfg))
      = Ok batches /\
    In b batches /\
    optimize_model cfg grad stale_grad step nets mem opts d
    = optimize_on_batch cfg grad stale_grad step b (z d) nets opts.
Proof.
  intros Hwf HB.
  destruct (sample_ok_count _ _ _ _ mem
              (Z.of_nat (Config.train_batch_size cfg)) Hwf)
    as (batches & Hs & _ & Hpos); [lia|].
  destruct (draw_ok (pick d) batches Hpos) as (b & Hd & Hb).
  exists batches, b. split; [exact Hs|]. split; [exact Hb|].
  unfold optimize_model.
  destruct (Nat.ltb_spec (Replay.len mem) (Config.train_batch_size cfg));
    [lia|].
  rewrite Hs. cbn [bind]. rewrite Hd. reflexivity.
Qed.

(** Where [backward] refuses a graph with overwritten tensors, the three
    updates end in [RuntimeError]. *)
Lemma optimize_on_batch_checked (b : Batch) (z : tensor2) (nets : Networks)
    (opts : Optimizers Optimizer) :
  (forall f ps qs qs', stale_grad f ps qs qs' = Raise RuntimeError) ->
  optimize_on_batch cfg grad stale_grad step b z nets opts
  = Raise RuntimeError.
Proof.
  intros Hchk. rewrite optimize_on_batch_eq. cbv zeta.
  unfold update_pi. now rewrite Hchk.
Qed.

Lemma optimize_model_checked (nets : Networks) (mem : Memory)
    (opts : Optimizers Optimizer) (d : Draws) :
  (forall f ps qs qs', stale_grad f ps qs qs' = Raise RuntimeError) ->
  length (Replay.slots mem) = Replay.len mem ->
  (1 <= Config.train_batch_size cfg <= Replay.len mem)%nat ->
  optimize_model cfg grad stale_grad step nets mem opts d
  = Raise RuntimeError.
Proof.
  intros Hchk Hwf HB.
  destruct (optimize_model_ok nets mem opts d Hwf HB)
    as (batches & b & _ & _ & H).
  rewrite H. now apply optimize_on_batch_checked.
Qed.

End OptimizeProperties.

Section OptimizeErrors.

Import Torch Nets Value SAC.
Local Open Scope R_scope.

(** X10.  [J_pi.backward()] at line 159 runs after [q_net_optimizer.step()]
    at line 155 has overwritten in place the critic weights that the graph
    of [J_pi] holds.  Where [backward] raises [RuntimeError] on such a
    graph, every call of [optimize_model] that gets past the guard, on a
    memory whose five lists have one length and with a batch size of at
    least 1, raises [RuntimeError]: the sampling, the value step and the
    critic step go through, and the call returns neither losses nor
    networks. *)
Theorem optimize_model_stale_backward_raises :
  forall (cfg : Config.t)
         (grad : (list tensor -> R) -> list tensor -> list tensor)
         (stale_grad : (list tensor -> R) -> list tensor -> list tensor
                       -> list tensor -> result (list tensor))
         (Optimizer : Type)
         (step : Optimizer -> list tensor -> list tensor
                 -> Optimizer * list tensor)
         (nets : Networks) (mem : Memory) (opts : Optimizers Optimizer)
         (d : Draws),
    (forall f ps qs qs', stale_grad f ps qs qs' = Raise RuntimeError) ->
    length (Replay.slots mem) = Replay.len mem ->
    (1 <= Config.train_batch_size cfg <= Replay.len mem)%nat ->
    optimize_model cfg grad stale_grad step nets mem opts d
    = Raise RuntimeError.
Proof.
  intros cfg grad stale_grad Optimizer step nets mem opts d Hchk Hwf HB.
  destruct (optimize_model_ok cfg grad stale_grad Optimizer step nets mem
              opts d Hwf HB) as (batches & b & _ & _ & H).
  rewrite H.
  now apply optimize_on_batch_checked.
Qed.

Lemma optimize_model_stale_backward_raises_witness :
  optimize_model Example.cfg Example.grad Example.checked_grad Example.step
    Example.networks Example.memory1 Example.optimizers (mkDraws 0 [[0]])
  = Raise RuntimeError.
Proof.
  assert (HB : (1 <= Config.train_batch_size Example.cfg
                <= Replay.len Example.memory1)%nat) by (cbv; lia).
  exact (optimize_model_stale_backward_raises Example.cfg Example.grad
           Example.checked_grad nat Example.step Example.networks
           Example.memory1 Example.optimizers (mkDraws 0 [[0]])
           (fun f ps qs qs' => eq_refl) eq_refl HB).
Defined.

(** X11.  With [train_batch_size = 0] every call of [optimize_model] raises
    [ValueError], whatever the memory holds: the guard lets it through and
    the batch of no transition cannot be unpacked. *)
Theorem optimize_model_batch_zero_raises :
  forall (cfg : Config.t)
         (grad : (list tensor -> R) -> list tensor -> list tensor)
         (stale_grad : (list tensor -> R) -> list tensor -> list tensor
                        -> list tensor -> result (list tensor))
         (Optimizer : Type)
         (step : Optimizer -> list tensor -> list tensor
                 -> Optimizer * list tensor)
         (nets : Networks) (mem : Memory) (opts : Optimizers Optimizer)
         (d : Draws),
    Config.train_batch_size cfg = 0%nat ->
    optimize_model cfg grad stale_grad step nets mem opts d = Raise ValueError.
Proof.
  intros cfg grad stale_grad Optimizer step nets mem opts d HB.
  unfold optimize_model. rewrite HB.
  destruct (Nat.ltb_spec (Replay.len mem) 0); [lia|].
  rewrite sample_nonpositive by (simpl; lia). reflexivity.
Qed.

Lemma optimize_model_batch_zero_raises_witness :
  optimize_model
    (Config.mk 1 5 0 (99 / 100) (1 / 2) (-20) 2 1 0)
    Example.grad Example.stale_grad Example.step Example.networks Example.memory1
    Example.optimizers (mkDraws 0 [[0]])
  = Raise ValueError.
Proof.
  apply (optimize_model_batch_zero_raises
           (Config.mk 1 5 0 (99 / 100) (1 / 2) (-20) 2 1 0)
           Example.grad Example.stale_grad _ Example.step Example.networks Example.memory1
           Example.optimizers (mkDraws 0 [[0]])).
  reflexivity.
Defined.

End OptimizeErrors.

(** ** The losses *)

Section LossProperties.

Import Torch Nets Value SAC.
Local Open Scope R_scope.

Lemma sum_squares_nonneg (x : tensor) :
  0 <= sum (map (fun v => v ^ 2) x).
Proof.
  induction x as [|a x IH]; [simpl; lra|].
  change (0 <= a ^ 2 + sum (map (fun v => v ^ 2) x)).
  pose proof (pow2_ge_0 a) as Ha. lra.
Qed.

Lemma mean_squares_nonneg (x : tensor2) :
  0 <= mean (map2d (fun v => v ^ 2) x).
Proof.
  unfold mean, map2d. rewrite <- concat_map, length_map.
  destruct (concat x) as [|a l] eqn:E.
  - simpl. unfold Rdiv. rewrite Rmult_0_l. lra.
  - unfold Rdiv. apply Rmult_le_pos; [apply sum_squares_nonneg|].
    left. apply Rinv_0_lt_compat, lt_0_INR. simpl. lia.
Qed.

(** X12.  The value loss and the critic loss that [optimize_model] returns
    are never negative: each is a mean of squares, or the dummy 0 of a
    call that the guard ends. *)
Theorem reported_losses_nonnegative :
  forall (cfg : Config.t)
         (grad : (list tensor -> R) -> list tensor -> list tensor)
         (stale_grad : (list tensor -> R) -> list tensor -> list tensor
                        -> list tensor -> result (list tensor))
         (Optimizer : Type)
         (step : Optimizer -> list tensor -> list tensor
                 -> Optimizer * list tensor)
         (nets : Networks) (mem : Memory) (opts : Optimizers Optimizer)
         (d : Draws) (Jv Jq Jpi : R) (nets' : Networks)
         (opts' : Optimizers Optimizer),
    optimize_model cfg grad stale_grad step nets mem opts d
      = Ok ((Jv, Jq, Jpi), nets', opts') ->
    0 <= Jv /\ 0 <= Jq.
Proof.
  intros cfg grad stale_grad Optimizer step nets mem opts d Jv Jq Jpi nets' opts' H.
  apply optimize_model_inv in H as [[_ E]|[_ (bs & b & _ & _ & E)]].
  - injection E as -> -> _ _ _. lra.
  - apply optimize_on_batch_inv in E as (oa & p' & _ & E).
    injection E as HJv HJq _ _ _.
    subst Jv Jq. split.
    + apply mean_squares_nonneg.
    + unfold J_q, J_q1, J_q2.
      pose proof (mean_squares_nonneg
                    (bcast2 Rminus (Q1_vals b nets) (q_target cfg b nets))).
      pose proof (mean_squares_nonneg
                    (bcast2 Rminus (Q2_vals b nets) (q_target cfg b nets))).
      lra.
Qed.

Lemma reported_losses_nonnegative_witness :
  exists Jv Jq Jpi nets' opts',
    optimize_model Example.cfg Example.grad Example.stale_grad Example.step Example.networks
      Example.memory1 Example.optimizers (mkDraws 0 [[0]])
    = Ok ((Jv, Jq, Jpi), nets', opts') /\
    0 <= Jv /\ 0 <= Jq.
Proof.
  do 5 eexists. split; [reflexivity|].
  exact (reported_losses_nonnegative Example.cfg Example.grad Example.stale_grad _
           Example.step Example.networks Example.memory1
           Example.optimizers (mkDraws 0 [[0]]) _ _ _ _ _ eq_refl).
Defined.

(** X13.  With a target network of one output, the critic target of the
    [i]-th transition of a batch is its reward alone when the transition
    is terminal, whatever the target network says of the next state, and
    [reward + gamma * V_target(next_state)] otherwise. *)
Theorem critic_target_terminal :
  forall (cfg : Config.t) (n : Networks)
         (rs : list (tensor * tensor * R * tensor * bool)) (i : nat)
         (s a : tensor) (r : R) (s' : tensor) (done : bool),
    out_features (v_fc3 (v_target_net n)) = 1%nat ->
    nth_error rs i = Some (s, a, r, s', done) ->
    nth_error (q_target cfg (columns5 rs) n) i
    = Some [if done then r
            else r + Config.gamma cfg
                     * Spec.scalar (VNet_forward (v_target_net n) s')].
Proof.
  intros cfg n rs i s a r s' done Hh Hi.
  rewrite (q_target_rows cfg rs n Hh).
  rewrite (map_nth_error _ _ _ Hi).
  unfold Spec.y, Spec.gamma, Spec.V_target, float_of_bool.
  destruct done; do 2 f_equal; ring.
Qed.

Lemma critic_target_terminal_witness :
  nth_error
    (q_target Example.cfg
       (columns5 [([1], [0], 1, [1], false); ([1], [0], 3, [1], true)])
       Example.networks) 1
  = Some [3].
Proof.
  exact (critic_target_terminal Example.cfg Example.networks
           [([1], [0], 1, [1], false); ([1], [0], 3, [1], true)] 1
           [1] [0] 3 [1] true eq_refl eq_refl).
Defined.

End LossProperties.

(** ** The training loop *)

Section LoopProperties.

Import Torch Nets Value SAC.
Local Open Scope R_scope.

Variable cfg : Config.t.
Variable grad : (list tensor -> R) -> list tensor -> list tensor.
Variable stale_grad :
  (list tensor -> R) -> list tensor -> list tensor -> list tensor
  -> result (list tensor).
Variable Optimizer : Type.
Variable step : Optimizer -> list tensor -> list tensor
                -> Optimizer * list tensor.
Variable Env : Type.
Variable env_step : Env -> tensor -> Env * (tensor * R * bool).

Local Abbreviation train_step :=
  (train_step cfg grad stale_grad step env_step).
Local Abbreviation episode_trace :=
  (episode_trace cfg grad stale_grad step env_step).
Local Abbreviation B := (Config.train_batch_size cfg).

(** One insertion into the memory of the program. *)
Lemma memory_add_ok (m : Memory) (e : Replay.exp_tuple) :
  Replay.ring_ok m ->
  exists m',
    memory_add m e = Ok m' /\ Replay.ring_ok m' /\
    Replay.max_len m' = Replay.max_len m /\
    Replay.len m' = Nat.min (Replay.len m + 1) (Replay.max_len m) /\
    Replay.oldest_first m' =
      (if (Replay.len m <? Replay.max_len m)%nat
       then Replay.oldest_first m
       else tl (Replay.oldest_first m)) ++ [e].
Proof.
  intros Hok.
  destruct (@add_oldest_first tensor tensor R bool [] [] 0 false m e Hok)
    as (m' & Hadd & Hok' & HC & Hof).
  exists m'. split; [exact Hadd|]. split; [exact Hok'|].
  split; [exact HC|]. split; [|exact Hof].
  pose proof (oldest_first_length Hok') as Hl'.
  pose proof (oldest_first_length Hok) as Hl.
  pose proof (f_equal (@length _) Hof) as Hlen.
  rewrite Hl', length_app in Hlen. rewrite Hlen.
  pose proof (Replay.ok_len Hok) as Hle.
  pose proof (Replay.ok_capacity Hok) as Hc.
  destruct (Nat.ltb_spec (Replay.len m) (Replay.max_len m)).
  - rewrite Hl. simpl. lia.
  - destruct (Replay.oldest_first m) as [|x l]; cbn [length tl] in *; lia.
Qed.

(** One pass through the loop body on a well-formed memory: what is done
    before [optimize_model] is called cannot fail, and a pass that returns
    has done it. *)
Lemma train_step_inv_ok (s : TrainState Optimizer Env) (d : StepDraws)
    (env' : Env) (next_state : tensor) (reward : R) (done : bool) :
  Replay.ring_ok (memory s) ->
  env_step (env s) (get_action cfg (policy (nets s)) (state s) (eps d))
    = (env', (next_state, reward, done)) ->
  exists m',
    memory_add (memory s)
      (state s, get_action cfg (policy (nets s)) (state s) (eps d),
       Config.reward_scaling cfg * reward, next_state, done) = Ok m' /\
    train_step s d
    = (r <- optimize_model cfg grad stale_grad step (nets s) m' (opts s)
              (opt_draws d) ;;
       let '(loss, nets, opts) := r in
       Ok (mkTrainState (smooth_target cfg nets) opts m' env' next_state
             (steps s + 1) (rew_ep s + reward) loss, done)).
Proof.
  intros Hok Henv.
  destruct (memory_add_ok (memory s)
              (state s, get_action cfg (policy (nets s)) (state s) (eps d),
               Config.reward_scaling cfg * reward, next_state, done) Hok)
    as (m' & Hadd & _).
  exists m'. split; [exact Hadd|].
  unfold SAC.train_step. rewrite Henv, Hadd. reflexivity.
Qed.

End LoopProperties.

Section LoopTheorems.

Import Torch Nets Value SAC.
Local Open Scope R_scope.

(** X14.  In one pass through the loop body on a well-formed memory the
    insertion does not fail: the memory gains the transition (state,
    sampled action, [reward_scaling * reward], next state, done) as its
    newest entry, dropping its oldest one when it was full.  A pass that
    returns hands on this memory, reports the [done] of the environment,
    adds to the episode return the reward as the environment gave it, and
    raises the step counter by one. *)
Theorem train_step_stores_transition :
  forall (cfg : Config.t)
         (grad : (list tensor -> R) -> list tensor -> list tensor)
         (stale_grad : (list tensor -> R) -> list tensor -> list tensor
                       -> list tensor -> result (list tensor))
         (Optimizer : Type)
         (step : Optimizer -> list tensor -> list tensor
                 -> Optimizer * list tensor)
         (Env : Type)
         (env_step : Env -> tensor -> Env * (tensor * R * bool))
         (s : TrainState Optimizer Env) (d : StepDraws)
         (env' : Env) (next_state : tensor) (reward : R) (done : bool),
    Replay.ring_ok (memory s) ->
    env_step (env s) (get_action cfg (policy (nets s)) (state s) (eps d))
      = (env', (next_state, reward, done)) ->
    exists m',
      memory_add (memory s)
        (state s, get_action cfg (policy (nets s)) (state s) (eps d),
         Config.reward_scaling cfg * reward, next_state, done) = Ok m' /\
      Replay.oldest_first m' =
        (if (Replay.len (memory s) <? Replay.max_len (memory s))%nat
         then Replay.oldest_first (memory s)
         else tl (Replay.oldest_first (memory s)))
        ++ [(state s,
             get_action cfg (policy (nets s)) (state s) (eps d),
             Config.reward_scaling cfg * reward, next_state, done)] /\
      Replay.len m'
      = Nat.min (Replay.len (memory s) + 1) (Replay.max_len (memory s)) /\
      (forall (s' : TrainState Optimizer Env) (done' : bool),
          train_step cfg grad stale_grad step env_step s d = Ok (s', done')
          ->
          memory s' = m' /\ done' = done /\
          rew_ep s' = rew_ep s + reward /\
          state s' = next_state /\ env s' = env' /\
          steps s' = (steps s + 1)%nat).
Proof.
  intros cfg grad stale_grad Optimizer step Env env_step s d env'
    next_state reward done Hok Henv.
  destruct (train_step_inv_ok cfg grad stale_grad Optimizer step Env
              env_step s d env' next_state reward done Hok Henv)
    as (m' & Hadd & Hs).
  destruct (memory_add_ok (memory s)
              (state s, get_action cfg (policy (nets s)) (state s) (eps d),
               Config.reward_scaling cfg * reward, next_state, done) Hok)
    as (m2 & Hadd' & _ & _ & Hl & Hof).
  rewrite Hadd in Hadd'. injection Hadd' as <-.
  exists m'. split; [exact Hadd|]. split; [exact Hof|]. split; [exact Hl|].
  intros s' done' H. rewrite Hs in H.
  destruct (optimize_model _ _ _ _ _ _ _ _) as [[[l n1] o1]|x];
    [|discriminate].
  cbn [bind] in H. injection H as <- <-. cbn. repeat split.
Qed.

Lemma train_step_stores_transition_witness :
  exists m',
    memory_add (memory Example.start)
      ([0], get_action Example.cfg Example.actor [0] [0], 1 * 1, [1], true)
      = Ok m' /\
    Replay.len m' = 1%nat /\
    exists s',
      train_step Example.cfg Example.grad Example.stale_grad Example.step
        Example.env_step Example.start Example.draws = Ok (s', true) /\
      memory s' = m' /\ rew_ep s' = 0 + 1.
Proof.
  assert (Hok : Replay.ring_ok (memory Example.start)).
  { apply ring_ok_init. cbv. lia. }
  destruct (train_step_stores_transition Example.cfg Example.grad
              Example.stale_grad nat Example.step nat Example.env_step
              Example.start Example.draws 1%nat [1] 1 true Hok eq_refl)
    as (m' & Hadd & _ & Hl & H).
  exists m'. split; [exact Hadd|]. split; [exact Hl|].
  eexists. split; [reflexivity|].
  match goal with
  | |- memory ?S = _ /\ _ =>
      destruct (H S true eq_refl) as (Hm & _ & Hr & _)
  end.
  split; [exact Hm | exact Hr].
Defined.

End LoopTheorems.

Section EpisodeTheorems.

Import Torch Nets Value SAC.
Local Open Scope R_scope.

(** X15.  Where [backward] raises [RuntimeError] on a graph with
    overwritten tensors, training cannot get past its warm-up: on a
    well-formed memory and with a batch size of at least 1, the pass of the
    loop body whose insertion brings the memory to [train_batch_size]
    transitions or more raises [RuntimeError] at [J_pi.backward()]. *)
Theorem train_step_stale_backward_raises :
  forall (cfg : Config.t)
         (grad : (list tensor -> R) -> list tensor -> list tensor)
         (stale_grad : (list tensor -> R) -> list tensor -> list tensor
                       -> list tensor -> result (list tensor))
         (Optimizer : Type)
         (step : Optimizer -> list tensor -> list tensor
                 -> Optimizer * list tensor)
         (Env : Type)
         (env_step : Env -> tensor -> Env * (tensor * R * bool))
         (s : TrainState Optimizer Env) (d : StepDraws),
    (forall f ps qs qs', stale_grad f ps qs qs' = Raise RuntimeError) ->
    Replay.ring_ok (memory s) ->
    (1 <= Config.train_batch_size cfg
     <= Nat.min (Replay.len (memory s) + 1) (Replay.max_len (memory s)))%nat
    ->
    train_step cfg grad stale_grad step env_step s d = Raise RuntimeError.
Proof.
  intros cfg grad stale_grad Optimizer step Env env_step s d Hchk Hok HB.
  destruct (env_step (env s)
              (get_action cfg (policy (nets s)) (state s) (eps d)))
    as [env' [[next_state reward] done]] eqn:Henv.
  destruct (train_step_inv_ok cfg grad stale_grad Optimizer step Env
              env_step s d env' next_state reward done Hok Henv)
    as (m' & Hadd & Hs).
  destruct (memory_add_ok (memory s)
              (state s, get_action cfg (policy (nets s)) (state s) (eps d),
               Config.reward_scaling cfg * reward, next_state, done) Hok)
    as (m2 & Hadd' & Hok' & _ & Hl & _).
  rewrite Hadd in Hadd'. injection Hadd' as <-.
  rewrite Hs.
  rewrite (optimize_model_checked cfg grad stale_grad Optimizer step
             (nets s) m' (opts s) (opt_draws d) Hchk (slots_length Hok'))
    by lia.
  reflexivity.
Qed.

Lemma train_step_stale_backward_raises_witness :
  train_step Example.cfg Example.grad Example.checked_grad Example.step
    Example.env_step Example.start Example.draws
  = Raise RuntimeError.
Proof.
  assert (Hok : Replay.ring_ok (memory Example.start)).
  { apply ring_ok_init. cbv. lia. }
  assert (HB : (1 <= Config.train_batch_size Example.cfg
                <= Nat.min (Replay.len (memory Example.start) + 1)
                     (Replay.max_len (memory Example.start)))%nat)
    by (cbv; lia).
  exact (train_step_stale_backward_raises Example.cfg Example.grad
           Example.checked_grad nat Example.step nat Example.env_step
           Example.start Example.draws (fun f ps qs qs' => eq_refl) Hok HB).
Defined.

End EpisodeTheorems.

(** ** Before the memory holds a batch *)

Section WarmUp.

Import Torch Nets Value SAC.
Local Open Scope R_scope.

Lemma VNet_with_own_parameters (v : VNet) :
  with_parameters v (parameters v) = v.
Proof. destruct v as [[] [] []]. reflexivity. Qed.

Variable cfg : Config.t.
Variable grad : (list tensor -> R) -> list tensor -> list tensor.
Variable stale_grad :
  (list tensor -> R) -> list tensor -> list tensor -> list tensor
  -> result (list tensor).
Variable Optimizer : Type.
Variable step : Optimizer -> list tensor -> list tensor
                -> Optimizer * list tensor.
Variable Env : Type.
Variable env_step : Env -> tensor -> Env * (tensor * R * bool).

Local Abbreviation train_step :=
  (train_step cfg grad stale_grad step env_step).
Local Abbreviation episode_trace :=
  (episode_trace cfg grad stale_grad step env_step).
Local Abbreviation B := (Config.train_batch_size cfg).

(** What a pass changes when [optimize_model] ends at its guard: the
    target network, by the smoothing, and nothing else. *)
Local Abbreviation same_learners n n' :=
  (policy n' = policy n /\ q1_net n' = q1_net n /\ q2_net n' = q2_net n /\
   v_net n' = v_net n).

Lemma train_step_warm_up (s s' : TrainState Optimizer Env) (d : StepDraws)
    (done : bool) :
  train_step s d = Ok (s', done) ->
  (Replay.len (memory s') < B)%nat ->
  same_learners (nets s) (nets s') /\ opts s' = opts s /\
  loss s' = (0, 0, 0).
Proof.
  intros H Hlt.
  apply train_step_inv in H as (e & n1 & _ & Hopt & Hn & _).
  apply optimize_model_inv in Hopt as [[_ E]|[Hge _]]; [|lia].
  injection E as -> -> ->.
  rewrite Hn. repeat split.
Qed.

Lemma train_step_len (s s' : TrainState Optimizer Env) (d : StepDraws)
    (done : bool) :
  Replay.ring_ok (memory s) ->
  train_step s d = Ok (s', done) ->
  Replay.ring_ok (memory s') /\
  (Replay.len (memory s') <= Replay.len (memory s) + 1)%nat.
Proof.
  intros Hok H.
  apply train_step_inv in H as (e & n1 & Hadd & _).
  destruct (memory_add_ok (memory s) e Hok)
    as (m' & Hadd' & Hok' & _ & Hl & _).
  rewrite Hadd in Hadd'. injection Hadd' as <-.
  split; [exact Hok' | lia].
Qed.

Lemma episode_trace_warm_up (ds : list StepDraws) :
  forall (s : TrainState Optimizer Env) tr,
    Replay.ring_ok (memory s) ->
    (Replay.len (memory s) + length ds < B)%nat ->
    episode_trace s ds = Ok tr ->
    Forall (fun s' => same_learners (nets s) (nets s') /\
                      opts s' = opts s /\ loss s' = (0, 0, 0)) tr.
Proof.
  induction ds as [|d ds IH]; intros s tr Hok Hlen H.
  - injection H as <-. constructor.
  - cbn [length] in Hlen. cbn [SAC.episode_trace] in H.
    destruct (train_step s d) as [[s' done]|x] eqn:Hs; [|discriminate].
    cbn [bind] in H.
    destruct (train_step_len s s' d done Hok Hs) as [Hok' Hl].
    destruct (train_step_warm_up s s' d done Hs) as (Hn & Ho & Hloss);
      [lia|].
    destruct done.
    + injection H as <-. constructor; auto.
    + destruct (episode_trace s' ds) as [rest|x] eqn:Hr; [|discriminate].
      cbn [bind] in H. injection H as <-.
      constructor; [auto|].
      specialize (IH s' rest Hok' ltac:(lia) Hr).
      eapply Forall_impl; [|exact IH].
      intros a ((A1 & A2 & A3 & A4) & A5 & A6).
      destruct Hn as (N1 & N2 & N3 & N4).
      repeat split; congruence.
Qed.

End WarmUp.

Section WarmUpTheorems.

Import Torch Nets Value SAC.
Local Open Scope R_scope.

(** X16.  While the memory holds fewer transitions than a batch, training
    learns nothing: along the passes of an episode that leave the memory
    below [train_batch_size], the reported losses are (0, 0, 0) and the
    policy, the two critics, the value network and the three optimizers
    stay as they were; the smoothing of the target is all that a pass
    does to the networks. *)
Theorem warm_up_learns_nothing :
  forall (cfg : Config.t)
         (grad : (list tensor -> R) -> list tensor -> list tensor)
         (stale_grad : (list tensor -> R) -> list tensor -> list tensor
                       -> list tensor -> result (list tensor))
         (Optimizer : Type)
         (step : Optimizer -> list tensor -> list tensor
                 -> Optimizer * list tensor)
         (Env : Type)
         (env_step : Env -> tensor -> Env * (tensor * R * bool))
         (s : TrainState Optimizer Env) (ds : list StepDraws)
         (tr : list (TrainState Optimizer Env)),
    Replay.ring_ok (memory s) ->
    (Replay.len (memory s) + length ds < Config.train_batch_size cfg)%nat ->
    episode_trace cfg grad stale_grad step env_step s ds = Ok tr ->
    Forall (fun s' =>
              policy (nets s') = policy (nets s) /\
              q1_net (nets s') = q1_net (nets s) /\
              q2_net (nets s') = q2_net (nets s) /\
              v_net (nets s') = v_net (nets s) /\
              opts s' = opts s /\ loss s' = (0, 0, 0)) tr.
Proof.
  intros cfg grad stale_grad Optimizer step Env env_step s ds tr Hok Hlen H.
  pose proof (episode_trace_warm_up cfg grad stale_grad Optimizer step Env
                env_step ds s tr Hok Hlen H) as Hall.
  eapply Forall_impl; [|exact Hall].
  intros a ((A1 & A2 & A3 & A4) & A5 & A6). auto 7.
Qed.

Lemma warm_up_learns_nothing_witness :
  exists tr,
    episode_trace (Config.mk 1 5 3 (99 / 100) (1 / 2) (-20) 2 1 0)
      Example.grad Example.checked_grad Example.step
      (fun (e : nat) (_ : tensor) => (S e, ([1], 1, false)))
      Example.start [Example.draws; Example.draws] = Ok tr /\
    length tr = 2%nat /\
    Forall (fun s' => policy (nets s') = Example.actor /\
                      opts s' = Example.optimizers /\
                      loss s' = (0, 0, 0)) tr.
Proof.
  assert (Hok : Replay.ring_ok (memory Example.start)).
  { apply ring_ok_init. cbv. lia. }
  assert (Hlen : (Replay.len (memory Example.start)
                  + length [Example.draws; Example.draws] < 3)%nat)
    by (cbv; lia).
  eexists. split; [reflexivity|]. split; [reflexivity|].
  eapply Forall_impl;
    [|exact (warm_up_learns_nothing
               (Config.mk 1 5 3 (99 / 100) (1 / 2) (-20) 2 1 0)
               Example.grad Example.checked_grad nat Example.step nat
               (fun (e : nat) (_ : tensor) => (S e, ([1], 1, false)))
               Example.start [Example.draws; Example.draws] _ Hok Hlen
               eq_refl)].
  intros a (A1 & _ & _ & _ & A5 & A6). auto.
Defined.

(** X17.  What [__main__] builds before the loop: the memory is empty and,
    for a positive [replay_buffer_size], well formed; the target network
    has the parameters of the value network, and is the value network
    itself when the two were constructed with the same layer sizes. *)
Theorem main_init_target_is_value :
  forall (cfg : Config.t) (Optimizer Env : Type)
         (action_space_high : tensor) (a1 a2 am als : Linear)
         (output_size : nat) (q1 q2 : QNet) (v vt : VNet)
         (oa oq ov : Optimizer) (env : Env),
    (0 < Config.replay_buffer_size cfg)%nat ->
    let s := main_init cfg action_space_high a1 a2 am als output_size
               q1 q2 v vt oa oq ov env in
    Replay.ring_ok (memory s) /\
    Replay.len (memory s) = 0%nat /\
    parameters (v_target_net (nets s)) = parameters (v_net (nets s)) /\
    ((in_features (v_fc1 vt) = in_features (v_fc1 v) /\
      out_features (v_fc1 vt) = out_features (v_fc1 v) /\
      in_features (v_fc2 vt) = in_features (v_fc2 v) /\
      out_features (v_fc2 vt) = out_features (v_fc2 v) /\
      in_features (v_fc3 vt) = in_features (v_fc3 v) /\
      out_features (v_fc3 vt) = out_features (v_fc3 v)) ->
     v_target_net (nets s) = v_net (nets s)).
Proof.
  intros cfg Optimizer Env action_space_high a1 a2 am als output_size q1 q2
    v vt oa oq ov env HC s.
  split; [apply ring_ok_init; exact HC|].
  split; [reflexivity|]. split; [reflexivity|].
  intros (H1 & H2 & H3 & H4 & H5 & H6). subst s. cbn.
  destruct v as [[i1 o1 w1 b1] [i2 o2 w2 b2] [i3 o3 w3 b3]].
  destruct vt as [[] [] []]. cbn in *. subst. reflexivity.
Qed.

Lemma main_init_target_is_value_witness :
  v_target_net
    (nets (main_init Example.cfg (Optimizer:=nat) (Env:=nat) [2]
             (Example.lin 1 0) (Example.lin 1 0) (Example.lin 1 0)
             (Example.lin 0 0) 1 Example.qnet Example.qnet Example.vnet
             (mkVNet (Example.lin 3 4) (Example.lin 5 6) (Example.lin 7 8))
             0%nat 0%nat 0%nat 0%nat))
  = Example.vnet.
Proof.
  assert (HC : (0 < Config.replay_buffer_size Example.cfg)%nat)
    by (cbv; lia).
  destruct (main_init_target_is_value Example.cfg nat nat [2]
              (Example.lin 1 0) (Example.lin 1 0) (Example.lin 1 0)
              (Example.lin 0 0) 1%nat Example.qnet Example.qnet Example.vnet
              (mkVNet (Example.lin 3 4) (Example.lin 5 6) (Example.lin 7 8))
              0%nat 0%nat 0%nat 0%nat HC) as (_ & _ & _ & H).
  apply H. repeat split.
Defined.

End WarmUpTheorems.

(** ** The smoothing of the target *)

Section SmoothingProperties.

Import Torch Nets Value SAC.
Local Open Scope R_scope.

Lemma smooth_tensor_one (t : tensor) : forall p : tensor,
  length t = length p -> smooth_tensor 1 t p = p.
Proof.
  intros p H. unfold smooth_tensor.
  rewrite bcast_same_length by (now rewrite !length_map).
  revert p H.
  induction t as [|x t IH]; intros [|y p] H; try discriminate;
    [reflexivity|].
  cbn [map zip_with]. rewrite IH by (simpl in H; lia). f_equal. ring.
Qed.

Lemma smooth_tensor_zero (t : tensor) : forall p : tensor,
  length t = length p -> smooth_tensor 0 t p = t.
Proof.
  intros p H. unfold smooth_tensor.
  rewrite bcast_same_length by (now rewrite !length_map).
  revert p H.
  induction t as [|x t IH]; intros [|y p] H; try discriminate;
    [reflexivity|].
  cbn [map zip_with]. rewrite IH by (simpl in H; lia). f_equal. ring.
Qed.

Lemma smooth_parameters_one (ts : list tensor) : forall ps,
  Spec.same_shape ts ps -> smooth_parameters 1 ts ps = ps.
Proof.
  unfold Spec.same_shape.
  induction ts as [|t ts IH]; intros [|p ps] H; try discriminate;
    [reflexivity|].
  injection H as Hl Hs. cbn [smooth_parameters].
  now rewrite smooth_tensor_one, IH.
Qed.

Lemma smooth_parameters_zero (ts : list tensor) : forall ps,
  Spec.same_shape ts ps -> smooth_parameters 0 ts ps = ts.
Proof.
  unfold Spec.same_shape.
  induction ts as [|t ts IH]; intros [|p ps] H; try discriminate;
    [reflexivity|].
  injection H as Hl Hs. cbn [smooth_parameters].
  now rewrite smooth_tensor_zero, IH.
Qed.

(** X19.  The two ends of the smoothing rule, for a target of the shape of
    the value network: with [target_smoothing_coeff = 1] the target takes
    the parameters of the value network, with [target_smoothing_coeff = 0]
    it keeps its own. *)
Theorem smoothing_endpoints :
  forall (cfg : Config.t) (n : Networks),
    Spec.same_shape (parameters (v_target_net n)) (parameters (v_net n)) ->
    (Config.target_smoothing_coeff cfg = 1 ->
     parameters (v_target_net (smooth_target cfg n))
     = parameters (v_net n)) /\
    (Config.target_smoothing_coeff cfg = 0 ->
     smooth_target cfg n = n).
Proof.
  intros cfg n Hsh.
  destruct (smooth_target_spec cfg n) as (_ & _ & _ & _ & Hp).
  split; intros Htau.
  - rewrite Hp, Htau. now apply smooth_parameters_one.
  - unfold smooth_target. rewrite Htau.
    rewrite (smooth_parameters_zero _ _ Hsh), VNet_with_own_parameters.
    destruct n. reflexivity.
Qed.

Lemma smoothing_endpoints_witness :
  parameters
    (v_target_net
       (smooth_target (Config.mk 1 5 1 (99 / 100) 1 (-20) 2 1 0)
          (mkNetworks Example.actor Example.qnet Example.qnet Example.vnet
             (mkVNet (Example.lin 3 4) (Example.lin 5 6)
                     (Example.lin 7 8)))))
  = parameters Example.vnet.
Proof.
  destruct (smoothing_endpoints (Config.mk 1 5 1 (99 / 100) 1 (-20) 2 1 0)
              (mkNetworks Example.actor Example.qnet Example.qnet
                 Example.vnet
                 (mkVNet (Example.lin 3 4) (Example.lin 5 6)
                         (Example.lin 7 8)))
              eq_refl) as [H _].
  apply H. reflexivity.
Defined.

End SmoothingProperties.

(** ** Evaluation *)

Section EvaluationProperties.

Import Torch Nets Value SAC.
Local Open Scope R_scope.

Variable cfg : Config.t.
Variable Env : Type.
Variable env_step : Env -> tensor -> Env * (tensor * R * bool).
Variable env_render : Env -> Env.
Variable action_space_high : tensor.

Lemma eval_action_mean_path (p p' : Actor) (s : tensor) :
  a_fc1 p = a_fc1 p' -> a_fc2 p = a_fc2 p' -> fc_mean p = fc_mean p' ->
  eval_action cfg action_space_high p s
  = eval_action cfg action_space_high p' s.
Proof.
  intros H1 H2 H3. unfold eval_action, Actor_forward.
  now rewrite H1, H2, H3.
Qed.

(** The loop of [evaluate_episode] reads the mean head of the policy only;
    the running sum of deviations and the step count feed the printed
    line, not the return value. *)
Lemma evaluate_loop_mean_path (p p' : Actor) :
  a_fc1 p = a_fc1 p' -> a_fc2 p = a_fc2 p' -> fc_mean p = fc_mean p' ->
  forall (fuel : nat) (env : Env) (state : tensor) (rew : R)
         (ss ss' : tensor) (k k' : nat),
    evaluate_loop cfg env_step env_render action_space_high fuel env p
      state rew ss k
    = evaluate_loop cfg env_step env_render action_space_high fuel env p'
        state rew ss' k'.
Proof.
  intros H1 H2 H3.
  induction fuel as [|fuel IH]; intros env state rew ss ss' k k';
    [reflexivity|].
  cbn [evaluate_loop].
  rewrite (eval_action_mean_path p p' state H1 H2 H3).
  destruct (env_step _ _) as [env1 [[next_state reward] done]].
  destruct done; [reflexivity|]. apply IH.
Qed.

End EvaluationProperties.

Section EvaluationTheorems.

Import Torch Nets Value SAC.
Local Open Scope R_scope.

(** X20.  [evaluate_episode] depends on the policy through its mean path
    alone: two policies with the same layers [fc1], [fc2] and [fc_mean]
    drive the environment through the same episode and return the same
    reward, whatever their [fc_logstd] layers and their [action_scale]
    are. *)
Theorem evaluate_episode_reads_mean_only :
  forall (cfg : Config.t) (Env : Type)
         (env_reset : Env -> Env * tensor)
         (env_step : Env -> tensor -> Env * (tensor * R * bool))
         (env_render : Env -> Env) (action_space_high : tensor)
         (fuel : nat) (env : Env) (p p' : Actor),
    a_fc1 p = a_fc1 p' -> a_fc2 p = a_fc2 p' -> fc_mean p = fc_mean p' ->
    evaluate_episode cfg env_reset env_step env_render action_space_high
      fuel env p
    = evaluate_episode cfg env_reset env_step env_render action_space_high
        fuel env p'.
Proof.
  intros cfg Env env_reset env_step env_render action_space_high fuel env
    p p' H1 H2 H3.
  unfold evaluate_episode. destruct (env_reset env) as [env0 state0].
  now apply evaluate_loop_mean_path.
Qed.

Lemma evaluate_episode_reads_mean_only_witness :
  evaluate_episode Example.cfg Example.env_reset Example.env_step
    (fun e => e) Example.action_space_high 3 0%nat Example.actor
  = evaluate_episode Example.cfg Example.env_reset Example.env_step
      (fun e => e) Example.action_space_high 3 0%nat
      (mkActor (Example.lin 1 0) (Example.lin 1 0) (Example.lin 1 0)
               (Example.lin 5 1) 1 [7]).
Proof.
  apply (evaluate_episode_reads_mean_only Example.cfg nat
           Example.env_reset Example.env_step (fun e => e)
           Example.action_space_high 3 0%nat Example.actor
           (mkActor (Example.lin 1 0) (Example.lin 1 0) (Example.lin 1 0)
                    (Example.lin 5 1) 1 [7]));
    reflexivity.
Defined.

End EvaluationTheorems.

(** ** What the optimizers can change *)

Section UpdateProperties.

Import Torch Nets Value SAC.
Local Open Scope R_scope.

Lemma with_own_q_params (n : Networks) :
  with_q_params n (q_params n) = n.
Proof.
  destruct n as [p [[] [] []] [[] [] []] v vt]. reflexivity.
Qed.

(** X21.  The networks change through the optimizer steps and through
    nothing else: with a [step] that hands every parameter back unchanged,
    [optimize_model] returns the networks it was given, the joint
    parameter list of the two critics included. *)
Theorem identity_step_keeps_networks :
  forall (cfg : Config.t)
         (grad : (list tensor -> R) -> list tensor -> list tensor)
         (stale_grad : (list tensor -> R) -> list tensor -> list tensor
                        -> list tensor -> result (list tensor))
         (Optimizer : Type)
         (step : Optimizer -> list tensor -> list tensor
                 -> Optimizer * list tensor)
         (nets : Networks) (mem : Memory) (opts : Optimizers Optimizer)
         (d : Draws) (l : R * R * R) (nets' : Networks)
         (opts' : Optimizers Optimizer),
    (forall o ps g, snd (step o ps g) = ps) ->
    optimize_model cfg grad stale_grad step nets mem opts d = Ok (l, nets', opts') ->
    nets' = nets.
Proof.
  intros cfg grad stale_grad Optimizer step nets mem opts d l nets' opts' Hid H.
  apply optimize_model_inv in H as [[_ E]|[_ (bs & b & _ & _ & E)]].
  - now injection E as _ <- _.
  - apply optimize_on_batch_inv in E as (oa & p' & Hpi & E).
    injection E as _ -> _.
    unfold update_pi in Hpi.
    destruct (stale_grad _ _ _ _) as [g|x]; [|discriminate].
    cbn [bind] in Hpi.
    pose proof (Hid (actor_optimizer opts) (parameters (policy nets)) g)
      as Ep.
    destruct (step (actor_optimizer opts) _ g) as [oa' psa].
    cbn [snd] in Ep. subst psa. injection Hpi as _ <-.
    unfold update_v, update_q.
    repeat match goal with
           | |- context [step ?o ?ps ?g] =>
               let E := fresh "E" in
               pose proof (Hid o ps g) as E;
               destruct (step o ps g); cbn [snd] in E; subst
           end.
    cbn [fst snd]. rewrite with_own_q_params.
    destruct nets as [[[] [] [] [] ? ?] q1 q2 [[] [] []] vt]. reflexivity.
Qed.

Lemma identity_step_keeps_networks_witness :
  exists l nets' opts',
    optimize_model Example.cfg Example.grad Example.stale_grad
      (fun (o : nat) (ps g : list tensor) => (S o, ps))
      Example.networks Example.memory1 Example.optimizers
      (mkDraws 0 [[0]])
    = Ok (l, nets', opts') /\
    nets' = Example.networks.
Proof.
  do 3 eexists. split; [reflexivity|].
  apply (identity_step_keeps_networks Example.cfg Example.grad Example.stale_grad nat
           (fun (o : nat) (ps g : list tensor) => (S o, ps))
           Example.networks Example.memory1 Example.optimizers
           (mkDraws 0 [[0]]) _ _ _ (fun o ps g => eq_refl) eq_refl).
Defined.

End UpdateProperties.

